(** * GameTracer C ABI shim: size validation, marshalling and failure translation

    A shallow embedding of the C ABI shim under [c_api/] (the functions
    [compute_sizes], [cleanup_eq], [gametracer_free], [ipa] and [gnm]).

    Data model.
    - [int] is a 32-bit signed integer and [size_t] a 64-bit unsigned one
      (LP64 / LLP64); both are carried as [Z] with the wrap-around of
      [size_t] arithmetic written out.  The size computation is also given
      for an arbitrary [size_t] width.
    - A [double] is only ever copied by the shim, never computed with: it is
      an abstract type.
    - Memory reachable through pointers is a store indexed by addresses;
      [nullptr] is [None].  Reading or writing outside a buffer, and
      releasing an address that is not a live allocation, is undefined
      behaviour in C++: the model stops with [Fault].
    - C++ exceptions are an outcome of their own, [Raise]; [try]/[catch]
      is [try_catch].  Objects with automatic storage are released when
      their scope is left, normally or by an exception ([with_local]).
    - The upstream solver ([nfgame], [IPA], [GNM]) is not part of the shim:
      it is a parameter of the development.

    The argument handling of the command-line driver ([main] of [gt.cc]) is
    embedded after the shim. *)

From stdpp Require Import base numbers list gmap sets strings.

Local Set Warnings "-clear-no-such-hyp".

Local Open Scope Z_scope.

(** ** Machine integers *)

Definition INT_MAX : Z := 2 ^ 31 - 1.
Definition INT_MIN : Z := - 2 ^ 31.

(** [static_cast<size_t>(x)] and the result of [size_t] arithmetic, for a
    [size_t] of [bits] bits. *)
Definition size_wrap (bits x : Z) : Z := x mod 2 ^ bits.
Definition size_max (bits : Z) : Z := 2 ^ bits - 1.

(** The width of [size_t] on a 64-bit target.  [compute_sizes], [ipa] and
    [gnm] below are the code as such a target compiles it;
    [compute_sizes_on] and [ipa_on] take the width as an argument. *)
Definition SIZE_BITS : Z := 64.
Definition sizeof_double : Z := 8.

(** ** Addresses, exceptions, outcomes *)

Abbreviation loc := positive (only parsing).
Abbreviation ptr := (option positive) (only parsing).

Inductive exn : Type :=
  | bad_alloc   (* std::bad_alloc, caught by the first handler *)
  | other_exn.  (* anything else, caught by [catch (...)] *)

Inductive outcome (St A : Type) : Type :=
  | Done (a : A) (s : St)
  | Raise (e : exn) (s : St)
  | Fault.
Arguments Done {St A} a s.
Arguments Raise {St A} e s.
Arguments Fault {St A}.

Definition prog (St A : Type) : Type := St → outcome St A.

Definition ret {St A} (a : A) : prog St A := λ s, Done a s.
Definition bind {St A B} (m : prog St A) (k : A → prog St B) : prog St B :=
  λ s, match m s with
       | Done a s' => k a s'
       | Raise e s' => Raise e s'
       | Fault => Fault
       end.
Definition throw {St A} (e : exn) : prog St A := λ s, Raise e s.
Definition fault {St A} : prog St A := λ _, Fault.

(** [try { m } catch (e) { h e }] *)
Definition try_catch {St A} (m : prog St A) (h : exn → prog St A) : prog St A :=
  λ s, match m s with
       | Done a s' => Done a s'
       | Raise e s' => h e s'
       | Fault => Fault
       end.

(** Run [c] when [m] is left, on both exits. *)
Definition finally {St A} (m : prog St A) (c : prog St unit) : prog St A :=
  λ s, match m s with
       | Done a s' => bind c (λ _, ret a) s'
       | Raise e s' => bind c (λ _, throw e) s'
       | Fault => Fault
       end.

Global Instance prog_ret {St} : MRet (prog St) := λ A, @ret St A.
Global Instance prog_bind {St} : MBind (prog St) := λ A B k m, bind m k.

Section Shim.

(** ** The upstream collaborator *)

Context {double : Type}.
Abbreviation cvector := (list double).

(** The game object built by [nfgame A(N, acts.data(), payvec)]. *)
Record nfgame : Type := NFGame {
  g_players : Z;
  g_actions : list Z;
  g_payoffs : cvector
}.

(** [IPA(A, g, zh, alpha, fuzz, ans)] takes [g], [zh] and [ans] by reference:
    a call that returns gives the value returned and what the three vectors
    hold afterwards. *)
Inductive ipa_result : Type :=
  | IPA_returns (r : Z) (g zh ans : cvector)
  | IPA_throws (e : exn).

(** [GNM(A, g, Eq, ...)] takes [g] and the handle array [Eq] by reference.
    [Eq] is [None] while it is [nullptr], otherwise the vectors owned by
    the handles it stores, in order; it is visible to the caller whether the
    call returns or throws. *)
Inductive gnm_result : Type :=
  | GNM_returns (found : Z) (g : cvector) (Eq_ : option (list cvector))
  | GNM_throws (e : exn) (Eq_ : option (list cvector)).

(** [nfgame_ctor] is [None] when the constructor completes and [Some e]
    when it throws [e]. *)
Variable nfgame_ctor : Z → list Z → cvector → option exn.
Variable IPA : nfgame → cvector → cvector → double → double → cvector → ipa_result.
Variable GNM :
  nfgame → cvector → Z → double → Z → Z → double → Z → double → gnm_result.

(** The indeterminate value found at each index of storage that has been
    allocated and not yet written ([cvector(int)] and [malloc] do not
    initialise). *)
Variable uninit : nat → double.
Definition junk (n : nat) : cvector := uninit <$> seq 0 n.

(** One invocation of an upstream solver. *)
Inductive event : Type :=
  | Ev_IPA (res : ipa_result)
  | Ev_GNM (res : gnm_result).

(** ** The world *)

Record world : Type := World {
  ints   : gmap loc (list Z);   (* int arrays, reached through [const int*] *)
  mem    : gmap loc cvector;    (* double arrays: caller buffers, malloc'd blocks *)
  cells  : gmap loc ptr;        (* [double*] cells, reached through [double**] *)
  heap   : gset loc;            (* live allocations *)
  allocs : nat;                 (* allocation requests so far *)
  oom    : nat → bool;          (* is the i-th allocation request refused? *)
  trace  : list event           (* what each solver invocation answered, oldest first *)
}.

Definition set_mem (f : gmap loc cvector → gmap loc cvector) (w : world) : world :=
  World (ints w) (f (mem w)) (cells w) (heap w) (allocs w) (oom w) (trace w).
Definition set_cells (f : gmap loc ptr → gmap loc ptr) (w : world) : world :=
  World (ints w) (mem w) (f (cells w)) (heap w) (allocs w) (oom w) (trace w).
Definition set_heap (f : gset loc → gset loc) (w : world) : world :=
  World (ints w) (mem w) (cells w) (f (heap w)) (allocs w) (oom w) (trace w).
Definition count_alloc (w : world) : world :=
  World (ints w) (mem w) (cells w) (heap w) (S (allocs w)) (oom w) (trace w).
Definition log_event (ev : event) (w : world) : world :=
  World (ints w) (mem w) (cells w) (heap w) (allocs w) (oom w) (trace w ++ [ev]).

(** Addresses in use: an allocation returns one outside this set. *)
Definition used (w : world) : gset loc :=
  heap w ∪ dom (mem w) ∪ dom (ints w) ∪ dom (cells w).

(** The state a function runs on: the world, and for [gnm] also the
    variables hoisted out of its [try] block. *)
Class Machine (St : Type) : Type := {
  world_of : St → world;
  with_world : world → St → St;
  world_of_with : ∀ w s, world_of (with_world w s) = w;
  with_world_of : ∀ s, with_world (world_of s) s = s;
  with_with : ∀ w w' s, with_world w (with_world w' s) = with_world w s
}.
Global Instance world_machine : Machine world.
Proof. by refine {| world_of := λ w, w; with_world := λ w _, w |}. Defined.
Global Instance frame_machine {L} : Machine (L * world).
Proof.
  refine {| world_of := snd; with_world := λ w s, (fst s, w) |};
    [done | by intros [] | done].
Defined.

Definition on_world `{Machine St} {A} (m : prog world A) : prog St A :=
  λ s, match m (world_of s) with
       | Done a w => Done a (with_world w s)
       | Raise e w => Raise e (with_world w s)
       | Fault => Fault
       end.

(** ** Primitive operations *)

(** [actions[p]] *)
Definition load_int `{Machine St} (a : loc) (p : nat) : prog St Z :=
  on_world (λ w, match ints w !! a with
                 | Some xs => match xs !! p with
                              | Some x => Done x w
                              | None => Fault
                              end
                 | None => Fault
                 end).

(** Number of doubles in [bytes] bytes. *)
Definition doubles_in (bytes : Z) : nat := Z.to_nat (bytes `div` sizeof_double).

(** [static_cast<size_t>(n) * sizeof(double)] *)
Definition nbytes (n : Z) : Z :=
  size_wrap SIZE_BITS (size_wrap SIZE_BITS n * sizeof_double).

(** [memcpy(v.values(), src, bytes)] into a vector of that many entries:
    what the vector holds afterwards. *)
Definition read_doubles `{Machine St} (src : loc) (bytes : Z) : prog St cvector :=
  on_world (λ w, match mem w !! src with
                 | Some xs => if decide (doubles_in bytes ≤ length xs)%nat
                              then Done (take (doubles_in bytes) xs) w
                              else Fault
                 | None => Fault
                 end).

(** [memcpy(dst + off, v.values(), bytes)] *)
Definition write_doubles `{Machine St} (dst : loc) (off : nat) (v : cvector) (bytes : Z)
    : prog St unit :=
  on_world (λ w, match mem w !! dst with
                 | Some xs =>
                     let n := doubles_in bytes in
                     if decide (n ≤ length v ∧ off + n ≤ length xs)%nat
                     then Done tt (set_mem <[dst := take off xs ++ take n v ++ drop (off + n) xs]> w)
                     else Fault
                 | None => Fault
                 end).

(** [*c = p] *)
Definition store_ptr `{Machine St} (c : loc) (p : ptr) : prog St unit :=
  on_world (λ w, match cells w !! c with
                 | Some _ => Done tt (set_cells <[c := p]> w)
                 | None => Fault
                 end).

(** [operator new]: throws [std::bad_alloc] when the request is refused. *)
Definition new_obj `{Machine St} : prog St loc :=
  on_world (λ w, if oom w (allocs w) then Raise bad_alloc (count_alloc w)
                 else let l := fresh (used w) in
                      Done l (set_heap (λ h, {[l]} ∪ h) (count_alloc w))).

(** The destructor of an automatic object gives its storage back. *)
Definition drop_obj `{Machine St} (l : loc) : prog St unit :=
  on_world (λ w, Done tt (set_heap (λ h, h ∖ {[l]}) w)).

(** An object with automatic storage, alive while [m] runs. *)
Definition with_local `{Machine St} {A} (m : prog St A) : prog St A :=
  l ← new_obj; finally m (drop_obj l).

(** [std::malloc(bytes)]: [nullptr] when the request is refused, otherwise
    an uninitialised block. *)
Definition malloc `{Machine St} (bytes : Z) : prog St ptr :=
  on_world (λ w, if oom w (allocs w) then Done None (count_alloc w)
                 else let l := fresh (used w) in
                      Done (Some l)
                        (set_mem <[l := junk (doubles_in bytes)]>
                           (set_heap (λ h, {[l]} ∪ h) (count_alloc w)))).

(** [std::free(p)] and [delete p]: nothing on [nullptr]; releasing an
    address that is not a live allocation is undefined. *)
Definition free `{Machine St} (p : ptr) : prog St unit :=
  on_world (λ w, match p with
                 | None => Done tt w
                 | Some l => if decide (l ∈ heap w)
                             then Done tt (set_mem (delete l) (set_heap (λ h, h ∖ {[l]}) w))
                             else Fault
                 end).

(** ** The size validator *)

(** [struct GameSizes]; the fields are [N], [M], [P] and [payoff_len]. *)
Record GameSizes : Type := MkSizes {
  sz_N : Z;             (* num_players *)
  sz_M : Z;             (* sum(actions) *)
  sz_P : Z;             (* prod(actions) *)
  sz_payoff_len : Z     (* N * P *)
}.

(** The loop of [compute_sizes], with [todo] iterations left at index [p];
    [None] is the early [return false].  Where [size_t] is too narrow for a
    positive [int], [static_cast<size_t>(ap)] can be 0 and the division
    [SIZE_MAX / 0] is undefined. *)
Fixpoint sizes_loop `{Machine St} (bits : Z) (actions : loc) (todo p : nat) (M P : Z)
    : prog St (option (Z * Z)) :=
  match todo with
  | O => mret (Some (M, P))
  | S todo' =>
      ap ← load_int actions p;
      if decide (ap ≤ 0) then mret None
      else
        let M' := size_wrap bits (M + size_wrap bits ap) in
        if decide (size_wrap bits ap = 0) then fault
        else if decide (P > size_max bits `div` size_wrap bits ap) then mret None
        else sizes_loop bits actions todo' (S p) M' (size_wrap bits (P * size_wrap bits ap))
  end.

(** [compute_sizes] for a [size_t] of [bits] bits; [None] is [false], and
    [Some sz] is [true] with [out = sz]. *)
Definition compute_sizes_on `{Machine St} (bits : Z) (num_players : Z) (actions : ptr)
    : prog St (option GameSizes) :=
  match actions with
  | Some a =>
      if decide (num_players ≤ 0) then mret None
      else
        r ← sizes_loop bits a (Z.to_nat num_players) 0 0 1;
        match r with
        | None => mret None
        | Some (M, P) =>
            if decide (M > size_wrap bits INT_MAX) then mret None
            else if decide (P > size_wrap bits INT_MAX) then mret None
            else
              let payoff_len := size_wrap bits (size_wrap bits num_players * P) in
              if decide (payoff_len > size_wrap bits INT_MAX) then mret None
              else mret (Some (MkSizes num_players M P payoff_len))
        end
  | None => mret None
  end.

Definition compute_sizes `{Machine St} (num_players : Z) (actions : ptr)
    : prog St (option GameSizes) :=
  compute_sizes_on SIZE_BITS num_players actions.

(** ** Handles and the variables hoisted out of [gnm]'s [try] block *)

(** A non-null [cvector** Eq]: the address of the array and, for each slot,
    the address of the handle with the vector it owns. *)
Record eq_array : Type := EqArray {
  eq_base : loc;
  eq_slots : list (loc * cvector)
}.

Record gnm_frame : Type := Frame {
  f_Eq : option eq_array;   (* cvector** Eq = nullptr *)
  f_found : Z;              (* int found = 0 *)
  f_buf : ptr               (* double* buf = nullptr *)
}.

Definition get_frame : prog (gnm_frame * world) gnm_frame := λ s, Done (fst s) s.
Definition set_Eq (a : option eq_array) : prog (gnm_frame * world) unit :=
  λ s, Done tt (Frame a (f_found (fst s)) (f_buf (fst s)), snd s).
Definition set_found (n : Z) : prog (gnm_frame * world) unit :=
  λ s, Done tt (Frame (f_Eq (fst s)) n (f_buf (fst s)), snd s).
Definition set_buf (p : ptr) : prog (gnm_frame * world) unit :=
  λ s, Done tt (Frame (f_Eq (fst s)) (f_found (fst s)) p, snd s).

(** Run a block with its own variables, initialised to [fr]. *)
Definition with_frame {L A} (fr : L) (m : prog (L * world) A) : prog world A :=
  λ w, match m (fr, w) with
       | Done a s => Done a (snd s)
       | Raise e s => Raise e (snd s)
       | Fault => Fault
       end.

(** What upstream left in [Eq] becomes live allocations: the array and one
    block per handle. *)
Definition adopt_eq `{Machine St} (Eq_ : option (list cvector)) : prog St (option eq_array) :=
  on_world (λ w, match Eq_ with
                 | None => Done None w
                 | Some vs =>
                     let ls := fresh_list (S (length vs)) (used w) in
                     Done (Some (EqArray (hd 1%positive ls) (zip (tl ls) vs)))
                          (set_heap (λ h, list_to_set ls ∪ h) w)
                 end).

(** ** [cleanup_eq] and [gametracer_free] *)

(** [for (k = 0; k < numEq; ++k) delete Eq[k];] with [todo] iterations left. *)
Fixpoint delete_handles `{Machine St} (slots : list (loc * cvector)) (todo k : nat)
    : prog St unit :=
  match todo with
  | O => mret tt
  | S todo' =>
      match slots !! k with
      | Some (h, _) => free (Some h);; delete_handles slots todo' (S k)
      | None => fault
      end
  end.

Definition cleanup_eq `{Machine St} (Eq_ : option eq_array) (numEq : Z) : prog St unit :=
  match Eq_ with
  | None => mret tt
  | Some a => delete_handles (eq_slots a) (Z.to_nat numEq) 0;; free (Some (eq_base a))
  end.

Definition gametracer_free (p : ptr) : prog world unit := free p.

(** ** The game adapter and the solver calls *)

(** [for (p = 0; p < N; ++p) acts[p] = actions[p];] *)
Fixpoint copy_ints `{Machine St} (actions : loc) (todo p : nat) : prog St (list Z) :=
  match todo with
  | O => mret []
  | S todo' =>
      x ← load_int actions p;
      xs ← copy_ints actions todo' (S p);
      mret (x :: xs)
  end.

(** [nfgame A(N, acts.data(), payvec)] *)
Definition construct_nfgame {St} (N : Z) (acts : list Z) (payvec : cvector)
    : prog St nfgame :=
  match nfgame_ctor N acts payvec with
  | None => mret (NFGame N acts payvec)
  | Some e => throw e
  end.

(** [IPA(A, gvec, zhvec, alpha, fuzz, ansvec)]: the value returned with the
    contents of [zhvec] and [ansvec] after the call. *)
Definition call_IPA `{Machine St} (A : nfgame) (gvec zhvec : cvector) (alpha fuzz : double)
    (ansvec : cvector) : prog St (Z * cvector * cvector) :=
  let res := IPA A gvec zhvec alpha fuzz ansvec in
  on_world (λ w, Done tt (log_event (Ev_IPA res) w));;
  match res with
  | IPA_returns r _ zhvec' ansvec' => mret (r, zhvec', ansvec')
  | IPA_throws e => throw e
  end.

(** [found = GNM(A, gvec, Eq, ...)]: [Eq] is written by the callee, [found]
    only when the call returns. *)
Definition call_GNM (A : nfgame) (gvec : cvector) (steps : Z) (fuzz : double)
    (lnmfreq lnmmax : Z) (lambdamin : double) (wobble : Z) (threshold : double)
    : prog (gnm_frame * world) unit :=
  let res := GNM A gvec steps fuzz lnmfreq lnmmax lambdamin wobble threshold in
  on_world (λ w, Done tt (log_event (Ev_GNM res) w));;
  match res with
  | GNM_returns found _ Eq_ => a ← adopt_eq Eq_; set_Eq a;; set_found found
  | GNM_throws e Eq_ => a ← adopt_eq Eq_; set_Eq a;; throw e
  end.

(** ** [ipa] *)

(** The [try] block of [ipa]. *)
Definition ipa_body (sz : GameSizes) (actions payoffs g zh : loc) (alpha fuzz : double)
    (ans : loc) : prog world Z :=
  with_local (                                   (* std::vector<int> acts(N) *)
    acts ← copy_ints actions (Z.to_nat (sz_N sz)) 0;
    with_local (                                 (* cvector payvec(payoff_len) *)
      payvec ← read_doubles payoffs (nbytes (sz_payoff_len sz));
      with_local (                               (* nfgame A *)
        A ← construct_nfgame (sz_N sz) acts payvec;
        with_local (                             (* cvector gvec(M) *)
          gvec ← read_doubles g (nbytes (sz_M sz));
          with_local (                           (* cvector zhvec(M) *)
            zhvec ← read_doubles zh (nbytes (sz_M sz));
            with_local (                         (* cvector ansvec(M) *)
              let ansvec := junk (Z.to_nat (sz_M sz)) in
              '(r, zhvec', ansvec') ← call_IPA A gvec zhvec alpha fuzz ansvec;
              write_doubles zh 0 zhvec' (nbytes (sz_M sz));;
              write_doubles ans 0 ansvec' (nbytes (sz_M sz));;
              mret r)))))).

(** The two handlers of [ipa]. *)
Definition ipa_handler (e : exn) : prog world Z :=
  match e with
  | bad_alloc => mret (-2)
  | other_exn => mret (-3)
  end.

Definition ipa (num_players : Z) (actions payoffs g zh : ptr) (alpha fuzz : double)
    (ans : ptr) : prog world Z :=
  match actions, payoffs, g, zh, ans with
  | Some actions', Some payoffs', Some g', Some zh', Some ans' =>
      sz ← compute_sizes num_players actions;
      match sz with
      | None => mret (-1)
      | Some sz =>
          try_catch (ipa_body sz actions' payoffs' g' zh' alpha fuzz ans') ipa_handler
      end
  | _, _, _, _, _ => mret (-1)
  end.

(** *** [ipa] for another width of [size_t] *)

(** [static_cast<size_t>(n) * sizeof(double)] for a [size_t] of [bits] bits. *)
Definition nbytes_on (bits n : Z) : Z :=
  size_wrap bits (size_wrap bits n * sizeof_double).

(** The [try] block of [ipa] for a [size_t] of [bits] bits. *)
Definition ipa_body_on (bits : Z) (sz : GameSizes) (actions payoffs g zh : loc)
    (alpha fuzz : double) (ans : loc) : prog world Z :=
  with_local (                                   (* std::vector<int> acts(N) *)
    acts ← copy_ints actions (Z.to_nat (sz_N sz)) 0;
    with_local (                                 (* cvector payvec(payoff_len) *)
      payvec ← read_doubles payoffs (nbytes_on bits (sz_payoff_len sz));
      with_local (                               (* nfgame A *)
        A ← construct_nfgame (sz_N sz) acts payvec;
        with_local (                             (* cvector gvec(M) *)
          gvec ← read_doubles g (nbytes_on bits (sz_M sz));
          with_local (                           (* cvector zhvec(M) *)
            zhvec ← read_doubles zh (nbytes_on bits (sz_M sz));
            with_local (                         (* cvector ansvec(M) *)
              let ansvec := junk (Z.to_nat (sz_M sz)) in
              '(r, zhvec', ansvec') ← call_IPA A gvec zhvec alpha fuzz ansvec;
              write_doubles zh 0 zhvec' (nbytes_on bits (sz_M sz));;
              write_doubles ans 0 ansvec' (nbytes_on bits (sz_M sz));;
              mret r)))))).

(** [ipa] for a [size_t] of [bits] bits. *)
Definition ipa_on (bits : Z) (num_players : Z) (actions payoffs g zh : ptr)
    (alpha fuzz : double) (ans : ptr) : prog world Z :=
  match actions, payoffs, g, zh, ans with
  | Some actions', Some payoffs', Some g', Some zh', Some ans' =>
      sz ← compute_sizes_on bits num_players actions;
      match sz with
      | None => mret (-1)
      | Some sz =>
          try_catch (ipa_body_on bits sz actions' payoffs' g' zh' alpha fuzz ans') ipa_handler
      end
  | _, _, _, _, _ => mret (-1)
  end.

(** At 64 bits it is [ipa]. *)
Lemma ipa_on_64_bits num_players actions payoffs g zh alpha fuzz ans :
  ipa_on SIZE_BITS num_players actions payoffs g zh alpha fuzz ans
  = ipa num_players actions payoffs g zh alpha fuzz ans.
Proof. reflexivity. Qed.

(** ** [gnm] *)

(** [static_cast<size_t>(k) * static_cast<size_t>(sz.M)], the offset of row [k]. *)
Definition row_offset (k : nat) (M : Z) : nat :=
  Z.to_nat (size_wrap SIZE_BITS (size_wrap SIZE_BITS (Z.of_nat k) * size_wrap SIZE_BITS M)).

(** [for (k = 0; k < found; ++k) memcpy(buf + k * M, Eq[k]->values(), M * sizeof(double));] *)
Fixpoint copy_rows `{Machine St} (buf : loc) (Eq_ : option eq_array) (M : Z) (todo k : nat)
    : prog St unit :=
  match todo with
  | O => mret tt
  | S todo' =>
      match Eq_ ≫= (λ a, eq_slots a !! k) with
      | Some (_, v) =>
          write_doubles buf (row_offset k M) v (nbytes M);;
          copy_rows buf Eq_ M todo' (S k)
      | None => fault
      end
  end.

(** [static_cast<size_t>(found) * static_cast<size_t>(sz.M) * sizeof(double)],
    the argument of [malloc]. *)
Definition block_bytes (found M : Z) : Z :=
  let total := size_wrap SIZE_BITS (size_wrap SIZE_BITS found * size_wrap SIZE_BITS M) in
  size_wrap SIZE_BITS (total * sizeof_double).

(** The [try] block of [gnm]. *)
Definition gnm_body (sz : GameSizes) (actions payoffs g answers : loc) (steps : Z)
    (fuzz : double) (lnmfreq lnmmax : Z) (lambdamin : double) (wobble : Z)
    (threshold : double) : prog (gnm_frame * world) Z :=
  with_local (                                   (* std::vector<int> acts(N) *)
    acts ← copy_ints actions (Z.to_nat (sz_N sz)) 0;
    with_local (                                 (* cvector payvec(payoff_len) *)
      payvec ← read_doubles payoffs (nbytes (sz_payoff_len sz));
      with_local (                               (* nfgame A *)
        A ← construct_nfgame (sz_N sz) acts payvec;
        with_local (                             (* cvector gvec(M) *)
          gvec ← read_doubles g (nbytes (sz_M sz));
          call_GNM A gvec steps fuzz lnmfreq lnmmax lambdamin wobble threshold;;
          fr ← get_frame;
          if decide (f_found fr = 0) then
            cleanup_eq (f_Eq fr) 0;;
            store_ptr answers None;;
            mret 0
          else if decide (f_found fr < 0) then
            cleanup_eq (f_Eq fr) 0;;
            store_ptr answers None;;
            mret (-3)
          else
            buf ← malloc (block_bytes (f_found fr) (sz_M sz));
            set_buf buf;;
            match buf with
            | None =>
                cleanup_eq (f_Eq fr) (f_found fr);;
                set_Eq None;;
                mret (-2)
            | Some b =>
                copy_rows b (f_Eq fr) (sz_M sz) (Z.to_nat (f_found fr)) 0;;
                cleanup_eq (f_Eq fr) (f_found fr);;
                set_Eq None;;
                store_ptr answers buf;;
                set_buf None;;
                mret (f_found fr)
            end)))).

(** The two handlers of [gnm], which differ in the code returned. *)
Definition gnm_handler (answers : loc) (e : exn) : prog (gnm_frame * world) Z :=
  fr ← get_frame;
  (match f_buf fr with
   | Some _ => free (f_buf fr)
   | None => mret tt
   end);;
  cleanup_eq (f_Eq fr) (if decide (f_found fr > 0) then f_found fr else 0);;
  store_ptr answers None;;
  match e with
  | bad_alloc => mret (-2)
  | other_exn => mret (-3)
  end.

Definition gnm (num_players : Z) (actions payoffs g answers : ptr) (steps : Z)
    (fuzz : double) (lnmfreq lnmmax : Z) (lambdamin : double) (wobble : Z)
    (threshold : double) : prog world Z :=
  (match answers with
   | Some c => store_ptr c None
   | None => mret tt
   end);;
  match actions, payoffs, g, answers with
  | Some actions', Some payoffs', Some g', Some answers' =>
      sz ← compute_sizes num_players actions;
      match sz with
      | None => mret (-1)
      | Some sz =>
          with_frame (Frame None 0 None)
            (try_catch
               (gnm_body sz actions' payoffs' g' answers' steps fuzz lnmfreq lnmmax
                  lambdamin wobble threshold)
               (gnm_handler answers'))
      end
  | _, _, _, _ => mret (-1)
  end.

(** ** What the size validator computes *)

Definition is_int (x : Z) : Prop := INT_MIN ≤ x ≤ INT_MAX.

(** M, the sum of the action counts, and P, their product. *)
Definition total_actions (acts : list Z) : Z := foldr Z.add 0 acts.
Definition profile_count (acts : list Z) : Z := foldr Z.mul 1 acts.

(** A game whose sizes fit in an [int]. *)
Definition valid_game (N : Z) (acts : list Z) : Prop :=
  Forall (λ a, 0 < a) acts ∧
  total_actions acts ≤ INT_MAX ∧
  profile_count acts ≤ INT_MAX ∧
  N * profile_count acts ≤ INT_MAX.

(** The reasons for which the validator turns a game down. *)
Definition rejected_game (N : Z) (acts : list Z) : Prop :=
  Exists (λ a, a ≤ 0) acts ∨
  INT_MAX < total_actions acts ∨
  INT_MAX < profile_count acts ∨
  INT_MAX < N * profile_count acts.

Global Instance valid_game_dec N acts : Decision (valid_game N acts).
Proof. unfold valid_game. apply _. Defined.

Lemma profile_count_pos acts : Forall (λ a, 0 < a) acts → 1 ≤ profile_count acts.
Proof. induction 1 as [|a acts Ha _ IH]; simpl; [lia | nia]. Qed.

Lemma total_actions_nonneg acts : Forall (λ a, 0 < a) acts → 0 ≤ total_actions acts.
Proof. induction 1 as [|a acts Ha _ IH]; simpl; lia. Qed.

Lemma rejected_not_valid N acts : rejected_game N acts → ¬ valid_game N acts.
Proof.
  intros Hrej (Hpos & HM & HP & HNP).
  destruct Hrej as [Hex | [? | [? | ?]]]; try lia.
  apply Exists_exists in Hex as (a & Hin & Ha).
  rewrite Forall_forall in Hpos. specialize (Hpos a Hin). lia.
Qed.

Lemma not_valid_rejected N acts : ¬ valid_game N acts → rejected_game N acts.
Proof.
  intros Hnv. unfold rejected_game.
  destruct (decide (Forall (λ a, 0 < a) acts)) as [Hpos | Hneg].
  - destruct (decide (total_actions acts ≤ INT_MAX)); [|right; left; lia].
    destruct (decide (profile_count acts ≤ INT_MAX)); [|right; right; left; lia].
    destruct (decide (N * profile_count acts ≤ INT_MAX)); [|right; right; right; lia].
    destruct Hnv. by repeat split.
  - left. apply not_Forall_Exists in Hneg; [|apply _].
    eapply Exists_impl; [exact Hneg|]. simpl. intros; lia.
Qed.

Section Run.
Context `{Machine St}.

Lemma on_world_done {A} (m : prog world A) (s : St) a :
  m (world_of s) = Done a (world_of s) → on_world m s = Done a s.
Proof. unfold on_world. intros ->. by rewrite with_world_of. Qed.

Lemma load_int_run (s : St) a arr p x :
  ints (world_of s) !! a = Some arr → arr !! p = Some x →
  load_int a p s = Done x s.
Proof.
  intros Ha Hp. unfold load_int. apply on_world_done. by rewrite Ha, Hp.
Qed.

Lemma size_wrap_small bits x : 0 ≤ x < 2 ^ bits → size_wrap bits x = x.
Proof. intros. unfold size_wrap. by apply Z.mod_small. Qed.

(** The loop on a well-typed array: it neither faults nor touches the
    state, and it goes through exactly when every count is positive and the
    running product stays within [size_t]. *)
Lemma sizes_loop_run (s : St) a arr seg : ∀ p M P,
  ints (world_of s) !! a = Some arr →
  (∀ i x, seg !! i = Some x → arr !! (p + i)%nat = Some x) →
  Forall (λ x, x ≤ INT_MAX) seg →
  0 ≤ M → M + Z.of_nat (length seg) * INT_MAX ≤ size_max SIZE_BITS →
  0 ≤ P ≤ size_max SIZE_BITS →
  sizes_loop SIZE_BITS a (length seg) p M P s =
    Done (if decide (Forall (λ x, 0 < x) seg ∧ P * profile_count seg ≤ size_max SIZE_BITS)
          then Some (M + total_actions seg, P * profile_count seg)
          else None) s.
Proof.
  induction seg as [|x seg IH]; intros p M P Ha Hseg Hty HM HMb HP.
  - simpl. rewrite decide_True; [|split; [constructor | lia]].
    by rewrite Z.add_0_r, Z.mul_1_r.
  - cbn [sizes_loop length]. unfold mbind, prog_bind, bind.
    rewrite (load_int_run s a arr p x Ha); [|by rewrite <-(Hseg 0%nat x), Nat.add_0_r].
    apply Forall_cons in Hty as [Hx Hty].
    assert (Hmax : INT_MAX < size_max SIZE_BITS) by (by vm_compute).
    rewrite length_cons, Nat2Z.inj_succ in HMb.
    assert (0 < INT_MAX) by (by vm_compute).
    destruct (decide (x ≤ 0)) as [Hneg | Hpos].
    { unfold mret, prog_ret, ret. rewrite decide_False; [done|].
      intros [Hall _]. apply Forall_cons in Hall as [? _]. lia. }
    assert (Hwx : size_wrap SIZE_BITS x = x).
    { apply size_wrap_small. unfold size_max, SIZE_BITS in *. lia. }
    rewrite !Hwx. rewrite (decide_False (P := x = 0)) by lia.
    assert (Hdiv : P > size_max SIZE_BITS `div` x ↔ size_max SIZE_BITS < P * x).
    { pose proof (Z.div_mod (size_max SIZE_BITS) x ltac:(lia)) as Hdm.
      pose proof (Z.mod_pos_bound (size_max SIZE_BITS) x ltac:(lia)) as Hmb.
      split; intros Hgt; nia. }
    destruct (decide (P > size_max SIZE_BITS `div` x)) as [Hov | Hok].
    { unfold mret, prog_ret, ret. rewrite decide_False; [done|].
      intros [Hall Hle]. apply Forall_cons in Hall as [_ Hall].
      apply profile_count_pos in Hall. apply Hdiv in Hov. simpl in Hle. nia. }
    assert (HPx : P * x ≤ size_max SIZE_BITS) by (rewrite Hdiv in Hok; lia).
    rewrite (size_wrap_small _ (M + x)), (size_wrap_small _ (P * x));
      [|unfold size_max, SIZE_BITS in *; nia..].
    rewrite IH; [|done| |done|lia|lia|nia].
    + simpl. f_equal. rewrite Z.add_assoc, !Z.mul_assoc.
      apply decide_ext. rewrite Forall_cons. intuition lia.
    + intros i y Hi. replace (S p + i)%nat with (p + S i)%nat by lia.
      by apply Hseg.
Qed.

(** [compute_sizes] on a well-typed call: it reads the array and nothing
    else, and accepts exactly the valid games. *)
Lemma compute_sizes_run (s : St) N a arr :
  ints (world_of s) !! a = Some arr →
  is_int N → (Z.to_nat N ≤ length arr)%nat → Forall is_int arr →
  compute_sizes N (Some a) s =
    Done (let acts := take (Z.to_nat N) arr in
          if decide (0 < N ∧ valid_game N acts)
          then Some (MkSizes N (total_actions acts) (profile_count acts)
                       (N * profile_count acts))
          else None) s.
Proof.
  intros Ha [_ HN] Hlen Hty. unfold compute_sizes, compute_sizes_on. cbv zeta.
  destruct (decide (N ≤ 0)) as [Hle | Hpos].
  { rewrite decide_False by lia. done. }
  set (seg := take (Z.to_nat N) arr).
  assert (Hseg : length seg = Z.to_nat N) by (by apply length_take_le).
  assert (Hmax : INT_MAX = 2147483647) by done.
  assert (Hsmax : size_max SIZE_BITS = 18446744073709551615) by done.
  unfold mbind, prog_bind, bind. rewrite <-Hseg.
  rewrite (sizes_loop_run s a arr seg 0 0 1 Ha).
  - rewrite Z.mul_1_l, Z.add_0_l.
    assert (Hpow : 2 ^ SIZE_BITS = 18446744073709551616) by done.
    rewrite !(size_wrap_small _ INT_MAX), (size_wrap_small _ N) by lia.
    unfold valid_game. fold seg.
    destruct (decide (Forall (λ x, 0 < x) seg ∧ profile_count seg ≤ size_max SIZE_BITS))
      as [[Hall HP] | Hno].
    + pose proof (profile_count_pos _ Hall). pose proof (total_actions_nonneg _ Hall).
      destruct (decide (total_actions seg > INT_MAX)).
      { rewrite decide_False; [done | lia]. }
      destruct (decide (profile_count seg > INT_MAX)).
      { rewrite decide_False; [done | lia]. }
      rewrite (size_wrap_small _ (N * _)) by nia.
      destruct (decide (N * profile_count seg > INT_MAX)).
      { rewrite decide_False; [done | lia]. }
      rewrite decide_True; [done|]. repeat split; try done; lia.
    + rewrite decide_False; [done|]. intros (_ & Hall & _ & HP & _).
      apply Hno. split; [done | lia].
  - intros i x Hi. simpl. unfold seg in Hi. by apply lookup_take_Some in Hi as [? _].
  - apply Forall_take. eapply Forall_impl; [exact Hty|]. intros x [_ ?]. done.
  - done.
  - rewrite Hseg. rewrite Z2Nat.id by lia. nia.
  - lia.
Qed.

Lemma compute_sizes_nonpositive (s : St) N (actions : ptr) :
  N ≤ 0 → @compute_sizes St _ N actions s = Done None s.
Proof.
  intros HN. unfold compute_sizes, compute_sizes_on.
  destruct actions; [|done]. by rewrite decide_True.
Qed.

End Run.

(** ** A weakest-precondition calculus for the shim's programs

    [wpg F m s Q E]: if [m] started in [s] returns [a] in [s'] then [Q a s'],
    if it throws [e] in [s'] then [E e s'], and if it stops on undefined
    behaviour then [F].  With [F := True] this is partial correctness
    ([wp]); with [F := False] the run is also free of undefined behaviour
    ([twp]). *)

Definition wpg {St A} (F : Prop) (m : prog St A) (s : St)
    (Q : A → St → Prop) (E : exn → St → Prop) : Prop :=
  match m s with
  | Done a s' => Q a s'
  | Raise e s' => E e s'
  | Fault => F
  end.

Abbreviation wp := (wpg True).
Abbreviation twp := (wpg False).

Section Rules.
Context `{Machine St}.
Implicit Types (s : St) (E : exn → St → Prop) (F : Prop).

Lemma wpg_run {A} F (m : prog St A) s a s' (Q : A → St → Prop) E :
  m s = Done a s' → Q a s' → wpg F m s Q E.
Proof. unfold wpg. by intros ->. Qed.

Lemma wpg_ret {A} F (a : A) s (Q : A → St → Prop) E : Q a s → wpg F (mret a) s Q E.
Proof. done. Qed.

Lemma wpg_throw {A} F e s (Q : A → St → Prop) E : E e s → wpg F (throw e) s Q E.
Proof. done. Qed.

Lemma wp_fault {A} s (Q : A → St → Prop) E : wp fault s Q E.
Proof. done. Qed.

Lemma wpg_bind {A B} F (m : prog St A) (k : A → prog St B) s (Q : B → St → Prop) E :
  wpg F m s (λ a s', wpg F (k a) s' Q E) E → wpg F (m ≫= k) s Q E.
Proof. unfold wpg, mbind, prog_bind, bind. by destruct (m s). Qed.

Lemma wpg_mono {A} F (m : prog St A) s (Q Q' : A → St → Prop) E E' :
  wpg F m s Q E → (∀ a s', Q a s' → Q' a s') → (∀ e s', E e s' → E' e s') →
  wpg F m s Q' E'.
Proof. unfold wpg. destruct (m s); auto. Qed.

Lemma wpg_try_catch {A} F (m : prog St A) h s (Q : A → St → Prop) E :
  wpg F m s Q (λ e s', wpg F (h e) s' Q E) → wpg F (try_catch m h) s Q E.
Proof. unfold wpg, try_catch. by destruct (m s). Qed.

Lemma wpg_on_world {A} F (m : prog world A) s (Q : A → St → Prop) E :
  wpg F m (world_of s) (λ a w, Q a (with_world w s)) (λ e w, E e (with_world w s)) →
  wpg F (on_world m) s Q E.
Proof. unfold wpg, on_world. by destruct (m (world_of s)). Qed.

(** *** Memory accesses: what a run that gets past them has established *)

Lemma wp_load_int a p s (Q : Z → St → Prop) E :
  (∀ arr x, ints (world_of s) !! a = Some arr → arr !! p = Some x → Q x s) →
  wp (load_int a p) s Q E.
Proof.
  intros HQ. apply wpg_on_world. unfold wpg.
  destruct (ints (world_of s) !! a) as [arr|] eqn:Ha; [|done].
  destruct (arr !! p) as [x|] eqn:Hp; [|done].
  rewrite with_world_of. eauto.
Qed.

Lemma wp_read_doubles src bytes s (Q : cvector → St → Prop) E :
  (∀ xs, mem (world_of s) !! src = Some xs → (doubles_in bytes ≤ length xs)%nat →
         Q (take (doubles_in bytes) xs) s) →
  wp (read_doubles src bytes) s Q E.
Proof.
  intros HQ. apply wpg_on_world. unfold wpg.
  destruct (mem (world_of s) !! src) as [xs|] eqn:Hsrc; [|done].
  case_decide; [|done]. rewrite with_world_of. eauto.
Qed.

Lemma wp_write_doubles dst off v bytes s (Q : unit → St → Prop) E :
  (∀ xs, mem (world_of s) !! dst = Some xs →
         (doubles_in bytes ≤ length v)%nat → (off + doubles_in bytes ≤ length xs)%nat →
         Q tt (with_world
                 (set_mem <[dst := take off xs ++ take (doubles_in bytes) v
                                     ++ drop (off + doubles_in bytes) xs]> (world_of s)) s)) →
  wp (write_doubles dst off v bytes) s Q E.
Proof.
  intros HQ. apply wpg_on_world. unfold wpg.
  destruct (mem (world_of s) !! dst) as [xs|] eqn:Hdst; [|done].
  cbv zeta. case_decide as Hn; [|done]. destruct Hn. eauto.
Qed.

Lemma wp_store_ptr c p s (Q : unit → St → Prop) E :
  (is_Some (cells (world_of s) !! c) →
   Q tt (with_world (set_cells <[c := p]> (world_of s)) s)) →
  wp (store_ptr c p) s Q E.
Proof.
  intros HQ. apply wpg_on_world. unfold wpg.
  destruct (cells (world_of s) !! c) eqn:Hc; [|done]. eauto.
Qed.

Lemma wp_free (p : ptr) s (Q : unit → St → Prop) E :
  match p with
  | None => Q tt s
  | Some l => l ∈ heap (world_of s) →
              Q tt (with_world (set_mem (delete l)
                                  (set_heap (λ h, h ∖ {[l]}) (world_of s))) s)
  end →
  wp (free p) s Q E.
Proof.
  intros HQ. apply wpg_on_world. unfold wpg. destruct p as [l|].
  - case_decide; [|done]. by apply HQ.
  - by rewrite with_world_of.
Qed.

(** *** Memory accesses that are in bounds *)

Lemma twp_load_int F a p arr x s (Q : Z → St → Prop) E :
  ints (world_of s) !! a = Some arr → arr !! p = Some x → Q x s →
  wpg F (load_int a p) s Q E.
Proof. intros Ha Hp HQ. eapply wpg_run; [by eapply load_int_run | done]. Qed.

Lemma twp_read_doubles F src bytes xs s (Q : cvector → St → Prop) E :
  mem (world_of s) !! src = Some xs → (doubles_in bytes ≤ length xs)%nat →
  Q (take (doubles_in bytes) xs) s →
  wpg F (read_doubles src bytes) s Q E.
Proof.
  intros Hsrc Hlen HQ. apply wpg_on_world. unfold wpg.
  rewrite Hsrc, decide_True by done. by rewrite with_world_of.
Qed.

Lemma twp_write_doubles F dst off v bytes xs s (Q : unit → St → Prop) E :
  mem (world_of s) !! dst = Some xs →
  (doubles_in bytes ≤ length v)%nat → (off + doubles_in bytes ≤ length xs)%nat →
  Q tt (with_world
          (set_mem <[dst := take off xs ++ take (doubles_in bytes) v
                              ++ drop (off + doubles_in bytes) xs]> (world_of s)) s) →
  wpg F (write_doubles dst off v bytes) s Q E.
Proof.
  intros Hdst Hv Hxs HQ. apply wpg_on_world. unfold wpg.
  rewrite Hdst. cbv zeta. by rewrite decide_True.
Qed.

Lemma twp_store_ptr F c p s (Q : unit → St → Prop) E :
  is_Some (cells (world_of s) !! c) →
  Q tt (with_world (set_cells <[c := p]> (world_of s)) s) →
  wpg F (store_ptr c p) s Q E.
Proof.
  intros [q Hc] HQ. apply wpg_on_world. unfold wpg. by rewrite Hc.
Qed.

Lemma twp_free F l s (Q : unit → St → Prop) E :
  l ∈ heap (world_of s) →
  Q tt (with_world (set_mem (delete l) (set_heap (λ h, h ∖ {[l]}) (world_of s))) s) →
  wpg F (free (Some l)) s Q E.
Proof.
  intros Hl HQ. apply wpg_on_world. unfold wpg. by rewrite decide_True.
Qed.

Lemma wpg_free_null F s (Q : unit → St → Prop) E : Q tt s → wpg F (free None) s Q E.
Proof. intros HQ. apply wpg_on_world. unfold wpg. by rewrite with_world_of. Qed.

(** *** Operations that cannot go wrong *)

Lemma wpg_log F ev s (Q : unit → St → Prop) E :
  Q tt (with_world (log_event ev (world_of s)) s) →
  wpg F (on_world (λ w, Done tt (log_event ev w))) s Q E.
Proof. intros HQ. by apply wpg_on_world. Qed.

(** An automatic object: the body runs with one more live allocation, at an
    address that was not in use, and the allocation is gone afterwards. *)
Lemma wpg_with_local {A} F (m : prog St A) s (Q : A → St → Prop) E :
  let w := world_of s in
  (oom w (allocs w) = true → E bad_alloc (with_world (count_alloc w) s)) →
  (oom w (allocs w) = false → ∀ l, l ∉ used w →
     wpg F m (with_world (set_heap (λ h, {[l]} ∪ h) (count_alloc w)) s)
       (λ a s', Q a (with_world (set_heap (λ h, h ∖ {[l]}) (world_of s')) s'))
       (λ e s', E e (with_world (set_heap (λ h, h ∖ {[l]}) (world_of s')) s'))) →
  wpg F (with_local m) s Q E.
Proof.
  intros w Hoom Hok. unfold with_local. apply wpg_bind, wpg_on_world. unfold wpg at 1.
  fold w. destruct (oom w (allocs w)); [by apply Hoom|].
  specialize (Hok eq_refl (fresh (used w)) (is_fresh _)).
  unfold wpg, finally in *.
  destruct (m _) as [a s'|e s'|]; [| |done]; by unfold bind, drop_obj, on_world.
Qed.

Lemma wpg_malloc F bytes s (Q : ptr → St → Prop) E :
  let w := world_of s in
  (oom w (allocs w) = true → Q None (with_world (count_alloc w) s)) →
  (oom w (allocs w) = false → ∀ l, l ∉ used w →
     Q (Some l) (with_world (set_mem <[l := junk (doubles_in bytes)]>
                               (set_heap (λ h, {[l]} ∪ h) (count_alloc w))) s)) →
  wpg F (malloc bytes) s Q E.
Proof.
  intros w Hoom Hok. apply wpg_on_world. unfold wpg. fold w.
  destruct (oom w (allocs w)); [by apply Hoom|].
  apply Hok; [done | apply is_fresh].
Qed.

Lemma wpg_construct_nfgame F N acts payvec s (Q : nfgame → St → Prop) E :
  (nfgame_ctor N acts payvec = None → Q (NFGame N acts payvec) s) →
  (∀ e, nfgame_ctor N acts payvec = Some e → E e s) →
  wpg F (construct_nfgame N acts payvec) s Q E.
Proof.
  intros HQ HE. unfold wpg, construct_nfgame.
  destruct (nfgame_ctor N acts payvec) as [e|] eqn:Hc; [by apply HE | by apply HQ].
Qed.

(** *** The copy loop and the validator leave the state alone *)

Lemma wp_copy_ints a todo : ∀ p s (Q : list Z → St → Prop) E,
  (∀ xs, length xs = todo → Q xs s) → wp (copy_ints a todo p) s Q E.
Proof.
  induction todo as [|todo IH]; intros p s Q E HQ; simpl.
  - by apply wpg_ret, HQ.
  - apply wpg_bind, wp_load_int. intros arr x _ _.
    apply wpg_bind, IH. intros xs Hxs. apply wpg_ret, HQ. simpl. by rewrite Hxs.
Qed.

Lemma copy_ints_run a arr todo : ∀ p s,
  ints (world_of s) !! a = Some arr → (p + todo ≤ length arr)%nat →
  copy_ints a todo p s = Done (take todo (drop p arr)) s.
Proof.
  induction todo as [|todo IH]; intros p s Ha Hlen; simpl; [done|].
  destruct (lookup_lt_is_Some_2 arr p) as [x Hx]; [lia|].
  unfold mbind, prog_bind, bind. rewrite (load_int_run s a arr p x Ha Hx).
  rewrite IH by (done || lia). unfold mret, prog_ret, ret. do 2 f_equal.
  rewrite (drop_S _ _ _ Hx). done.
Qed.

Lemma wp_sizes_loop bits a todo : ∀ p M P s (Q : option (Z * Z) → St → Prop) E,
  (∀ r, Q r s) → wp (sizes_loop bits a todo p M P) s Q E.
Proof.
  induction todo as [|todo IH]; intros p M P s Q E HQ; simpl.
  - by apply wpg_ret.
  - apply wpg_bind, wp_load_int. intros arr x _ _.
    case_decide; [by apply wpg_ret|]. case_decide; [apply wp_fault|].
    case_decide; [by apply wpg_ret|]. by apply IH.
Qed.

Lemma wp_compute_sizes N (actions : ptr) s (Q : option GameSizes → St → Prop) E :
  (∀ r, Q r s) → wp (compute_sizes N actions) s Q E.
Proof.
  intros HQ. unfold compute_sizes, compute_sizes_on.
  destruct actions as [a|]; [|by apply wpg_ret].
  case_decide; [by apply wpg_ret|].
  apply wpg_bind, wp_sizes_loop. intros [[M P]|]; [|by apply wpg_ret].
  repeat case_decide; by apply wpg_ret.
Qed.

Lemma wpg_call_IPA F A gvec zhvec alpha fuzz ansvec s
    (Q : Z * cvector * cvector → St → Prop) E :
  let s' := with_world
              (log_event (Ev_IPA (IPA A gvec zhvec alpha fuzz ansvec)) (world_of s)) s in
  (∀ r gv zv av, IPA A gvec zhvec alpha fuzz ansvec = IPA_returns r gv zv av →
                 Q (r, zv, av) s') →
  (∀ e, IPA A gvec zhvec alpha fuzz ansvec = IPA_throws e → E e s') →
  wpg F (call_IPA A gvec zhvec alpha fuzz ansvec) s Q E.
Proof.
  intros s' HQ HE. unfold call_IPA. cbv zeta. apply wpg_bind, wpg_log. fold s'.
  destruct (IPA A gvec zhvec alpha fuzz ansvec) as [r gv zv av|e] eqn:HIPA.
  - by eapply wpg_ret, HQ.
  - by apply wpg_throw, HE.
Qed.

(** *** Memory accesses, whether or not they are known to be in bounds *)

Lemma wpg_read_doubles F src bytes s (Q : cvector → St → Prop) E :
  (F ∨ ∃ xs, mem (world_of s) !! src = Some xs ∧ (doubles_in bytes ≤ length xs)%nat) →
  (∀ xs, mem (world_of s) !! src = Some xs → (doubles_in bytes ≤ length xs)%nat →
         Q (take (doubles_in bytes) xs) s) →
  wpg F (read_doubles src bytes) s Q E.
Proof.
  intros HF HQ. apply wpg_on_world. unfold wpg.
  destruct (mem (world_of s) !! src) as [xs|] eqn:Hsrc.
  - case_decide as Hn; [rewrite with_world_of; eauto|].
    destruct HF as [HF | (xs' & [= <-] & Hxs')]; done.
  - destruct HF as [HF | (xs' & [=] & Hxs')]; done.
Qed.

Lemma wpg_store_ptr F c p s (Q : unit → St → Prop) E :
  (F ∨ is_Some (cells (world_of s) !! c)) →
  (is_Some (cells (world_of s) !! c) →
   Q tt (with_world (set_cells <[c := p]> (world_of s)) s)) →
  wpg F (store_ptr c p) s Q E.
Proof.
  intros HF HQ. apply wpg_on_world. unfold wpg.
  destruct (cells (world_of s) !! c) eqn:Hc; [by apply HQ|].
  destruct HF as [HF | [? [=]]]; done.
Qed.

Lemma wpg_copy_ints F a todo : ∀ p s (Q : list Z → St → Prop) E,
  (F ∨ ∃ arr, ints (world_of s) !! a = Some arr ∧ (p + todo ≤ length arr)%nat) →
  (∀ xs, length xs = todo →
         (∀ arr, ints (world_of s) !! a = Some arr → xs = take todo (drop p arr)) →
         Q xs s) →
  wpg F (copy_ints a todo p) s Q E.
Proof.
  intros p s Q E [HF | (arr & Ha & Hlen)] HQ.
  - unfold wpg.
    cut (∀ o, o = copy_ints a todo p s → match o with
           | Done xs s' => s' = s ∧ length xs = todo ∧
               ∀ arr, ints (world_of s) !! a = Some arr → xs = take todo (drop p arr)
           | Raise e s' => False
           | Fault => True
           end).
    { intros Hcut. specialize (Hcut _ eq_refl).
      destruct (copy_ints a todo p s) as [xs s'|e s'|]; [|done..].
      destruct Hcut as (-> & ? & ?). by apply HQ. }
    clear HQ. revert p. induction todo as [|todo IH]; intros p o ->; simpl.
    { by repeat split. }
    unfold mbind, prog_bind, bind, load_int, on_world.
    destruct (ints (world_of s) !! a) as [arr|] eqn:Ha; [|done].
    destruct (arr !! p) as [x|] eqn:Hp; [|done].
    rewrite with_world_of. specialize (IH (S p) _ eq_refl).
    destruct (copy_ints a todo (S p) s) as [xs s'|e s'|]; [|done..].
    destruct IH as (-> & Hxs & Harr). simpl. split; [done|]. split; [by rewrite Hxs|].
    intros arr' [= <-]. rewrite (drop_S _ _ _ Hp). simpl. f_equal. by apply Harr.
  - eapply wpg_run; [by apply copy_ints_run|]. apply HQ.
    + rewrite length_take, length_drop. lia.
    + intros arr' Ha'. by simplify_eq.
Qed.

(** *** Handles *)

(** The world once the allocations at [ls] have been given back. *)
Definition release_all (ls : list loc) (w : world) : world :=
  set_heap (λ h, h ∖ list_to_set ls) w.

Lemma set_mem_delete_id w l : l ∉ dom (mem w) → set_mem (delete l) w = w.
Proof.
  intros Hl. destruct w. unfold set_mem. simpl in *. f_equal.
  by apply delete_id, not_elem_of_dom.
Qed.

Lemma set_mem_insert_id w l xs : mem w !! l = Some xs → set_mem <[l := xs]> w = w.
Proof.
  intros Hl. destruct w. unfold set_mem. simpl in *. f_equal. by apply insert_id.
Qed.

Lemma release_all_cons l ls w :
  release_all ls (release_all [l] w) = release_all (l :: ls) w.
Proof. unfold release_all, set_heap. simpl. f_equal. set_solver. Qed.

Lemma wpg_adopt_eq F (Eq_ : option (list cvector)) s (Q : option eq_array → St → Prop) E :
  (Eq_ = None → Q None s) →
  (∀ vs base hs,
     Eq_ = Some vs → length hs = length vs → NoDup (base :: hs) →
     (∀ l, l ∈ base :: hs → l ∉ used (world_of s)) →
     Q (Some (EqArray base (zip hs vs)))
       (with_world (set_heap (λ h, list_to_set (base :: hs) ∪ h) (world_of s)) s)) →
  wpg F (adopt_eq Eq_) s Q E.
Proof.
  intros Hnone Hsome. apply wpg_on_world. unfold wpg.
  destruct Eq_ as [vs|]; [|rewrite with_world_of; by apply Hnone].
  pose proof (length_fresh_list (S (length vs)) (used (world_of s))) as Hlen.
  pose proof (NoDup_fresh_list (S (length vs)) (used (world_of s))) as Hnd.
  pose proof (fresh_list_is_fresh (S (length vs)) (used (world_of s))) as Hfr.
  destruct (fresh_list (S (length vs)) (used (world_of s))) as [|base hs]; [done|].
  simpl in *. apply Hsome; auto with lia.
Qed.

Lemma wpg_free_fresh F l s (Q : unit → St → Prop) E :
  l ∈ heap (world_of s) → l ∉ dom (mem (world_of s)) →
  Q tt (with_world (release_all [l] (world_of s)) s) →
  wpg F (free (Some l)) s Q E.
Proof.
  intros Hl Hm HQ. apply twp_free; [done|].
  rewrite set_mem_delete_id by done.
  unfold release_all in HQ. simpl in HQ. by rewrite (right_id_L ∅ (∪)) in HQ.
Qed.

Lemma release_all_nil w : release_all [] w = w.
Proof.
  destruct w. unfold release_all, set_heap. simpl. f_equal. set_solver.
Qed.

Lemma wpg_delete_handles F hs vs todo : ∀ k s (Q : unit → St → Prop) E,
  length hs = length vs → NoDup hs → (k ≤ length hs)%nat →
  (∀ l, l ∈ drop k hs → l ∈ heap (world_of s) ∧ l ∉ dom (mem (world_of s))) →
  (F ∨ (k + todo ≤ length hs)%nat) →
  ((k + todo ≤ length hs)%nat →
   Q tt (with_world (release_all (take todo (drop k hs)) (world_of s)) s)) →
  wpg F (delete_handles (zip hs vs) todo k) s Q E.
Proof.
  induction todo as [|todo IH]; intros k s Q E Hlen Hnd Hk Hlive HF HQ.
  - apply wpg_ret. specialize (HQ ltac:(lia)).
    by rewrite take_0, release_all_nil, with_world_of in HQ.
  - simpl. destruct (zip hs vs !! k) as [[h v]|] eqn:Hz.
    + apply lookup_zip_with_Some in Hz as (h' & v' & [= <- <-] & Hh & Hv).
      assert (Hdrop : drop k hs = h :: drop (S k) hs) by (by apply drop_S).
      assert (Hk' : (S k ≤ length hs)%nat) by (by apply lookup_lt_Some in Hh).
      destruct (Hlive h) as [Hheap Hmem]; [rewrite Hdrop; by left|].
      apply wpg_bind, wpg_free_fresh; [done..|].
      apply IH; [done..| | |].
      * intros l Hl. rewrite world_of_with.
        destruct (Hlive l) as [Hlh Hlm]; [rewrite Hdrop; by right|].
        split; [|done]. unfold release_all. simpl.
        assert (l ≠ h).
        { intros ->. apply list_elem_of_lookup in Hl as [i Hi].
          rewrite lookup_drop in Hi.
          pose proof (NoDup_lookup _ _ _ _ Hnd Hh Hi). lia. }
        set_solver.
      * destruct HF as [HF | HF]; [by left | right; lia].
      * intros Hle. rewrite world_of_with, with_with, release_all_cons.
        specialize (HQ ltac:(lia)). by rewrite Hdrop in HQ.
    + destruct HF as [HF | HF]; [done|].
      apply lookup_zip_with_None in Hz as [Hz | Hz]; apply lookup_ge_None in Hz; lia.
Qed.

Lemma wpg_cleanup_eq F base hs vs n s (Q : unit → St → Prop) E :
  length hs = length vs → NoDup (base :: hs) →
  (∀ l, l ∈ base :: hs → l ∈ heap (world_of s) ∧ l ∉ dom (mem (world_of s))) →
  (F ∨ (Z.to_nat n ≤ length hs)%nat) →
  ((Z.to_nat n ≤ length hs)%nat →
   Q tt (with_world (release_all (base :: take (Z.to_nat n) hs) (world_of s)) s)) →
  wpg F (cleanup_eq (Some (EqArray base (zip hs vs))) n) s Q E.
Proof.
  intros Hlen Hnd Hlive HF HQ. unfold cleanup_eq. simpl.
  apply NoDup_cons in Hnd as [Hbase Hnd].
  apply wpg_bind, wpg_delete_handles; [done | done | lia | | done |].
  { intros l Hl. apply Hlive. right. by rewrite drop_0 in Hl. }
  intros Hle. rewrite drop_0.
  destruct (Hlive base) as [Hheap Hmem]; [by left|].
  apply wpg_free_fresh.
  - rewrite world_of_with. unfold release_all. simpl.
    assert (base ∉ take (Z.to_nat n) hs).
    { intros Hin. apply Hbase. eapply subseteq_take, Hin. }
    set_solver.
  - by rewrite world_of_with.
  - rewrite world_of_with, with_with.
    specialize (HQ Hle).
    replace (release_all [base] (release_all (take (Z.to_nat n) hs) (world_of s)))
      with (release_all (base :: take (Z.to_nat n) hs) (world_of s)); [done|].
    unfold release_all, set_heap. simpl. f_equal. set_solver.
Qed.

Lemma wpg_cleanup_null F n s (Q : unit → St → Prop) E :
  Q tt s → wpg F (cleanup_eq None n) s Q E.
Proof. done. Qed.

(** *** The row copy *)

(** [memcpy] of [n] entries of [v] into [blk] at offset [off]. *)
Definition write_row (off n : nat) (v blk : cvector) : cvector :=
  take off blk ++ take n v ++ drop (off + n) blk.

(** What the row loop leaves in the block, row [k] first. *)
Fixpoint fill_rows (rows : list cvector) (M : Z) (k : nat) (blk : cvector) : cvector :=
  match rows with
  | [] => blk
  | v :: rows' =>
      fill_rows rows' M (S k) (write_row (row_offset k M) (doubles_in (nbytes M)) v blk)
  end.

(** Every row has [M] entries to read and lands inside a block of [len]. *)
Definition rows_fit (rows : list cvector) (M : Z) (k len : nat) : Prop :=
  ∀ i v, rows !! i = Some v →
    (doubles_in (nbytes M) ≤ length v)%nat ∧
    (row_offset (k + i) M + doubles_in (nbytes M) ≤ len)%nat.

Lemma length_junk n : length (junk n) = n.
Proof. unfold junk. by rewrite length_fmap, length_seq. Qed.

Lemma length_write_row off n v blk :
  (n ≤ length v)%nat → (off + n ≤ length blk)%nat →
  length (write_row off n v blk) = length blk.
Proof.
  intros Hv Hblk. unfold write_row.
  rewrite !length_app, !length_take, length_drop. lia.
Qed.

Lemma wpg_write_doubles F dst off v bytes xs s (Q : unit → St → Prop) E :
  mem (world_of s) !! dst = Some xs →
  (F ∨ (doubles_in bytes ≤ length v)%nat ∧ (off + doubles_in bytes ≤ length xs)%nat) →
  ((doubles_in bytes ≤ length v)%nat → (off + doubles_in bytes ≤ length xs)%nat →
   Q tt (with_world (set_mem <[dst := write_row off (doubles_in bytes) v xs]>
                       (world_of s)) s)) →
  wpg F (write_doubles dst off v bytes) s Q E.
Proof.
  intros Hdst HF HQ. apply wpg_on_world. unfold wpg. rewrite Hdst. cbv zeta.
  case_decide as Hn.
  - destruct Hn. by apply HQ.
  - destruct HF as [HF | HF]; done.
Qed.

Lemma wpg_copy_rows F b base hs vs M todo : ∀ k blk s (Q : unit → St → Prop) E,
  length hs = length vs → (k ≤ length vs)%nat →
  mem (world_of s) !! b = Some blk →
  (F ∨ rows_fit (take todo (drop k vs)) M k (length blk) ∧ (k + todo ≤ length vs)%nat) →
  ((k + todo ≤ length vs)%nat →
   Q tt (with_world
           (set_mem <[b := fill_rows (take todo (drop k vs)) M k blk]> (world_of s)) s)) →
  wpg F (copy_rows b (Some (EqArray base (zip hs vs))) M todo k) s Q E.
Proof.
  induction todo as [|todo IH]; intros k blk s Q E Hlen Hk Hb HF HQ.
  - apply wpg_ret. specialize (HQ ltac:(lia)).
    rewrite take_0 in HQ. cbn [fill_rows] in HQ.
    by rewrite (set_mem_insert_id _ _ _ Hb), with_world_of in HQ.
  - cbn [copy_rows mbind option_bind eq_slots].
    destruct (zip hs vs !! k) as [[h v]|] eqn:Hz.
    + apply lookup_zip_with_Some in Hz as (h' & v' & [= <- <-] & Hh & Hv).
      assert (Hdrop : drop k vs = v :: drop (S k) vs) by (by apply drop_S).
      assert (Hk' : (S k ≤ length vs)%nat) by (by apply lookup_lt_Some in Hv).
      rewrite Hdrop in HF, HQ. cbn [take fill_rows] in HF, HQ.
      eapply wpg_bind, wpg_write_doubles; [done | |].
      { destruct HF as [HF | [HF _]]; [by left | right].
        specialize (HF 0%nat v eq_refl). by rewrite Nat.add_0_r in HF. }
      intros Hv_n Hblk_n.
      eapply IH; [done | done | | |].
      * rewrite world_of_with. cbn. apply lookup_insert_eq.
      * destruct HF as [HF | [HF Hle]]; [by left | right].
        split; [|lia]. rewrite length_write_row by done.
        intros i v' Hi. specialize (HF (S i) v' Hi).
        by rewrite <-Nat.add_succ_comm in HF.
      * intros Hle. specialize (HQ ltac:(lia)).
        rewrite world_of_with, with_with.
        replace (set_mem _ (set_mem _ (world_of s))) with
          (set_mem <[b := fill_rows (take todo (drop (S k) vs)) M (S k)
                            (write_row (row_offset k M) (doubles_in (nbytes M)) v blk)]>
             (world_of s)); [done|].
        unfold set_mem. cbn. by rewrite insert_insert_eq.
    + destruct HF as [HF | [_ HF]]; [done|].
      apply lookup_zip_with_None in Hz as [Hz | Hz]; apply lookup_ge_None in Hz; lia.
Qed.

End Rules.

(** *** The variables of [gnm] *)

Lemma wpg_get_frame F (s : gnm_frame * world) (Q : gnm_frame → _ → Prop) E :
  Q (fst s) s → wpg F get_frame s Q E.
Proof. done. Qed.

Lemma wpg_set_Eq F a (s : gnm_frame * world) (Q : unit → _ → Prop) E :
  Q tt (Frame a (f_found (fst s)) (f_buf (fst s)), snd s) → wpg F (set_Eq a) s Q E.
Proof. done. Qed.

Lemma wpg_set_found F n (s : gnm_frame * world) (Q : unit → _ → Prop) E :
  Q tt (Frame (f_Eq (fst s)) n (f_buf (fst s)), snd s) → wpg F (set_found n) s Q E.
Proof. done. Qed.

Lemma wpg_set_buf F p (s : gnm_frame * world) (Q : unit → _ → Prop) E :
  Q tt (Frame (f_Eq (fst s)) (f_found (fst s)) p, snd s) → wpg F (set_buf p) s Q E.
Proof. done. Qed.

Lemma wpg_with_frame {L A} F (fr : L) (m : prog (L * world) A) (w : world)
    (Q : A → world → Prop) E :
  wpg F m (fr, w) (λ a s, Q a (snd s)) (λ e s, E e (snd s)) →
  wpg F (with_frame fr m) w Q E.
Proof. unfold wpg, with_frame. by destruct (m (fr, w)). Qed.

(** The call of [GNM]: the invocation is logged, what it left in [Eq] is
    live and at addresses that were not in use, and [found] is assigned
    only if it returns. *)
Lemma wpg_call_GNM F A gvec steps fuzz lnmfreq lnmmax lambdamin wobble threshold
    (s : gnm_frame * world) (Q : unit → gnm_frame * world → Prop) E :
  let res := GNM A gvec steps fuzz lnmfreq lnmmax lambdamin wobble threshold in
  let w1 := log_event (Ev_GNM res) (snd s) in
  let adopted (Eq_ : option (list cvector)) (K : option eq_array → world → Prop) :=
    (Eq_ = None → K None w1) ∧
    (∀ vs base hs,
       Eq_ = Some vs → length hs = length vs → NoDup (base :: hs) →
       (∀ l, l ∈ base :: hs → l ∉ used w1) →
       K (Some (EqArray base (zip hs vs)))
         (set_heap (λ h, list_to_set (base :: hs) ∪ h) w1)) in
  (∀ found g' Eq_, res = GNM_returns found g' Eq_ →
     adopted Eq_ (λ a w', Q tt (Frame a found (f_buf (fst s)), w'))) →
  (∀ e Eq_, res = GNM_throws e Eq_ →
     adopted Eq_ (λ a w', E e (Frame a (f_found (fst s)) (f_buf (fst s)), w'))) →
  wpg F (call_GNM A gvec steps fuzz lnmfreq lnmmax lambdamin wobble threshold) s Q E.
Proof.
  intros res w1 adopted HQ HE. unfold call_GNM. cbv zeta.
  apply wpg_bind, wpg_log. fold res. destruct s as [fr w]. simpl in *. fold w1.
  destruct res as [found g' Eq_|e Eq_] eqn:Hres.
  - destruct (HQ found g' Eq_ eq_refl) as [Hnone Hsome].
    apply wpg_bind, wpg_adopt_eq.
    + intros HEq. by apply Hnone.
    + intros vs base hs HEq Hlen Hnd Hfr. by apply Hsome.
  - destruct (HE e Eq_ eq_refl) as [Hnone Hsome].
    apply wpg_bind, wpg_adopt_eq.
    + intros HEq. by apply Hnone.
    + intros vs base hs HEq Hlen Hnd Hfr. by apply Hsome.
Qed.

(** Unfolding the state of a run that has been stepped through. *)
Ltac wsimpl :=
  cbn [world_of with_world world_machine frame_machine fst snd
       ints mem cells heap allocs oom trace
       set_mem set_heap set_cells count_alloc log_event release_all
       f_Eq f_found f_buf take drop app Nat.add] in *.

(** ** What [ipa] does *)

(** [memcpy] of [n] entries of [v] over the start of [xs]. *)
Definition overwrite (n : nat) (v xs : cvector) : cvector := take n v ++ drop n xs.

(** The parts of the world that neither entry point changes for good. *)
Definition same_frame (w w' : world) : Prop :=
  ints w' = ints w ∧ cells w' = cells w ∧ oom w' = oom w ∧ heap w' = heap w.

(** Equations between heaps follow from the freshness of the addresses
    handed out. *)
Ltac clear_but_fresh :=
  repeat match goal with
         | H : ?T |- _ => lazymatch T with (_ ∉ _) => fail | _ => clear H end
         end.
Ltac heap_solver := unfold used in *; wsimpl; clear_but_fresh; set_solver.

Ltac frame_done :=
  unfold same_frame; wsimpl;
  repeat split; first [done | by left | by right | heap_solver].

(** The world in which the [try] block of [ipa] throws [e]: nothing is
    written. *)
Definition ipa_raise_post (w : world) (e : exn) (w' : world) : Prop :=
  same_frame w w' ∧ mem w' = mem w ∧
  (trace w' = trace w ∨ trace w' = trace w ++ [Ev_IPA (IPA_throws e)]).

(** The world in which the [try] block of [ipa] returns [r]: [IPA] was run
    on copies of the caller's arrays and returned [r], and the first [M]
    entries of [zh] and [ans] are those of its work and answer vectors. *)
Definition ipa_done_post (sz : GameSizes) (payoffs g zh : loc) (alpha fuzz : double)
    (ans : loc) (w : world) (r : Z) (w' : world) : Prop :=
  let n := doubles_in (nbytes (sz_M sz)) in
  same_frame w w' ∧
  ∃ acts ps gs xs ys gv zv av,
    mem w !! payoffs = Some ps ∧ mem w !! g = Some gs ∧ mem w !! zh = Some xs ∧
    IPA (NFGame (sz_N sz) acts (take (doubles_in (nbytes (sz_payoff_len sz))) ps))
        (take n gs) (take n xs) alpha fuzz (junk (Z.to_nat (sz_M sz)))
      = IPA_returns r gv zv av ∧
    trace w' = trace w ++ [Ev_IPA (IPA_returns r gv zv av)] ∧
    (n ≤ length zv)%nat ∧ (n ≤ length av)%nat ∧
    <[zh := overwrite n zv xs]> (mem w) !! ans = Some ys ∧ (n ≤ length ys)%nat ∧
    mem w' = <[ans := overwrite n av ys]> (<[zh := overwrite n zv xs]> (mem w)).

Lemma ipa_body_spec sz actions payoffs g zh alpha fuzz ans (w : world) :
  wp (ipa_body sz actions payoffs g zh alpha fuzz ans) w
    (ipa_done_post sz payoffs g zh alpha fuzz ans w) (ipa_raise_post w).
Proof.
  unfold ipa_body, ipa_done_post, ipa_raise_post. cbv zeta.
  apply wpg_with_local; [intros Hoom1 | intros Hoom1 l1 Hl1]; [frame_done|].
  apply wpg_bind, wp_copy_ints. intros acts Hacts.
  apply wpg_with_local; [intros Hoom2 | intros Hoom2 l2 Hl2]; [frame_done|].
  apply wpg_bind, wp_read_doubles. intros ps Hps Hpsn.
  apply wpg_with_local; [intros Hoom3 | intros Hoom3 l3 Hl3]; [frame_done|].
  apply wpg_bind, wpg_construct_nfgame; [intros Hctor | intros e Hctor]; [|frame_done].
  apply wpg_with_local; [intros Hoom4 | intros Hoom4 l4 Hl4]; [frame_done|].
  apply wpg_bind, wp_read_doubles. intros gs Hgs Hgsn.
  apply wpg_with_local; [intros Hoom5 | intros Hoom5 l5 Hl5]; [frame_done|].
  apply wpg_bind, wp_read_doubles. intros xs Hxs Hxsn.
  apply wpg_with_local; [intros Hoom6 | intros Hoom6 l6 Hl6]; [frame_done|].
  cbv zeta. apply wpg_bind, wpg_call_IPA; [intros r gv zv av HIPA | intros e HIPA].
  2:{ rewrite HIPA. frame_done. }
  apply wpg_bind, wp_write_doubles. intros xs' Hxs' Hzv Hxs'n.
  apply wpg_bind, wp_write_doubles. intros ys Hys Hav Hysn.
  apply wpg_ret. wsimpl. simplify_eq. rewrite HIPA.
  split; [frame_done|].
  exists acts, ps, gs, xs, ys, gv, zv, av. by repeat split.
Qed.

(** ** What [gnm] does *)

(** The code a handler returns. *)
Definition exn_code (e : exn) : Z :=
  match e with
  | bad_alloc => -2
  | other_exn => -3
  end.

Definition gnm_Eq (res : gnm_result) : option (list cvector) :=
  match res with
  | GNM_returns _ _ Eq_ => Eq_
  | GNM_throws _ Eq_ => Eq_
  end.

(** The value [gnm] returns once [GNM] has answered [res], according to
    whether the result block could be allocated. *)
Definition gnm_code (res : gnm_result) (malloc_ok : bool) : Z :=
  match res with
  | GNM_throws e _ => exn_code e
  | GNM_returns found _ _ =>
      if decide (found = 0) then 0
      else if decide (found < 0) then -3
      else if malloc_ok then found else -2
  end.

(** The handles [GNM] left in [Eq] beyond the [found] it reported: the
    shim has no count for them. *)
Definition abandoned (res : gnm_result) : nat :=
  match res with
  | GNM_throws _ Eq_ => length (default [] Eq_)
  | GNM_returns found _ Eq_ => length (default [] Eq_) - Z.to_nat found
  end.

(** Enough for a call of [gnm] to stay within its buffers: the caller's
    arrays have the sizes of the interface, and a positive [found] comes
    with that many vectors of [M] entries, which fit the block. *)
Definition gnm_safe (sz : GameSizes) (actions payoffs g : loc) (steps : Z) (fuzz : double)
    (lnmfreq lnmmax : Z) (lambdamin : double) (wobble : Z) (threshold : double)
    (w : world) : Prop :=
  ∃ arr ps gs,
    ints w !! actions = Some arr ∧ (Z.to_nat (sz_N sz) ≤ length arr)%nat ∧
    mem w !! payoffs = Some ps ∧
    (doubles_in (nbytes (sz_payoff_len sz)) ≤ length ps)%nat ∧
    mem w !! g = Some gs ∧ (doubles_in (nbytes (sz_M sz)) ≤ length gs)%nat ∧
    ∀ found g' Eq_,
      GNM (NFGame (sz_N sz) (take (Z.to_nat (sz_N sz)) arr)
             (take (doubles_in (nbytes (sz_payoff_len sz))) ps))
          (take (doubles_in (nbytes (sz_M sz))) gs)
          steps fuzz lnmfreq lnmmax lambdamin wobble threshold
        = GNM_returns found g' Eq_ →
      0 < found →
      ∃ vs, Eq_ = Some vs ∧ (Z.to_nat found ≤ length vs)%nat ∧
            rows_fit (take (Z.to_nat found) vs) (sz_M sz) 0
              (doubles_in (block_bytes found (sz_M sz))).

(** The state in which the [try] block of [gnm] can be left by an
    exception, with what threw: nothing is written, [found] and [buf] are as
    initialised, and [Eq] is what [GNM] had stored when it threw. *)
Definition gnm_raise_post (sz : GameSizes) (actions payoffs g : loc) (steps : Z)
    (fuzz : double) (lnmfreq lnmmax : Z) (lambdamin : double) (wobble : Z)
    (threshold : double) (w : world) (e : exn) (s' : gnm_frame * world) : Prop :=
  f_buf (fst s') = None ∧ f_found (fst s') = 0 ∧
  ints (snd s') = ints w ∧ mem (snd s') = mem w ∧ cells (snd s') = cells w ∧
  oom (snd s') = oom w ∧
  ((* one of the four allocations of the adapter is refused *)
   (e = bad_alloc ∧ (∃ i, (i < 4)%nat ∧ oom w (i + allocs w)%nat = true) ∧
    f_Eq (fst s') = None ∧ heap (snd s') = heap w ∧ trace (snd s') = trace w) ∨
   (* the constructor of the game throws *)
   (∃ acts ps,
      mem w !! payoffs = Some ps ∧
      (∀ arr, ints w !! actions = Some arr → acts = take (Z.to_nat (sz_N sz)) arr) ∧
      nfgame_ctor (sz_N sz) acts (take (doubles_in (nbytes (sz_payoff_len sz))) ps)
        = Some e ∧
      f_Eq (fst s') = None ∧ heap (snd s') = heap w ∧ trace (snd s') = trace w) ∨
   (* GNM throws *)
   (∃ acts ps gs Eq_,
      mem w !! payoffs = Some ps ∧ mem w !! g = Some gs ∧
      (∀ arr, ints w !! actions = Some arr → acts = take (Z.to_nat (sz_N sz)) arr) ∧
      GNM (NFGame (sz_N sz) acts (take (doubles_in (nbytes (sz_payoff_len sz))) ps))
          (take (doubles_in (nbytes (sz_M sz))) gs)
          steps fuzz lnmfreq lnmmax lambdamin wobble threshold
        = GNM_throws e Eq_ ∧
      trace (snd s') = trace w ++ [Ev_GNM (GNM_throws e Eq_)] ∧
      match f_Eq (fst s') with
      | None => Eq_ = None ∧ heap (snd s') = heap w
      | Some a =>
          ∃ hs vs,
            Eq_ = Some vs ∧ a = EqArray (eq_base a) (zip hs vs) ∧
            length hs = length vs ∧ NoDup (eq_base a :: hs) ∧
            (∀ l, l ∈ eq_base a :: hs → l ∉ used w) ∧
            heap (snd s') = list_to_set (eq_base a :: hs) ∪ heap w
      end)).

(** The world in which the [try] block of [gnm] returns [r]. *)
Definition gnm_done_post (sz : GameSizes) (actions payoffs g c : loc) (steps : Z)
    (fuzz : double) (lnmfreq lnmmax : Z) (lambdamin : double) (wobble : Z)
    (threshold : double) (w : world) (r : Z) (w' : world) : Prop :=
  ints w' = ints w ∧ oom w' = oom w ∧
  ∃ acts ps gs res hs,
    mem w !! payoffs = Some ps ∧ mem w !! g = Some gs ∧
    (∀ arr, ints w !! actions = Some arr → acts = take (Z.to_nat (sz_N sz)) arr) ∧
    res = GNM (NFGame (sz_N sz) acts (take (doubles_in (nbytes (sz_payoff_len sz))) ps))
              (take (doubles_in (nbytes (sz_M sz))) gs)
              steps fuzz lnmfreq lnmmax lambdamin wobble threshold ∧
    trace w' = trace w ++ [Ev_GNM res] ∧
    r = gnm_code res (negb (oom w (4 + allocs w)%nat)) ∧
    length hs = abandoned res ∧ (NoDup hs ∧ ∀ l, l ∈ hs → l ∉ used w) ∧
    if decide (0 < r) then
      ∃ b vs,
        (b ∉ used w) ∧ (b ∉ hs) ∧ gnm_Eq res = Some vs ∧
        heap w' = {[b]} ∪ list_to_set hs ∪ heap w ∧
        mem w' = <[b := fill_rows (take (Z.to_nat r) vs) (sz_M sz) 0
                          (junk (doubles_in (block_bytes r (sz_M sz))))]> (mem w) ∧
        cells w' = <[c := Some b]> (cells w)
    else
      heap w' = list_to_set hs ∪ heap w ∧ mem w' = mem w ∧ cells w' = cells w.

(** The part of the [try] block that follows the call of [GNM]. *)
Definition gnm_marshal (sz : GameSizes) (answers : loc) : prog (gnm_frame * world) Z :=
  fr ← get_frame;
  if decide (f_found fr = 0) then
    cleanup_eq (f_Eq fr) 0;;
    store_ptr answers None;;
    mret 0
  else if decide (f_found fr < 0) then
    cleanup_eq (f_Eq fr) 0;;
    store_ptr answers None;;
    mret (-3)
  else
    buf ← malloc (block_bytes (f_found fr) (sz_M sz));
    set_buf buf;;
    match buf with
    | None =>
        cleanup_eq (f_Eq fr) (f_found fr);;
        set_Eq None;;
        mret (-2)
    | Some b =>
        copy_rows b (f_Eq fr) (sz_M sz) (Z.to_nat (f_found fr)) 0;;
        cleanup_eq (f_Eq fr) (f_found fr);;
        set_Eq None;;
        store_ptr answers buf;;
        set_buf None;;
        mret (f_found fr)
    end.

(** The value returned for [found], according to whether the request for
    the result block is refused. *)
Definition marshal_code (found : Z) (refused : bool) : Z :=
  if decide (found = 0) then 0
  else if decide (found < 0) then -3
  else if refused then -2 else found.

Lemma heap_after_release (H0 : gset loc) base hs n :
  NoDup (base :: hs) → (∀ l, l ∈ base :: hs → l ∉ H0) →
  (list_to_set (base :: hs) ∪ H0) ∖ list_to_set (base :: take n hs)
    = list_to_set (drop n hs) ∪ H0.
Proof.
  intros [Hbase Hnd]%NoDup_cons Hfresh.
  rewrite <-(take_drop n hs) in Hnd, Hfresh, Hbase.
  rewrite <-(take_drop n hs) at 1.
  apply NoDup_app in Hnd as (_ & Hdisj & _).
  rewrite !list_to_set_cons, list_to_set_app_L.
  generalize dependent (take n hs). generalize dependent (drop n hs).
  intros hd ht Hbase Hdisj Hfresh.
  apply set_eq. intros l. specialize (Hfresh l). specialize (Hdisj l).
  set_unfold. naive_solver.
Qed.

Lemma gnm_marshal_some F sz c base hs vs found (w1 : world) (H0 : gset loc) :
  let n := Z.to_nat found in
  let a := Some (EqArray base (zip hs vs)) in
  length hs = length vs → NoDup (base :: hs) →
  (∀ l, l ∈ base :: hs → (l ∉ H0) ∧ (l ∉ dom (mem w1))) →
  heap w1 = list_to_set (base :: hs) ∪ H0 →
  cells w1 !! c = Some None →
  (F ∨ (n ≤ length vs)%nat ∧
       rows_fit (take n vs) (sz_M sz) 0 (doubles_in (block_bytes found (sz_M sz)))) →
  wpg F (gnm_marshal sz c) (Frame a found None, w1)
    (λ r s',
       let w' := snd s' in
       ints w' = ints w1 ∧ oom w' = oom w1 ∧ trace w' = trace w1 ∧
       r = marshal_code found (oom w1 (allocs w1)) ∧ (n ≤ length hs)%nat ∧
       if decide (0 < r) then
         ∃ b, (b ∉ used w1) ∧
              heap w' = {[b]} ∪ list_to_set (drop n hs) ∪ H0 ∧
              mem w' = <[b := fill_rows (take n vs) (sz_M sz) 0
                                (junk (doubles_in (block_bytes found (sz_M sz))))]> (mem w1) ∧
              cells w' = <[c := Some b]> (cells w1)
       else heap w' = list_to_set (drop n hs) ∪ H0 ∧ mem w' = mem w1 ∧ cells w' = cells w1)
    (λ _ _, False).
Proof.
  intros n a Hlen Hnd Hfresh Hheap Hc HF. unfold gnm_marshal, marshal_code.
  assert (Hlive : ∀ l, l ∈ base :: hs → l ∈ heap w1 ∧ l ∉ dom (mem w1)).
  { intros l Hl. split; [|by apply Hfresh]. rewrite Hheap, elem_of_union.
    left. by apply elem_of_list_to_set. }
  assert (Hrel : ∀ m, heap w1 ∖ list_to_set (base :: take m hs)
                      = list_to_set (drop m hs) ∪ H0).
  { intros m. rewrite Hheap. apply heap_after_release; [done|]. naive_solver. }
  apply wpg_bind, wpg_get_frame. wsimpl.
  destruct (decide (found = 0)) as [-> | Hnz].
  { apply wpg_bind, wpg_cleanup_eq; [done.. | right; simpl; lia |]. intros _. wsimpl.
    apply wpg_bind, wpg_store_ptr; [right; by wsimpl|]. intros _. wsimpl.
    apply wpg_ret. wsimpl. unfold release_all. wsimpl.
    rewrite decide_False by lia.
    repeat split; first [done | simpl; lia | apply (Hrel 0%nat) | by apply insert_id]. }
  destruct (decide (found < 0)) as [Hneg | Hpos].
  { apply wpg_bind, wpg_cleanup_eq; [done.. | right; lia |]. intros _. wsimpl.
    apply wpg_bind, wpg_store_ptr; [right; by wsimpl|]. intros _. wsimpl.
    apply wpg_ret. wsimpl. unfold release_all. wsimpl.
    rewrite decide_False by lia. subst n. rewrite Z2Nat.nonpos by lia.
    repeat split; first [done | simpl; lia | apply (Hrel 0%nat) | by apply insert_id]. }
  apply wpg_bind, wpg_malloc; wsimpl; [intros Hoom | intros Hoom b Hb].
  - apply wpg_bind, wpg_set_buf. wsimpl.
    apply wpg_bind, wpg_cleanup_eq; [done.. | | ].
    { destruct HF as [HF | [HF _]]; [by left | right]. by rewrite Hlen. }
    intros Hn. wsimpl.
    apply wpg_bind, wpg_set_Eq. wsimpl. apply wpg_ret. wsimpl.
    unfold release_all. wsimpl. rewrite Hoom, decide_False by lia.
    repeat split; first [done | apply Hrel].
  - apply wpg_bind, wpg_set_buf. wsimpl.
    assert (Hbl : ∀ l, l ∈ base :: hs → l ≠ b).
    { intros l Hl ->. apply Hb. unfold used. apply Hlive in Hl as [Hl _]. set_solver. }
    eapply wpg_bind, (wpg_copy_rows F b base hs vs (sz_M sz) _ 0%nat); [done | lia | | |].
    { wsimpl. apply lookup_insert_eq. }
    { rewrite drop_0, length_junk.
      destruct HF as [HF | [Hn HF]]; [by left | right]. split; [done | lia]. }
    intros Hn. rewrite drop_0. wsimpl.
    apply wpg_bind, wpg_cleanup_eq; [done | done | | right; lia |].
    { intros l Hl. wsimpl. destruct (Hlive l Hl) as [Hlh Hlm].
      split; [set_solver|]. rewrite !dom_insert. specialize (Hbl l Hl). set_solver. }
    intros _. wsimpl.
    apply wpg_bind, wpg_set_Eq. wsimpl.
    apply wpg_bind, wpg_store_ptr; [right; by wsimpl|]. intros _. wsimpl.
    apply wpg_bind, wpg_set_buf. wsimpl. apply wpg_ret. wsimpl.
    unfold release_all. wsimpl. rewrite Hoom, decide_True by lia.
    repeat split; try done; [lia|].
    exists b. repeat split; try done.
    + assert (Hbr : b ∉ (list_to_set (base :: take n hs) : gset loc)).
      { rewrite elem_of_list_to_set. intros Hin. apply (Hbl b); [|done].
        apply elem_of_cons in Hin as [-> | Hin]; [by left | right].
        eapply subseteq_take, Hin. }
      fold n. rewrite difference_union_distr_l_L, Hrel.
      generalize dependent (list_to_set (C := gset loc) (base :: take n hs)).
      intros. set_solver.
    + by rewrite insert_insert_eq.
Qed.

Lemma gnm_marshal_none F sz c found (w1 : world) :
  cells w1 !! c = Some None →
  (F ∨ found ≤ 0) →
  wpg F (gnm_marshal sz c) (Frame None found None, w1)
    (λ r s',
       let w' := snd s' in
       ints w' = ints w1 ∧ oom w' = oom w1 ∧ trace w' = trace w1 ∧
       r = marshal_code found (oom w1 (allocs w1)) ∧ r ≤ 0 ∧
       heap w' = heap w1 ∧ mem w' = mem w1 ∧ cells w' = cells w1)
    (λ _ _, False).
Proof.
  intros Hc HF. unfold gnm_marshal, marshal_code.
  apply wpg_bind, wpg_get_frame. wsimpl.
  destruct (decide (found = 0)) as [-> | Hnz].
  { apply wpg_bind, wpg_cleanup_null.
    apply wpg_bind, wpg_store_ptr; [right; by wsimpl|]. intros _. wsimpl.
    apply wpg_ret. wsimpl. repeat split; first [done | by apply insert_id]. }
  destruct (decide (found < 0)) as [Hneg | Hpos].
  { apply wpg_bind, wpg_cleanup_null.
    apply wpg_bind, wpg_store_ptr; [right; by wsimpl|]. intros _. wsimpl.
    apply wpg_ret. wsimpl. repeat split; first [done | by apply insert_id]. }
  apply wpg_bind, wpg_malloc; wsimpl; [intros Hoom | intros Hoom b Hb].
  - apply wpg_bind, wpg_set_buf. wsimpl.
    apply wpg_bind, wpg_cleanup_null.
    apply wpg_bind, wpg_set_Eq. wsimpl. apply wpg_ret. wsimpl.
    rewrite Hoom. by repeat split.
  - apply wpg_bind, wpg_set_buf. wsimpl. apply wpg_bind.
    destruct (Z.to_nat found) as [|k] eqn:Hk; [lia|].
    unfold wpg. simpl. destruct HF as [HF | HF]; [done | lia].
Qed.

Ltac oom_leaf i :=
  unfold gnm_raise_post; wsimpl; split_and!; try done;
  left; split_and!;
  first [ done
        | exists i; split; [lia | done]
        | unfold used in *; wsimpl; set_solver ].

Lemma gnm_body_spec F sz actions payoffs g c steps fuzz lnmfreq lnmmax lambdamin wobble
    threshold (w : world) :
  cells w !! c = Some None →
  (F ∨ gnm_safe sz actions payoffs g steps fuzz lnmfreq lnmmax lambdamin wobble threshold w) →
  wpg F (gnm_body sz actions payoffs g c steps fuzz lnmfreq lnmmax lambdamin wobble threshold)
    (Frame None 0 None, w)
    (λ r s', gnm_done_post sz actions payoffs g c steps fuzz lnmfreq lnmmax lambdamin wobble
               threshold w r (snd s'))
    (λ e s', gnm_raise_post sz actions payoffs g steps fuzz lnmfreq lnmmax lambdamin wobble
               threshold w e s').
Proof.
  intros Hc HF. unfold gnm_body.
  pose proof I as Hl0.
  apply wpg_with_local; [intros Hoom1 | intros Hoom1 l1 Hl1]; [by oom_leaf 0%nat|].
  wsimpl. apply wpg_bind, wpg_copy_ints.
  { destruct HF as [HF | (arr & ps & gs & Ha & Hlen & _)]; [by left | right].
    by exists arr. }
  intros acts Hacts Hacts'. wsimpl.
  apply wpg_with_local; [intros Hoom2 | intros Hoom2 l2 Hl2]; [by oom_leaf 1%nat|].
  wsimpl. apply wpg_bind, wpg_read_doubles.
  { destruct HF as [HF | (arr & ps & gs & _ & _ & Hps & Hlen & _)]; [by left | right].
    by exists ps. }
  intros ps Hps Hpsn. wsimpl.
  apply wpg_with_local; [intros Hoom3 | intros Hoom3 l3 Hl3]; [by oom_leaf 2%nat|].
  wsimpl.
  apply wpg_bind, wpg_construct_nfgame; [intros Hctor | intros e Hctor].
  2:{ unfold gnm_raise_post. wsimpl. split_and!; try done. right. left.
      exists acts, ps.
      split_and!;
        first [ done
              | intros arr Ha; by rewrite (Hacts' arr Ha), drop_0
              | unfold used in *; wsimpl; set_solver ]. }
  apply wpg_with_local; [intros Hoom4 | intros Hoom4 l4 Hl4]; [by oom_leaf 3%nat|].
  wsimpl. apply wpg_bind, wpg_read_doubles.
  { destruct HF as [HF | (arr & ps' & gs & _ & _ & _ & _ & Hgs & Hlen & _)]; [by left | right].
    by exists gs. }
  intros gs Hgs Hgsn. wsimpl.
  set (A := NFGame (sz_N sz) acts (take (doubles_in (nbytes (sz_payoff_len sz))) ps)).
  set (gvec := take (doubles_in (nbytes (sz_M sz))) gs).
  assert (Hacts'' : ∀ arr, ints w !! actions = Some arr →
                           acts = take (Z.to_nat (sz_N sz)) arr).
  { intros arr Ha. by rewrite (Hacts' arr Ha), drop_0. }
  apply wpg_bind, wpg_call_GNM; wsimpl; fold A gvec.
  - (* GNM returns *)
    intros found g' Eq_ HGNM. rewrite HGNM.
    assert (Hsafe : F ∨ (0 < found →
              ∃ vs, Eq_ = Some vs ∧ (Z.to_nat found ≤ length vs)%nat ∧
                    rows_fit (take (Z.to_nat found) vs) (sz_M sz) 0
                      (doubles_in (block_bytes found (sz_M sz))))).
    { destruct HF as [HF | (arr & ps' & gs' & Ha & _ & Hps' & _ & Hgs' & _ & Hres)];
        [by left | right].
      intros Hpos. simplify_eq. eapply Hres; [|done].
      rewrite <-HGNM. unfold A, gvec. by rewrite (Hacts'' arr Ha). }
    assert (Hcode : ∀ r Eq', r = marshal_code found (oom w (S (S (S (S (allocs w)))))) →
              r = gnm_code (GNM_returns found g' Eq')
                    (negb (oom w (S (S (S (S (allocs w)))))))).
    { intros r Eq' ->. unfold gnm_code, marshal_code.
      by destruct (oom w (S (S (S (S (allocs w)))))). }
    split.
    + intros ->. eapply wpg_mono; [apply gnm_marshal_none| |done].
      * by wsimpl.
      * destruct Hsafe as [HF' | Hsafe]; [by left | right].
        destruct (decide (0 < found)) as [Hpos|]; [|lia].
        by destruct (Hsafe Hpos) as (vs & [=] & _).
      * intros r [fr' w'] (Hints & Hoom & Htr & Hr & Hle & Hheap & Hmem & Hcells).
        wsimpl. unfold gnm_done_post. wsimpl.
        apply (Hcode r None) in Hr.
        assert (Hnil : ∀ l : loc, l ∈ @nil loc → l ∉ used w) by (by intros l ?%elem_of_nil).
        assert (Hheap' : heap w' ∖ {[l4]} ∖ {[l3]} ∖ {[l2]} ∖ {[l1]}
                         = list_to_set [] ∪ heap w).
        { rewrite Hheap. clear -Hl1 Hl2 Hl3 Hl4. unfold used in *. wsimpl. set_solver. }
        split; [done|]. split; [done|].
        exists acts, ps, gs, (GNM_returns found g' None), [].
        fold A gvec. rewrite HGNM, decide_False by lia.
        split_and!; first [done | apply NoDup_nil_2].
    + intros vs base hs -> Hlen Hnd Hfresh.
      eapply wpg_mono;
        [eapply (gnm_marshal_some F sz c base hs vs found _
                   ({[l4]} ∪ ({[l3]} ∪ ({[l2]} ∪ ({[l1]} ∪ heap w)))))| |done].
      * done.
      * done.
      * intros l Hl. specialize (Hfresh l Hl). unfold used in Hfresh. wsimpl.
        clear -Hfresh. set_solver.
      * by wsimpl.
      * by wsimpl.
      * destruct Hsafe as [HF' | Hsafe]; [by left | right].
        destruct (decide (0 < found)) as [Hpos|Hnpos].
        -- by destruct (Hsafe Hpos) as (vs' & [= <-] & ? & ?).
        -- rewrite Z2Nat.nonpos by lia. split; [simpl; lia|]. by intros i v [=].
      * intros r [fr' w'] (Hints & Hoom & Htr & Hr & Hn & Hrest).
        wsimpl. unfold gnm_done_post. wsimpl.
        apply (Hcode r (Some vs)) in Hr.
        set (hs' := drop (Z.to_nat found) hs) in *.
        assert (Hfresh' : ∀ l, l ∈ hs' → l ∉ used (log_event (Ev_GNM (GNM_returns found g' (Some vs)))
                  (set_heap (λ h, {[l4]} ∪ h) (count_alloc
                    (set_heap (λ h, {[l3]} ∪ h) (count_alloc
                      (set_heap (λ h, {[l2]} ∪ h) (count_alloc
                        (set_heap (λ h, {[l1]} ∪ h) (count_alloc w)))))))))).
        { intros l Hl. apply Hfresh. right. eapply subseteq_drop, Hl. }
        assert (Habn : length hs' = abandoned (GNM_returns found g' (Some vs))).
        { unfold hs'. simpl. rewrite length_drop. lia. }
        assert (Hfr : ∀ l, l ∈ hs' → l ∉ used w).
        { intros l Hl. specialize (Hfresh' l Hl). unfold used in *. wsimpl.
          clear -Hfresh'. set_solver. }
        assert (Hnd' : NoDup hs').
        { eapply sublist_NoDup; [|apply sublist_drop]. by apply NoDup_cons in Hnd as [_ ?]. }
        split; [done|]. split; [done|].
        exists acts, ps, gs, (GNM_returns found g' (Some vs)), hs'.
        fold A gvec. rewrite HGNM. split_and!; try done.
        destruct (decide (0 < r)) as [Hpos | Hnpos].
        -- destruct Hrest as (b & Hb & Hheap & Hmem & Hcells).
           assert (Hrf : r = found).
           { unfold gnm_code in Hr. repeat case_decide; try lia.
             by destruct (negb _); [|lia]. }
           rewrite Hrf. exists b, vs.
           assert (Hbhs : b ∉ hs').
           { intros Hin. apply Hb. unfold used. wsimpl.
             assert (b ∈ hs) by (by eapply subseteq_drop, Hin). set_solver. }
           split_and!; try done.
           ++ clear -Hb. unfold used in *. wsimpl. set_solver.
           ++ rewrite Hheap. unfold used in *. wsimpl.
              clear -Hl1 Hl2 Hl3 Hl4 Hfresh' Hb. set_solver.
        -- destruct Hrest as (Hheap & Hmem & Hcells). split_and!; try done.
           rewrite Hheap. unfold used in *. wsimpl.
           clear -Hl1 Hl2 Hl3 Hl4 Hfresh'. set_solver.
  - (* GNM throws *)
    intros e Eq_ HGNM. rewrite HGNM. split.
    + intros ->. unfold gnm_raise_post. wsimpl. split_and!; try done.
      right. right. exists acts, ps, gs, None. fold A gvec. split_and!; try done.
      clear -Hl1 Hl2 Hl3 Hl4. unfold used in *. wsimpl. set_solver.
    + intros vs base hs -> Hlen Hnd Hfresh. unfold gnm_raise_post. wsimpl.
      split_and!; try done.
      right. right. exists acts, ps, gs, (Some vs). fold A gvec. split_and!; try done.
      exists hs, vs. split_and!; try done.
      * intros l Hl. specialize (Hfresh l Hl). clear -Hfresh.
        unfold used in *. wsimpl. set_solver.
      * unfold used in *. wsimpl. clear -Hl1 Hl2 Hl3 Hl4 Hfresh. set_solver.
Qed.

(** The addresses of the handles in [Eq]. *)
Definition handles_of (a : option eq_array) : list loc :=
  match a with
  | Some a => (eq_slots a).*1
  | None => []
  end.

(** The handlers of [gnm], entered from a state in which the [try] block
    can throw: they cannot go wrong, they release the handle array and no
    handle, and they write the sentinel. *)
Lemma gnm_handler_spec F sz actions payoffs g c steps fuzz lnmfreq lnmmax lambdamin wobble
    threshold (w : world) e (s1 : gnm_frame * world) :
  is_Some (cells w !! c) →
  gnm_raise_post sz actions payoffs g steps fuzz lnmfreq lnmmax lambdamin wobble threshold
    w e s1 →
  wpg F (gnm_handler c e) s1
    (λ r s2,
       r = exn_code e ∧
       ints (snd s2) = ints w ∧ oom (snd s2) = oom w ∧ mem (snd s2) = mem w ∧
       cells (snd s2) = <[c := None]> (cells w) ∧ trace (snd s2) = trace (snd s1) ∧
       heap (snd s2) = list_to_set (handles_of (f_Eq (fst s1))) ∪ heap w)
    (λ _ _, False).
Proof.
  intros Hc (Hbuf & Hfound & Hints & Hmem & Hcells & Hoom & Hcause).
  destruct s1 as [[a found buf] w1]. simpl in *. subst buf found.
  unfold gnm_handler. apply wpg_bind, wpg_get_frame. wsimpl.
  apply wpg_bind, wpg_ret. rewrite decide_False by lia.
  assert (Hfin : ∀ e', wpg F (match e' with
                                | bad_alloc => mret (-2)
                                | other_exn => mret (-3)
                                end : prog (gnm_frame * world) Z) =
                       wpg F (mret (exn_code e'))) by (by intros []).
  destruct a as [[base slots]|].
  - assert (∃ hs vs, slots = zip hs vs ∧ length hs = length vs ∧ NoDup (base :: hs) ∧
                     (∀ l, l ∈ base :: hs → l ∉ used w) ∧
                     heap w1 = list_to_set (base :: hs) ∪ heap w)
      as (hs & vs & -> & Hlen & Hnd & Hfresh & Hheap).
    { destruct Hcause as [(_ & _ & [=] & _) | [(? & ? & _ & _ & _ & [=] & _) |
        (acts & ps & gs & Eq_ & _ & _ & _ & _ & _ & hs & vs & _ & [= ->] & ? & ? & ? & ?)]].
      by exists hs, vs. }
    apply wpg_bind, wpg_cleanup_eq; [done | done | | right; simpl; lia |].
    { intros l Hl. specialize (Hfresh l Hl). wsimpl. rewrite Hheap, Hmem.
      unfold used in Hfresh.
      split; [|set_solver]. apply elem_of_union. left. by apply elem_of_list_to_set. }
    intros _. wsimpl.
    apply wpg_bind, wpg_store_ptr; [right; wsimpl; by rewrite Hcells|]. intros _. wsimpl.
    rewrite Hfin. apply wpg_ret. wsimpl. unfold release_all. wsimpl.
    cbn [handles_of eq_slots]. rewrite fst_zip by lia.
    split_and!; try done; [by rewrite Hcells|].
    rewrite Hheap. apply (heap_after_release (heap w) base hs 0); [done|].
    intros l Hl. specialize (Hfresh l Hl). unfold used in Hfresh. set_solver.
  - assert (heap w1 = heap w) as Hheap.
    { by destruct Hcause as [(_ & _ & _ & ? & _) | [(? & ? & _ & _ & _ & _ & ? & _) |
        (acts & ps & gs & Eq_ & _ & _ & _ & _ & _ & _ & ?)]]. }
    apply wpg_bind, wpg_cleanup_null.
    apply wpg_bind, wpg_store_ptr; [right; wsimpl; by rewrite Hcells|]. intros _. wsimpl.
    rewrite Hfin. apply wpg_ret. wsimpl. split_and!; try done; [by rewrite Hcells|].
    rewrite Hheap. set_solver.
Qed.

(** The validator neither writes nor throws. *)
Lemma compute_sizes_pure N (actions : ptr) (w : world) :
  match compute_sizes N actions w with
  | Done _ w' => w' = w
  | Raise _ _ => False
  | Fault => True
  end.
Proof.
  apply (wp_compute_sizes N actions w (λ _ w', w' = w) (λ _ _, False)). done.
Qed.

(** [if (answers) *answers = nullptr;] *)
Definition reset_answers (answers : ptr) (w : world) : world :=
  match answers with
  | Some c => set_cells <[c := None]> w
  | None => w
  end.

(** Every way in which a call of [gnm] can return [r], leaving [w']:
    the arguments are turned down; or they are accepted and the [try] block
    throws; or it returns. *)
Definition gnm_post (num_players : Z) (actions payoffs g answers : ptr) (steps : Z)
    (fuzz : double) (lnmfreq lnmmax : Z) (lambdamin : double) (wobble : Z)
    (threshold : double) (w : world) (r : Z) (w' : world) : Prop :=
  let w0 := reset_answers answers w in
  (r = -1 ∧ w' = w0 ∧
   (actions = None ∨ payoffs = None ∨ g = None ∨ answers = None ∨
    compute_sizes num_players actions w0 = Done None w0)) ∨
  (∃ a p g' c sz,
     actions = Some a ∧ payoffs = Some p ∧ g = Some g' ∧ answers = Some c ∧
     is_Some (cells w !! c) ∧
     compute_sizes num_players actions w0 = Done (Some sz) w0 ∧
     ((∃ e s1,
         gnm_body sz a p g' c steps fuzz lnmfreq lnmmax lambdamin wobble threshold
           (Frame None 0 None, w0) = Raise e s1 ∧
         gnm_raise_post sz a p g' steps fuzz lnmfreq lnmmax lambdamin wobble threshold
           w0 e s1 ∧
         r = exn_code e ∧
         ints w' = ints w ∧ oom w' = oom w ∧ mem w' = mem w ∧ cells w' = cells w0 ∧
         trace w' = trace (snd s1) ∧
         heap w' = list_to_set (handles_of (f_Eq (fst s1))) ∪ heap w) ∨
      (∃ s1,
         gnm_body sz a p g' c steps fuzz lnmfreq lnmmax lambdamin wobble threshold
           (Frame None 0 None, w0) = Done r s1 ∧
         w' = snd s1 ∧
         gnm_done_post sz a p g' c steps fuzz lnmfreq lnmmax lambdamin wobble threshold
           w0 r w'))).

Lemma gnm_outcome num_players actions payoffs g answers steps fuzz lnmfreq lnmmax
    lambdamin wobble threshold (w : world) :
  wp (gnm num_players actions payoffs g answers steps fuzz lnmfreq lnmmax lambdamin
        wobble threshold) w
    (gnm_post num_players actions payoffs g answers steps fuzz lnmfreq lnmmax lambdamin
       wobble threshold w)
    (λ _ _, False).
Proof.
  unfold gnm. apply wpg_bind.
  destruct answers as [c|].
  2:{ apply wpg_ret. destruct actions, payoffs, g; apply wpg_ret; left; auto 10. }
  apply wp_store_ptr. intros Hcell. wsimpl.
  set (w0 := set_cells <[c := None]> w).
  assert (Hw0 : reset_answers (Some c) w = w0) by done.
  destruct actions as [a|]; [|apply wpg_ret; left; auto 10].
  destruct payoffs as [p|]; [|apply wpg_ret; left; auto 10].
  destruct g as [g'|]; [|apply wpg_ret; left; auto 10].
  unfold wpg at 1. unfold mbind, prog_bind, bind.
  pose proof (compute_sizes_pure num_players (Some a) w0) as Hpure.
  destruct (compute_sizes num_players (Some a) w0) as [[sz|] w0'|e w0'|] eqn:Hcs;
    [subst w0'.. | done | done].
  2:{ left. rewrite Hw0. auto 10. }
  assert (Hc0 : cells w0 !! c = Some None) by apply lookup_insert_eq.
  pose proof (gnm_body_spec True sz a p g' c steps fuzz lnmfreq lnmmax lambdamin wobble
                threshold w0 Hc0 (or_introl I)) as Hbody.
  unfold wpg in Hbody. unfold with_frame, try_catch.
  destruct (gnm_body sz a p g' c steps fuzz lnmfreq lnmmax lambdamin wobble threshold
              (Frame None 0 None, w0)) as [r s1|e s1|] eqn:Hrun; [| |done].
  - right. exists a, p, g', c, sz. rewrite Hw0. split_and!; try done.
    right. by exists s1.
  - pose proof (gnm_handler_spec False sz a p g' c steps fuzz lnmfreq lnmmax lambdamin
                  wobble threshold w0 e s1) as Hh.
    unfold wpg in Hh.
    destruct (gnm_handler c e s1) as [r s2|e' s2|].
    + destruct Hh as (-> & Hints & Hoom & Hmem & Hcells & Htr & Hheap);
        [by rewrite Hc0 | done |].
      right. exists a, p, g', c, sz. rewrite Hw0. split_and!; try done.
      left. exists e, s1. split_and!; try done.
      rewrite Hcells. by apply insert_id.
    + destruct Hh; [by rewrite Hc0 | done].
    + destruct Hh; [by rewrite Hc0 | done].
Qed.

(** Every way in which a call of [ipa] can return [r], leaving [w']. *)
Definition ipa_post (num_players : Z) (actions payoffs g zh : ptr) (alpha fuzz : double)
    (ans : ptr) (w : world) (r : Z) (w' : world) : Prop :=
  (r = -1 ∧ w' = w ∧
   (actions = None ∨ payoffs = None ∨ g = None ∨ zh = None ∨ ans = None ∨
    compute_sizes num_players actions w = Done None w)) ∨
  (∃ a p g' z q sz,
     actions = Some a ∧ payoffs = Some p ∧ g = Some g' ∧ zh = Some z ∧ ans = Some q ∧
     compute_sizes num_players actions w = Done (Some sz) w ∧
     ((∃ e, ipa_body sz a p g' z alpha fuzz q w = Raise e w' ∧
            r = exn_code e ∧ ipa_raise_post w e w') ∨
      (ipa_body sz a p g' z alpha fuzz q w = Done r w' ∧
       ipa_done_post sz p g' z alpha fuzz q w r w'))).

Lemma ipa_outcome num_players actions payoffs g zh alpha fuzz ans (w : world) :
  wp (ipa num_players actions payoffs g zh alpha fuzz ans) w
    (ipa_post num_players actions payoffs g zh alpha fuzz ans w) (λ _ _, False).
Proof.
  unfold ipa.
  destruct actions as [a|]; [|apply wpg_ret; left; auto 10].
  destruct payoffs as [p|]; [|apply wpg_ret; left; auto 10].
  destruct g as [g'|]; [|apply wpg_ret; left; auto 10].
  destruct zh as [z|]; [|apply wpg_ret; left; auto 10].
  destruct ans as [q|]; [|apply wpg_ret; left; auto 10].
  unfold wpg at 1. unfold mbind, prog_bind, bind.
  pose proof (compute_sizes_pure num_players (Some a) w) as Hpure.
  destruct (compute_sizes num_players (Some a) w) as [[sz|] w0'|e w0'|] eqn:Hcs;
    [subst w0'.. | done | done].
  2:{ left. auto 10. }
  pose proof (ipa_body_spec sz a p g' z alpha fuzz q w) as Hbody.
  unfold wpg in Hbody. unfold try_catch.
  destruct (ipa_body sz a p g' z alpha fuzz q w) as [r w'|e w'|] eqn:Hrun; [| |done].
  - right. exists a, p, g', z, q, sz. split_and!; try done. by right.
  - destruct e; (right; exists a, p, g', z, q, sz; split_and!; try done; left;
                 eexists; by split_and!).
Qed.

(** Facts about the log and about [reset_answers]. *)
Lemma snoc_neq {A} (l : list A) x : l ++ [x] ≠ l.
Proof.
  intros Heq. apply (f_equal length) in Heq. rewrite length_app in Heq. simpl in Heq. lia.
Qed.

Lemma snoc_inj {A} (l : list A) x y : l ++ [x] = l ++ [y] → x = y.
Proof. intros Heq. apply app_inv_head in Heq. by injection Heq. Qed.

Lemma reset_answers_frame answers (w : world) :
  let w0 := reset_answers answers w in
  ints w0 = ints w ∧ mem w0 = mem w ∧ heap w0 = heap w ∧ allocs w0 = allocs w ∧
  oom w0 = oom w ∧ trace w0 = trace w ∧ used w ⊆ used w0.
Proof.
  destruct answers as [c|]; simpl; split_and!; try done.
  unfold used. simpl. rewrite dom_insert_L. set_solver.
Qed.

(** The outcome of an entry point that has returned. *)
Lemma gnm_returned num_players actions payoffs g answers steps fuzz lnmfreq lnmmax
    lambdamin wobble threshold (w w' : world) r :
  gnm num_players actions payoffs g answers steps fuzz lnmfreq lnmmax lambdamin wobble
    threshold w = Done r w' →
  gnm_post num_players actions payoffs g answers steps fuzz lnmfreq lnmmax lambdamin
    wobble threshold w r w'.
Proof.
  intros Hrun.
  pose proof (gnm_outcome num_players actions payoffs g answers steps fuzz lnmfreq lnmmax
                lambdamin wobble threshold w) as Hout.
  unfold wpg in Hout. by rewrite Hrun in Hout.
Qed.

Lemma ipa_returned num_players actions payoffs g zh alpha fuzz ans (w w' : world) r :
  ipa num_players actions payoffs g zh alpha fuzz ans w = Done r w' →
  ipa_post num_players actions payoffs g zh alpha fuzz ans w r w'.
Proof.
  intros Hrun.
  pose proof (ipa_outcome num_players actions payoffs g zh alpha fuzz ans w) as Hout.
  unfold wpg in Hout. by rewrite Hrun in Hout.
Qed.

(** A call of [ipa] that returns has either written nothing (and returns one
    of the three codes of the shim), or has run [IPA] to its end, returns
    what [IPA] returned, and has copied the first [M] entries of its work
    and answer vectors over [zh] and [ans]. *)
Lemma ipa_effect num_players actions payoffs g zh alpha fuzz ans (w w' : world) r :
  ipa num_players actions payoffs g zh alpha fuzz ans w = Done r w' →
  (mem w' = mem w ∧ (r = -1 ∨ r = -2 ∨ r = -3) ∧
   ∀ r0 gv zv av, trace w' ≠ trace w ++ [Ev_IPA (IPA_returns r0 gv zv av)]) ∨
  (∃ sz z q gv zv av,
     zh = Some z ∧ ans = Some q ∧
     compute_sizes num_players actions w = Done (Some sz) w ∧
     trace w' = trace w ++ [Ev_IPA (IPA_returns r gv zv av)] ∧
     let n := doubles_in (nbytes (sz_M sz)) in
     (n ≤ length zv)%nat ∧ (n ≤ length av)%nat ∧
     take n <$> mem w' !! q = Some (take n av) ∧
     (z ≠ q → take n <$> mem w' !! z = Some (take n zv))).
Proof.
  intros Hrun%ipa_returned.
  destruct Hrun as [(-> & -> & _) |
    (a & p & g' & z & q & sz & -> & -> & -> & -> & -> & Hcs & Hrun)].
  { left. split_and!; [done | auto |]. intros r0 gv zv av Htr. by apply eq_sym, snoc_neq in Htr. }
  destruct Hrun as [(e & _ & -> & _ & Hmem & Htr) | (_ & _ & Hpost)].
  - left. split_and!; [done | destruct e; auto |]. intros r0 gv zv av Htr'.
    destruct Htr as [Htr | Htr]; rewrite Htr in Htr'.
    + by apply eq_sym, snoc_neq in Htr'.
    + by apply snoc_inj in Htr'.
  - right.
    destruct Hpost as (acts & ps & gs & xs & ys & gv & zv & av & _ & _ & _ & _ & Htr & Hzv
                       & Hav & _ & _ & Hmem).
    exists sz, z, q, gv, zv, av. cbv zeta. split_and!; try done.
    + rewrite Hmem, lookup_insert_eq. simpl. f_equal. unfold overwrite.
      apply take_app_length'. rewrite length_take. lia.
    + intros Hne. rewrite Hmem, lookup_insert_ne, lookup_insert_eq by done. simpl. f_equal.
      unfold overwrite. apply take_app_length'. rewrite length_take. lia.
Qed.

(** ** Sizes that fit: the byte counts and offsets do not wrap *)

Lemma doubles_in_nbytes n : 0 ≤ n ≤ INT_MAX → doubles_in (nbytes n) = Z.to_nat n.
Proof.
  intros Hn. assert (INT_MAX = 2147483647) as Hmax by done.
  assert (2 ^ SIZE_BITS = 18446744073709551616) as Hpow by done.
  unfold doubles_in, nbytes, sizeof_double.
  rewrite (size_wrap_small _ n), size_wrap_small by lia.
  by rewrite Z.div_mul.
Qed.

Lemma row_offset_small i M :
  0 < M ≤ INT_MAX → Z.of_nat i * M ≤ size_max SIZE_BITS →
  row_offset i M = (i * Z.to_nat M)%nat.
Proof.
  intros HM Hle. assert (size_max SIZE_BITS = 18446744073709551615) as Hmax by done.
  assert (2 ^ SIZE_BITS = 18446744073709551616) as Hpow by done.
  assert (INT_MAX = 2147483647) as Himax by done.
  assert (Z.of_nat i ≤ Z.of_nat i * M) by nia.
  unfold row_offset.
  rewrite (size_wrap_small _ (Z.of_nat i)), (size_wrap_small _ M), size_wrap_small by lia.
  lia.
Qed.

Lemma block_bytes_small k M :
  0 < k → 0 < M → k * M * sizeof_double ≤ size_max SIZE_BITS →
  doubles_in (block_bytes k M) = Z.to_nat (k * M).
Proof.
  intros Hk HM Hle. assert (size_max SIZE_BITS = 18446744073709551615) as Hmax by done.
  assert (2 ^ SIZE_BITS = 18446744073709551616) as Hpow by done.
  unfold doubles_in, block_bytes, sizeof_double in *. cbv zeta.
  assert (k ≤ k * M ∧ M ≤ k * M) as [? ?] by nia.
  rewrite (size_wrap_small _ k), (size_wrap_small _ M), (size_wrap_small _ (k * M)),
    size_wrap_small by lia.
  by rewrite Z.div_mul.
Qed.

Lemma total_actions_pos acts :
  acts ≠ [] → Forall (λ a, 0 < a) acts → 0 < total_actions acts.
Proof.
  intros Hne Hall. destruct Hall as [|a acts Ha Hall]; [done|].
  apply total_actions_nonneg in Hall. simpl. lia.
Qed.

(** ** The block is the rows, one after the other *)

Lemma fill_rows_concat M m rows : ∀ k pre rest,
  m = doubles_in (nbytes M) →
  (∀ i, (i < length rows)%nat → row_offset (k + i) M = ((k + i) * m)%nat) →
  Forall (λ v : cvector, length v = m) rows →
  length pre = (k * m)%nat → (length rows * m ≤ length rest)%nat →
  fill_rows rows M k (pre ++ rest) = pre ++ concat rows ++ drop (length rows * m) rest.
Proof.
  induction rows as [|v rows IH]; intros k pre rest Hm Hoff Hall Hpre Hrest.
  - by rewrite drop_0.
  - apply Forall_cons in Hall as [Hv Hall]. cbn [fill_rows length concat] in *.
    pose proof (Hoff 0%nat ltac:(lia)) as Hoff0. rewrite Nat.add_0_r in Hoff0.
    rewrite Hoff0, <-Hm. unfold write_row.
    rewrite take_app_length' by done.
    rewrite (take_ge v) by lia.
    rewrite drop_app_add' by done.
    replace (pre ++ v ++ drop m rest) with ((pre ++ v) ++ drop m rest)
      by (by rewrite <-app_assoc).
    assert (Hoff' : ∀ i, (i < length rows)%nat →
                         row_offset (S k + i) M = ((S k + i) * m)%nat).
    { intros i Hi. replace (S k + i)%nat with (k + S i)%nat by lia. apply Hoff. lia. }
    assert (Hpre' : length (pre ++ v) = (S k * m)%nat) by (rewrite length_app; lia).
    assert (Hrest' : (length rows * m ≤ length (drop m rest))%nat)
      by (rewrite length_drop; lia).
    rewrite (IH (S k) (pre ++ v) (drop m rest) Hm Hoff' Hall Hpre' Hrest').
    by rewrite drop_drop, <-!app_assoc.
Qed.

Lemma length_concat_uniform {A} (m : nat) (rows : list (list A)) :
  Forall (λ v, length v = m) rows → length (concat rows) = (length rows * m)%nat.
Proof.
  induction 1 as [|v rows Hv _ IH]; [done|]. simpl. rewrite length_app. lia.
Qed.

Lemma lookup_concat_uniform {A} (m : nat) (rows : list (list A)) : ∀ row i v x,
  Forall (λ v, length v = m) rows →
  rows !! row = Some v → v !! i = Some x →
  concat rows !! (row * m + i)%nat = Some x.
Proof.
  induction rows as [|v0 rows IH]; intros row i v x Hall Hrow Hi; [done|].
  apply Forall_cons in Hall as [Hv0 Hall]. simpl.
  destruct row as [|row]; simpl in *.
  - injection Hrow as ->. by rewrite lookup_app_l by (by eapply lookup_lt_Some).
  - rewrite lookup_app_r by lia.
    replace (m + row * m + i - length v0)%nat with (row * m + i)%nat by lia.
    by eapply IH.
Qed.

(** ** Two runs of [ipa] on worlds that differ in one array

    [differ_at q k w1 w2]: the two worlds are the same except for the
    contents of the array at [q], which has the same length in both and the
    same first [k] entries. *)

Definition differ_at (q : loc) (k : nat) (w1 w2 : world) : Prop :=
  ints w1 = ints w2 ∧ cells w1 = cells w2 ∧ heap w1 = heap w2 ∧
  allocs w1 = allocs w2 ∧ oom w1 = oom w2 ∧ trace w1 = trace w2 ∧
  (∀ l, l ≠ q → mem w1 !! l = mem w2 !! l) ∧
  option_Forall2 (λ x y : cvector, length x = length y ∧ take k x = take k y)
    (mem w1 !! q) (mem w2 !! q).

(** Outcomes that agree: the same value or exception, in related worlds. *)
Definition rel_out {A} (RD RE : world → world → Prop) (o1 o2 : outcome world A) : Prop :=
  match o1, o2 with
  | Done a w1, Done b w2 => a = b ∧ RD w1 w2
  | Raise e w1, Raise f w2 => e = f ∧ RE w1 w2
  | Fault, Fault => True
  | _, _ => False
  end.

(** [m] takes worlds related by [R] to agreeing outcomes. *)
Definition sim {A} (R RD RE : world → world → Prop) (m : prog world A) : Prop :=
  ∀ w1 w2, R w1 w2 → rel_out RD RE (m w1) (m w2).

Lemma differ_at_used q k w1 w2 : differ_at q k w1 w2 → used w1 = used w2.
Proof.
  intros (Hi & Hc & Hh & _ & _ & _ & Hm & Hq). unfold used. rewrite Hi, Hc, Hh.
  do 2 f_equal. f_equal. apply set_eq. intros l. rewrite !elem_of_dom.
  destruct (decide (l = q)) as [-> | Hne]; [|by rewrite Hm].
  destruct Hq; split; intros [? ?]; eauto; done.
Qed.

Lemma differ_at_set_heap q k f w1 w2 :
  differ_at q k w1 w2 → differ_at q k (set_heap f w1) (set_heap f w2).
Proof. intros (? & ? & Hh & ? & ? & ? & ? & ?). unfold differ_at. simpl. by rewrite Hh. Qed.

Lemma differ_at_count_alloc q k w1 w2 :
  differ_at q k w1 w2 → differ_at q k (count_alloc w1) (count_alloc w2).
Proof. intros (? & ? & ? & Ha & ? & ? & ? & ?). unfold differ_at. simpl. by rewrite Ha. Qed.

Lemma differ_at_log_event q k ev w1 w2 :
  differ_at q k w1 w2 → differ_at q k (log_event ev w1) (log_event ev w2).
Proof. intros (? & ? & ? & ? & ? & Ht & ? & ?). unfold differ_at. simpl. by rewrite Ht. Qed.

Lemma sim_ret {A} R RE (a : A) : sim R R RE (mret a).
Proof. by intros w1 w2 HR. Qed.

Lemma sim_throw {A} R RD e : sim (A := A) R RD R (throw e).
Proof. by intros w1 w2 HR. Qed.

Lemma sim_bind {A B} R R1 RD RE (m : prog world A) (k : A → prog world B) :
  sim R R1 RE m → (∀ a, sim R1 RD RE (k a)) → sim R RD RE (m ≫= k).
Proof.
  intros Hm Hk w1 w2 HR. specialize (Hm w1 w2 HR).
  unfold mbind, prog_bind, bind, rel_out in *.
  destruct (m w1) as [a s1|e s1|], (m w2) as [b s2|f s2|]; try done.
  destruct Hm as [-> HR1]. by apply Hk.
Qed.

Lemma sim_on_world {A} R RD RE (f : prog world A) :
  sim R RD RE f → sim R RD RE (on_world f).
Proof.
  intros Hf w1 w2 HR. specialize (Hf w1 w2 HR). unfold on_world, rel_out in *.
  cbn [world_of with_world world_machine].
  by destruct (f w1) as [a s1|e s1|], (f w2) as [b s2|e' s2|].
Qed.

Section Sim.
Context (q : loc).
Implicit Types (k : nat).

Lemma sim_with_local {A} j k (m : prog world A) :
  sim (differ_at q j) (differ_at q k) (differ_at q j) m →
  sim (differ_at q j) (differ_at q k) (differ_at q j) (with_local m).
Proof.
  intros Hm w1 w2 HR. unfold with_local, mbind, prog_bind, bind, new_obj, on_world.
  cbn [world_of with_world world_machine].
  rewrite (differ_at_used _ _ _ _ HR).
  assert (allocs w1 = allocs w2 ∧ oom w1 = oom w2) as [Ha Ho] by (by destruct HR as (_&_&_&?&?&_)).
  rewrite Ha, Ho. destruct (oom w2 (allocs w2)).
  { split; [done|]. by apply differ_at_count_alloc. }
  set (l := fresh (used w2)).
  assert (HR1 : differ_at q j (set_heap (λ h, {[l]} ∪ h) (count_alloc w1))
                              (set_heap (λ h, {[l]} ∪ h) (count_alloc w2)))
    by (by apply differ_at_set_heap, differ_at_count_alloc).
  specialize (Hm _ _ HR1). unfold finally, rel_out in *.
  destruct (m _) as [a s1|e s1|], (m _) as [b s2|f s2|]; try done.
  - destruct Hm as [-> Hm]. split; [done|]. by apply differ_at_set_heap.
  - destruct Hm as [-> Hm]. split; [done|]. by apply differ_at_set_heap.
Qed.

Lemma sim_load_int k a p :
  sim (differ_at q k) (differ_at q k) (differ_at q k) (load_int a p).
Proof.
  apply sim_on_world. intros w1 w2 HR.
  assert (ints w1 = ints w2) as -> by (by destruct HR).
  destruct (ints w2 !! a) as [arr|]; [|done]. by destruct (arr !! p).
Qed.

Lemma sim_copy_ints k a todo : ∀ p,
  sim (differ_at q k) (differ_at q k) (differ_at q k) (copy_ints a todo p).
Proof.
  induction todo as [|todo IH]; intros p; simpl; [apply sim_ret|].
  eapply sim_bind; [apply sim_load_int|]. intros x.
  eapply sim_bind; [apply IH|]. intros xs. apply sim_ret.
Qed.

Lemma sim_sizes_loop k bits a todo : ∀ p M P,
  sim (differ_at q k) (differ_at q k) (differ_at q k) (sizes_loop bits a todo p M P).
Proof.
  induction todo as [|todo IH]; intros p M P; simpl; [apply sim_ret|].
  eapply sim_bind; [apply sim_load_int|]. intros ap.
  case_decide; [apply sim_ret|]. case_decide; [by intros w1 w2 HR|].
  case_decide; [apply sim_ret|]. apply IH.
Qed.

Lemma sim_compute_sizes k N (actions : ptr) :
  sim (differ_at q k) (differ_at q k) (differ_at q k) (compute_sizes N actions).
Proof.
  unfold compute_sizes, compute_sizes_on.
  destruct actions as [a|]; [|apply sim_ret]. case_decide; [apply sim_ret|].
  eapply sim_bind; [apply sim_sizes_loop|]. intros [[M P]|]; [|apply sim_ret].
  repeat case_decide; apply sim_ret.
Qed.

Lemma sim_read_doubles k src bytes :
  src ≠ q → sim (differ_at q k) (differ_at q k) (differ_at q k) (read_doubles src bytes).
Proof.
  intros Hne. apply sim_on_world. intros w1 w2 HR.
  assert (mem w1 !! src = mem w2 !! src) as -> by (destruct HR as (_&_&_&_&_&_&Hm&_); auto).
  destruct (mem w2 !! src) as [xs|]; [|done]. by case_decide.
Qed.

Lemma sim_construct_nfgame k N acts payvec :
  sim (differ_at q k) (differ_at q k) (differ_at q k) (construct_nfgame N acts payvec).
Proof.
  unfold construct_nfgame. destruct (nfgame_ctor N acts payvec); [apply sim_throw|apply sim_ret].
Qed.

Lemma sim_call_IPA k A gvec zhvec alpha fuzz ansvec :
  sim (differ_at q k) (differ_at q k) (differ_at q k)
    (call_IPA A gvec zhvec alpha fuzz ansvec).
Proof.
  unfold call_IPA. cbv zeta.
  eapply (sim_bind _ (differ_at q k)).
  { apply sim_on_world. intros w1 w2 HR. split; [done|]. by apply differ_at_log_event. }
  intros _. destruct (IPA A gvec zhvec alpha fuzz ansvec); [apply sim_ret|apply sim_throw].
Qed.

(** Writing to another array keeps the relation; writing [n] entries to
    the start of the array at [q] makes the first [n] entries agree. *)
Lemma sim_write_other k dst off v bytes :
  dst ≠ q →
  sim (differ_at q k) (differ_at q k) (differ_at q k) (write_doubles dst off v bytes).
Proof.
  intros Hne. apply sim_on_world. intros w1 w2 HR.
  destruct HR as (Hi & Hc & Hh & Ha & Ho & Ht & Hm & Hq).
  rewrite (Hm dst Hne). destruct (mem w2 !! dst) as [xs|]; [|done]. cbv zeta.
  case_decide; [|done]. split; [done|]. unfold differ_at. simpl. split_and!; try done.
  - intros l Hl. destruct (decide (l = dst)) as [-> | Hld].
    + by rewrite !lookup_insert_eq.
    + rewrite !lookup_insert_ne by done. by apply Hm.
  - by rewrite !lookup_insert_ne.
Qed.

Lemma sim_write_at k v bytes :
  sim (differ_at q k) (differ_at q (doubles_in bytes)) (differ_at q k)
    (write_doubles q 0 v bytes).
Proof.
  apply sim_on_world. intros w1 w2 HR.
  destruct HR as (Hi & Hc & Hh & Ha & Ho & Ht & Hm & Hq).
  destruct Hq as [xs ys [Hlen Htake]|]; [|done]. cbv zeta. rewrite Hlen.
  case_decide as Hn; [|done]. split; [done|]. destruct Hn as [Hnv Hny].
  unfold differ_at. simpl. split_and!; try done.
  - intros l Hl. rewrite !lookup_insert_ne by done. by apply Hm.
  - rewrite !lookup_insert_eq. constructor. split.
    + rewrite !length_app, !length_drop, Hlen. done.
    + rewrite !take_app_le by (rewrite length_take; lia). done.
Qed.

Lemma differ_at_weaken k w1 w2 : differ_at q k w1 w2 → differ_at q 0 w1 w2.
Proof.
  intros (Hi & Hc & Hh & Ha & Ho & Ht & Hm & Hq). unfold differ_at. split_and!; try done.
  destruct Hq as [xs ys [Hlen _]|]; constructor. by rewrite !take_0.
Qed.

Lemma sim_weaken {A} R k (m : prog world A) :
  sim R (differ_at q k) (differ_at q 0) m → sim R (differ_at q 0) (differ_at q 0) m.
Proof.
  intros Hm w1 w2 HR. specialize (Hm w1 w2 HR). unfold rel_out in *.
  destruct (m w1), (m w2); try done. destruct Hm. eauto using differ_at_weaken.
Qed.

Lemma sim_ipa_body sz a p g z alpha fuzz :
  p ≠ q → g ≠ q → z ≠ q →
  sim (differ_at q 0) (differ_at q 0) (differ_at q 0) (ipa_body sz a p g z alpha fuzz q).
Proof.
  intros Hp Hg Hz. unfold ipa_body.
  apply sim_with_local. eapply sim_bind; [apply sim_copy_ints|]. intros acts.
  apply sim_with_local. eapply sim_bind; [by apply sim_read_doubles|]. intros payvec.
  apply sim_with_local. eapply sim_bind; [apply sim_construct_nfgame|]. intros A.
  apply sim_with_local. eapply sim_bind; [by apply sim_read_doubles|]. intros gvec.
  apply sim_with_local. eapply sim_bind; [by apply sim_read_doubles|]. intros zhvec.
  apply sim_with_local. cbv zeta.
  eapply sim_bind; [apply sim_call_IPA|]. intros [[r zv] av].
  eapply sim_bind; [by apply sim_write_other|]. intros _.
  eapply sim_bind; [eapply sim_weaken, sim_write_at|]. intros _.
  apply sim_ret.
Qed.

Lemma sim_ipa num_players actions payoffs g zh alpha fuzz :
  payoffs ≠ Some q → g ≠ Some q → zh ≠ Some q →
  sim (differ_at q 0) (differ_at q 0) (λ _ _, False)
    (ipa num_players actions payoffs g zh alpha fuzz (Some q)).
Proof.
  intros Hp Hg Hz. unfold ipa.
  destruct actions as [a|]; [|by intros w1 w2 HR].
  destruct payoffs as [p|]; [|by intros w1 w2 HR].
  destruct g as [g'|]; [|by intros w1 w2 HR].
  destruct zh as [z|]; [|by intros w1 w2 HR].
  intros w1 w2 HR. unfold mbind, prog_bind, bind.
  pose proof (sim_compute_sizes 0 num_players (Some a) w1 w2 HR) as Hcs.
  pose proof (compute_sizes_pure num_players (Some a) w1) as Hpure.
  unfold rel_out in Hcs.
  destruct (compute_sizes num_players (Some a) w1) as [[sz|] s1|e s1|],
           (compute_sizes num_players (Some a) w2) as [sz2 s2|e2 s2|]; try done.
  - destruct Hcs as [<- HR1]. unfold try_catch.
    pose proof (sim_ipa_body sz a p g' z alpha fuzz ltac:(congruence) ltac:(congruence)
                  ltac:(congruence) s1 s2 HR1) as Hbody.
    unfold rel_out in *.
    destruct (ipa_body sz a p g' z alpha fuzz q s1) as [r t1|e t1|],
             (ipa_body sz a p g' z alpha fuzz q s2) as [r2 t2|e2 t2|]; try done.
    destruct Hbody as [<- HR2]. by destruct e.
  - by destruct Hcs as [<- HR1].
Qed.

End Sim.

(** * The claims *)

(** The validator on the state of an entry point. *)
Lemma compute_sizes_world (w : world) N a arr :
  ints w !! a = Some arr →
  is_int N → (Z.to_nat N ≤ length arr)%nat → Forall is_int arr →
  compute_sizes N (Some a) w =
    Done (let acts := take (Z.to_nat N) arr in
          if decide (0 < N ∧ valid_game N acts)
          then Some (MkSizes N (total_actions acts) (profile_count acts)
                       (N * profile_count acts))
          else None) w.
Proof. apply (compute_sizes_run (H := world_machine)). Qed.

(** ** Size validation *)

(** X17: with a [size_t] of 64 bits, for every [num_players] N > 0 and every array
    of N action counts that the size validator accepts, the counts are
    positive and the sizes it outputs are exactly N, M = the sum of the
    counts, P = their product and the payoff length N * P, and the validator
    leaves the world as it was; in particular N = 2 with counts [3; 2] gives
    M = 5, P = 6 and payoff length 12. *)
Theorem compute_sizes_exact_at_64_bits :
  (∀ (w w' : world) N a arr sz,
     is_int N → ints w !! a = Some arr → length arr = Z.to_nat N → Forall is_int arr →
     compute_sizes N (Some a) w = Done (Some sz) w' →
     0 < N ∧ Forall (λ x, 0 < x) arr ∧
     sz_N sz = N ∧ sz_M sz = total_actions arr ∧ sz_P sz = profile_count arr ∧
     sz_payoff_len sz = N * profile_count arr ∧ w' = w) ∧
  (∀ (w : world) a,
     ints w !! a = Some [3; 2] →
     compute_sizes 2 (Some a) w = Done (Some (MkSizes 2 5 6 12)) w).
Proof.
  split.
  - intros w w' N a arr sz HN Ha Hlen Hty Hrun.
    rewrite (compute_sizes_world w N a arr Ha HN ltac:(lia) Hty) in Hrun. cbv zeta in Hrun.
    rewrite <-Hlen, firstn_all in Hrun.
    case_decide as Hv; [|done]. destruct Hv as (Hpos & Hall & _).
    by simplify_eq.
  - intros w a Ha.
    rewrite (compute_sizes_world w 2 a [3; 2] Ha); [done | done | simpl; lia |].
    repeat constructor; done.
Qed.

(** X16: with a [size_t] of 64 bits, a call of [ipa] or [gnm] in which
    [num_players] is not positive, or a required pointer is null, or some
    [actions[p]] is not positive, or M, P or N * P exceeds [INT_MAX], returns
    -1 without any allocation request and without invoking a solver: [ipa]
    leaves the world as it was, and [gnm] has only written the sentinel to
    [*answers]. *)
Theorem invalid_arguments_rejected_at_64_bits (w : world) num_players actions payoffs g zh ans answers
    alpha fuzz steps gfuzz lnmfreq lnmmax lambdamin wobble threshold :
  let bad_game :=
    ∃ a arr, actions = Some a ∧ ints w !! a = Some arr ∧
             (Z.to_nat num_players ≤ length arr)%nat ∧ Forall is_int arr ∧
             rejected_game num_players (take (Z.to_nat num_players) arr) in
  is_int num_players →
  (num_players ≤ 0 ∨ actions = None ∨ payoffs = None ∨ g = None ∨
   zh = None ∨ ans = None ∨ bad_game →
   ipa num_players actions payoffs g zh alpha fuzz ans w = Done (-1) w) ∧
  (num_players ≤ 0 ∨ actions = None ∨ payoffs = None ∨ g = None ∨
   answers = None ∨ bad_game →
   (∀ c, answers = Some c → is_Some (cells w !! c)) →
   let w' := reset_answers answers w in
   gnm num_players actions payoffs g answers steps gfuzz lnmfreq lnmmax lambdamin wobble
       threshold w = Done (-1) w' ∧
   allocs w' = allocs w ∧ heap w' = heap w ∧ trace w' = trace w ∧ mem w' = mem w).
Proof.
  intros bad_game HN.
  assert (Hsizes : ∀ (w1 : world) a,
            ints w1 = ints w →
            num_players ≤ 0 ∨ (∃ arr, ints w !! a = Some arr ∧
              (Z.to_nat num_players ≤ length arr)%nat ∧ Forall is_int arr ∧
              rejected_game num_players (take (Z.to_nat num_players) arr)) →
            compute_sizes num_players (Some a) w1 = Done None w1).
  { intros w1 a Hints [Hle | (arr & Ha & Hlen & Hty & Hrej)].
    - by apply (compute_sizes_nonpositive (H := world_machine)).
    - rewrite (compute_sizes_world w1 num_players a arr); [|by rewrite Hints|done..].
      cbv zeta. rewrite decide_False; [done|].
      intros [_ Hv]. by apply rejected_not_valid in Hrej. }
  split.
  - intros Hbad. unfold ipa.
    destruct actions as [a|]; [|done]. destruct payoffs as [p|]; [|done].
    destruct g as [g'|]; [|done]. destruct zh as [z|]; [|done].
    destruct ans as [q|]; [|done].
    unfold mbind, prog_bind, bind. rewrite (Hsizes w a eq_refl); [done|].
    destruct Hbad as [? | [? | [? | [? | [? | [? | (a' & arr & ? & ?)]]]]]];
      simplify_eq; eauto.
  - intros Hbad Hcell w'. split; [|by destruct answers].
    unfold gnm, mbind, prog_bind, bind.
    destruct answers as [c|]; cbn [reset_answers] in w'.
    2:{ by destruct actions, payoffs, g. }
    unfold store_ptr, on_world. cbn [world_of with_world world_machine].
    destruct (Hcell c eq_refl) as [q ->]. fold w'.
    destruct actions as [a|]; [|done]. destruct payoffs as [p|]; [|done].
    destruct g as [g'|]; [|done].
    rewrite (Hsizes w' a eq_refl); [done|].
    destruct Hbad as [? | [? | [? | [? | [? | (a' & arr & ? & ?)]]]]];
      simplify_eq; eauto.
Qed.

(** ** Failure translation *)

(** What a call of [gnm] that returns a negative code leaves behind: no
    array is written, and the heap is the heap of before together with the
    handles that [GNM] had put in [Eq] and that no positive count of its
    covers. *)
Lemma gnm_failure_leaves num_players actions payoffs g answers steps fuzz lnmfreq lnmmax
    lambdamin wobble threshold (w w' : world) r :
  gnm num_players actions payoffs g answers steps fuzz lnmfreq lnmmax lambdamin wobble
    threshold w = Done r w' →
  r < 0 →
  mem w' = mem w ∧
  ∃ hs, NoDup hs ∧ (∀ l, l ∈ hs → l ∉ used w) ∧
        heap w' = list_to_set hs ∪ heap w ∧
        ((trace w' = trace w ∧ hs = []) ∨
         (∃ res, trace w' = trace w ++ [Ev_GNM res] ∧ length hs = abandoned res)) ∧
        (heap w' = heap w ↔ hs = []).
Proof.
  intros Hrun%gnm_returned Hneg.
  destruct (reset_answers_frame answers w) as (_ & Hmem0 & Hheap0 & _ & _ & Htr0 & Hused0).
  assert (Hiff : ∀ hs, (∀ l, l ∈ hs → l ∉ used w) → heap w' = list_to_set hs ∪ heap w →
                       (heap w' = heap w ↔ hs = [])).
  { intros hs Hfr Hheap. split.
    - intros Heq. destruct hs as [|l hs]; [done|]. exfalso.
      apply (Hfr l); [by left|]. unfold used.
      assert (l ∈ heap w) by (rewrite <-Heq, Hheap; set_solver). set_solver.
    - intros ->. rewrite Hheap. set_solver. }
  assert (Hnone : heap w' = heap w → (trace w' = trace w ∨
                    ∃ res, trace w' = trace w ++ [Ev_GNM res] ∧ abandoned res = 0%nat) →
                  ∃ hs, NoDup hs ∧ (∀ l, l ∈ hs → l ∉ used w) ∧
                        heap w' = list_to_set hs ∪ heap w ∧
                        ((trace w' = trace w ∧ hs = []) ∨
                         (∃ res, trace w' = trace w ++ [Ev_GNM res] ∧
                                 length hs = abandoned res)) ∧
                        (heap w' = heap w ↔ hs = [])).
  { intros Hheap Htr. exists [].
    split_and!; [apply NoDup_nil_2 | by intros l ?%elem_of_nil | rewrite Hheap; set_solver
                | | done].
    destruct Htr as [Htr | (res & Htr & Habn)]; [by left | right].
    exists res. by rewrite Habn. }
  destruct Hrun as [(_ & -> & _) |
    (a & p & g' & c & sz & -> & -> & -> & -> & Hc & Hcs & Hrun)].
  { split; [done|]. apply Hnone; [done | left; done]. }
  destruct Hrun as [(e & s1 & _ & Hpost & _ & _ & _ & Hmem & _ & Htr1 & Hheap) |
                    (s1 & _ & -> & Hpost)].
  - split; [done|].
    destruct Hpost as (_ & _ & _ & _ & _ & _ &
      [(_ & _ & HEq & _ & Ht) | [(? & ? & _ & _ & _ & HEq & _ & Ht) |
       (? & ? & ? & Eq_ & _ & _ & _ & _ & Ht & HEq)]]).
    + apply Hnone; [|left; by rewrite Htr1, Ht]. rewrite Hheap, HEq. simpl. set_solver.
    + apply Hnone; [|left; by rewrite Htr1, Ht]. rewrite Hheap, HEq. simpl. set_solver.
    + rewrite Htr1, Ht, Htr0. destruct (f_Eq s1.1) as [a0|].
      * destruct HEq as (hs & vs & -> & Ha0 & Hlen & Hnd & Hfr & _).
        rewrite Ha0 in Hheap. cbn [handles_of eq_slots] in Hheap.
        rewrite fst_zip in Hheap by lia.
        assert (Hfr' : ∀ l, l ∈ hs → l ∉ used w).
        { intros l Hl Hin. apply (Hfr l); [by right | by apply Hused0]. }
        exists hs. split_and!; [by apply NoDup_cons in Hnd as [_ ?] | done | done | |
                                by apply Hiff].
        right. eexists. split; [done|]. simpl. done.
      * destruct HEq as [-> _]. simpl in Hheap.
        exists []. split_and!; [apply NoDup_nil_2 | by intros l ?%elem_of_nil
                               | rewrite Hheap; set_solver | | ].
        -- right. eexists. by split.
        -- apply Hiff; [by intros l ?%elem_of_nil | rewrite Hheap; set_solver].
  - destruct Hpost as (_ & _ & acts & ps & gs & res & hs & _ & _ & _ & _ & Htr1 & _
                       & Hhs & [Hnd Hfr] & Hrest).
    rewrite decide_False in Hrest by lia. destruct Hrest as (Hheap & Hmem & _).
    rewrite Hheap0 in Hheap. split; [by rewrite Hmem|].
    assert (Hfr' : ∀ l, l ∈ hs → l ∉ used w).
    { intros l Hl Hin. apply (Hfr l); [done | by apply Hused0]. }
    exists hs. split_and!; [done | done | done | | by apply Hiff].
    right. exists res. split; [by rewrite Htr1, Htr0 | done].
Qed.

(** C1 (amended): no exception leaves [ipa] or [gnm].  When the [try] block of
    an accepted call throws, the entry point returns -2 for [std::bad_alloc]
    and -3 for anything else, with no array written; [gnm] also returns -3
    when upstream [GNM] returns a negative count and -2 when the request for
    the result block is refused.  After a failure [ipa] leaves the heap as it
    was.  After [gnm] has returned a negative code, no array is written and
    the heap is the heap of before the call together with distinct addresses
    that were not in use before it, as many as the handles that [GNM] had
    left in [Eq] without a positive count of its covering them ([abandoned]:
    all the handles in [Eq] when [GNM] throws or returns a count that is not
    positive, those beyond the count otherwise; none when [GNM] was not
    called): everything else that the call allocated has been released, and
    the heap is as before the call if and only if there is no such
    handle. *)
Theorem C1_failures_become_codes :
  (∀ (w : world) num_players actions payoffs g zh alpha fuzz ans,
     (∀ e w', ipa num_players actions payoffs g zh alpha fuzz ans w ≠ Raise e w') ∧
     (∀ a p g' z q sz e w1,
        actions = Some a → payoffs = Some p → g = Some g' → zh = Some z → ans = Some q →
        compute_sizes num_players actions w = Done (Some sz) w →
        ipa_body sz a p g' z alpha fuzz q w = Raise e w1 →
        ipa num_players actions payoffs g zh alpha fuzz ans w = Done (exn_code e) w1 ∧
        heap w1 = heap w ∧ mem w1 = mem w)) ∧
  (∀ (w : world) num_players actions payoffs g answers steps fuzz lnmfreq lnmmax lambdamin
      wobble threshold,
     let call := gnm num_players actions payoffs g answers steps fuzz lnmfreq lnmmax
                   lambdamin wobble threshold in
     (∀ e w', call w ≠ Raise e w') ∧
     (∀ a p g' c sz e s1,
        actions = Some a → payoffs = Some p → g = Some g' → answers = Some c →
        is_Some (cells w !! c) →
        let w0 := set_cells <[c := None]> w in
        compute_sizes num_players actions w0 = Done (Some sz) w0 →
        gnm_body sz a p g' c steps fuzz lnmfreq lnmmax lambdamin wobble threshold
          (Frame None 0 None, w0) = Raise e s1 →
        ∃ w', call w = Done (exn_code e) w' ∧ mem w' = mem w ∧
              heap w' = list_to_set (handles_of (f_Eq (fst s1))) ∪ heap w) ∧
     (∀ r w' res,
        call w = Done r w' → trace w' = trace w ++ [Ev_GNM res] →
        r = gnm_code res (negb (oom w (4 + allocs w)%nat)) ∧
        (∀ found g' Eq_, res = GNM_returns found g' Eq_ → found < 0 → r = -3) ∧
        (∀ found g' Eq_, res = GNM_returns found g' Eq_ → 0 < found →
                         oom w (4 + allocs w)%nat = true → r = -2) ∧
        (r < 0 → abandoned res = 0%nat → heap w' = heap w ∧ mem w' = mem w)) ∧
     (∀ r w',
        call w = Done r w' → r < 0 →
        mem w' = mem w ∧
        ∃ hs, NoDup hs ∧ (∀ l, l ∈ hs → l ∉ used w) ∧
              heap w' = list_to_set hs ∪ heap w ∧
              ((trace w' = trace w ∧ hs = []) ∨
               (∃ res, trace w' = trace w ++ [Ev_GNM res] ∧ length hs = abandoned res)) ∧
              (heap w' = heap w ↔ hs = []))).
Proof.
  split.
  - intros w num_players actions payoffs g zh alpha fuzz ans. split.
    + intros e w' Hrun.
      pose proof (ipa_outcome num_players actions payoffs g zh alpha fuzz ans w) as Hout.
      unfold wpg in Hout. by rewrite Hrun in Hout.
    + intros a p g' z q sz e w1 -> -> -> -> -> Hcs Hbody.
      pose proof (ipa_body_spec sz a p g' z alpha fuzz q w) as Hspec.
      unfold wpg in Hspec. rewrite Hbody in Hspec.
      destruct Hspec as ((_ & _ & _ & Hheap) & Hmem & _).
      split; [|done]. unfold ipa, mbind, prog_bind, bind. rewrite Hcs.
      unfold try_catch. rewrite Hbody. by destruct e.
  - intros w num_players actions payoffs g answers steps fuzz lnmfreq lnmmax lambdamin wobble
      threshold call. split_and!.
    + intros e w' Hrun.
      pose proof (gnm_outcome num_players actions payoffs g answers steps fuzz lnmfreq
                    lnmmax lambdamin wobble threshold w) as Hout.
      unfold wpg in Hout. unfold call in Hrun. by rewrite Hrun in Hout.
    + intros a p g' c sz e s1 -> -> -> -> Hcell w0 Hcs Hbody.
      assert (Hc0 : cells w0 !! c = Some None) by apply lookup_insert_eq.
      pose proof (gnm_body_spec True sz a p g' c steps fuzz lnmfreq lnmmax lambdamin wobble
                    threshold w0 Hc0 (or_introl I)) as Hspec.
      unfold wpg in Hspec. rewrite Hbody in Hspec.
      pose proof (gnm_handler_spec False sz a p g' c steps fuzz lnmfreq lnmmax lambdamin
                    wobble threshold w0 e s1 ltac:(by rewrite Hc0) Hspec) as Hh.
      unfold wpg in Hh.
      destruct (gnm_handler c e s1) as [r s2|e' s2|] eqn:Hhandler; [|done..].
      destruct Hh as (-> & _ & _ & Hmem & _ & _ & Hheap).
      exists s2.2. split_and!; [|done..].
      unfold call, gnm, mbind, prog_bind, bind, store_ptr, on_world.
      cbn [world_of with_world world_machine]. destruct Hcell as [q0 ->]. fold w0.
      rewrite Hcs. unfold with_frame, try_catch. by rewrite Hbody, Hhandler.
    + intros r w' res Hrun%gnm_returned Htr.
      destruct (reset_answers_frame answers w) as (_ & Hmem0 & Hheap0 & Hall0 & Hoom0 & Htr0
                                                   & _).
      assert (Hcode : r = gnm_code res (negb (oom w (4 + allocs w)%nat)) ∧
                      (r < 0 → abandoned res = 0%nat → heap w' = heap w ∧ mem w' = mem w)).
      { destruct Hrun as [(_ & -> & _) |
          (a & p & g' & c & sz & -> & -> & -> & -> & Hc & Hcs & Hrun)].
        { rewrite Htr0 in Htr. symmetry in Htr. by apply snoc_neq in Htr. }
        destruct Hrun as [(e & s1 & _ & Hpost & -> & _ & _ & Hmem & _ & Htr1 & Hheap) |
                          (s1 & _ & -> & Hpost)].
        - rewrite Htr1 in Htr.
          destruct Hpost as (_ & _ & _ & _ & _ & _ &
            [(_ & _ & _ & _ & Ht) | [(? & ? & _ & _ & _ & _ & _ & Ht) |
             (? & ? & ? & Eq_ & _ & _ & _ & _ & Ht & HEq)]]);
            rewrite Ht, Htr0 in Htr.
          + symmetry in Htr. by apply snoc_neq in Htr.
          + symmetry in Htr. by apply snoc_neq in Htr.
          + apply snoc_inj in Htr. injection Htr as <-. split; [done|].
            intros _ Habn. split; [|done]. rewrite Hheap. simpl in Habn.
            destruct (f_Eq s1.1) as [a0|].
            * destruct HEq as (hs & vs & -> & -> & Hlen & _).
              simpl in Habn. rewrite <-Hlen in Habn. apply nil_length_inv in Habn as ->.
              simpl. set_solver.
            * simpl. set_solver.
        - destruct Hpost as (_ & _ & acts & ps & gs & res' & hs & _ & _ & _ & _ & Htr1 & Hr
                             & Hhs & _ & Hrest).
          rewrite Htr1, Htr0 in Htr. apply snoc_inj in Htr. injection Htr as <-.
          split; [done|]. intros Hneg Habn. rewrite decide_False in Hrest by lia.
          destruct Hrest as (Hheap & Hmem & _). rewrite Habn in Hhs.
          apply nil_length_inv in Hhs as ->. rewrite Hheap, Hmem, Hheap0, Hmem0.
          split; [set_solver | done]. }
      destruct Hcode as [Hr Hheap]. split_and!; [done | | | done].
      * intros found g' Eq_ -> Hneg. rewrite Hr. simpl.
        by rewrite decide_False, decide_True by lia.
      * intros found g' Eq_ -> Hpos Hoom. rewrite Hr, Hoom. simpl.
        by rewrite !decide_False by lia.
    + intros r w' Hrun Hneg. unfold call in Hrun.
      by eapply gnm_failure_leaves.
Qed.

(** ** The result block of [gnm] *)

(** C3: whenever [gnm] returns a value that is not positive, the cell
    [*answers] holds the null sentinel (there is no cell to write when
    [answers] itself is null); in particular, when the upstream solver
    reports zero equilibria, [gnm] returns 0 and [*answers] is the
    sentinel. *)
Theorem C3_answers_sentinel (w w' : world) num_players actions payoffs g answers steps fuzz
    lnmfreq lnmmax lambdamin wobble threshold r :
  gnm num_players actions payoffs g answers steps fuzz lnmfreq lnmmax lambdamin wobble
    threshold w = Done r w' →
  (r ≤ 0 → cells w' = cells (reset_answers answers w) ∧
           ∀ c, answers = Some c → cells w' !! c = Some None) ∧
  (∀ found g' Eq_,
     trace w' = trace w ++ [Ev_GNM (GNM_returns found g' Eq_)] → found = 0 →
     r = 0 ∧ ∀ c, answers = Some c → cells w' !! c = Some None).
Proof.
  intros Hrun%gnm_returned.
  destruct (reset_answers_frame answers w) as (_ & _ & _ & _ & _ & Htr0 & _).
  assert (Hcell : cells w' = cells (reset_answers answers w) →
                  ∀ c, answers = Some c → cells w' !! c = Some None).
  { intros -> c ->. simpl. apply lookup_insert_eq. }
  destruct Hrun as [(-> & -> & _) |
    (a & p & g' & c & sz & -> & -> & -> & -> & Hc & Hcs & Hrun)].
  { split; [by auto|]. intros found g'' Eq_ Htr. rewrite Htr0 in Htr.
    symmetry in Htr. by apply snoc_neq in Htr. }
  destruct Hrun as [(e & s1 & _ & Hpost & -> & _ & _ & _ & Hcells & Htr & _) |
                    (s1 & _ & -> & Hpost)].
  - split; [by auto|]. intros found g'' Eq_ Htr' _. exfalso.
    rewrite Htr in Htr'.
    destruct Hpost as (_ & _ & _ & _ & _ & _ &
      [(_ & _ & _ & _ & Ht) | [(? & ? & _ & _ & _ & _ & _ & Ht) |
       (? & ? & ? & ? & _ & _ & _ & _ & Ht & _)]]);
      rewrite Ht, Htr0 in Htr'.
    + symmetry in Htr'. by apply snoc_neq in Htr'.
    + symmetry in Htr'. by apply snoc_neq in Htr'.
    + by apply snoc_inj in Htr'.
  - destruct Hpost as (_ & _ & acts & ps & gs & res & hs & _ & _ & _ & _ & Htr & Hr & _ & _
                       & Hrest).
    split.
    + intros Hle. rewrite decide_False in Hrest by lia.
      destruct Hrest as (_ & _ & Hcells). by auto.
    + intros found g'' Eq_ Htr' ->. rewrite Htr, Htr0 in Htr'.
      apply snoc_inj in Htr'. injection Htr' as ->.
      assert (r = 0) as -> by done.
      split; [done|]. rewrite decide_False in Hrest by lia.
      destruct Hrest as (_ & _ & Hcells). by auto.
Qed.

(** C9: [gametracer_free] on the null sentinel returns at once and leaves
    the world as it was; and on the pointer that a call of [gnm] with a
    positive result has stored in [*answers] it is defined and releases
    exactly that block, which was live and did not exist before the call. *)
Theorem C9_gametracer_free :
  (∀ w : world, gametracer_free None w = Done tt w) ∧
  (∀ (w w' : world) num_players actions payoffs g c steps fuzz lnmfreq lnmmax lambdamin
      wobble threshold r b,
     gnm num_players actions payoffs g (Some c) steps fuzz lnmfreq lnmmax lambdamin wobble
       threshold w = Done r w' →
     0 < r → cells w' !! c = Some (Some b) →
     b ∈ heap w' ∧ (b ∉ heap w) ∧ (b ∉ dom (mem w)) ∧
     gametracer_free (Some b) w'
       = Done tt (set_mem (delete b) (set_heap (λ h, h ∖ {[b]}) w')) ∧
     delete b (mem w') = mem w).
Proof.
  split; [done|].
  intros w w' num_players actions payoffs g c steps fuzz lnmfreq lnmmax lambdamin wobble
    threshold r b Hrun%gnm_returned Hpos Hcell.
  destruct (reset_answers_frame (Some c) w) as (_ & Hmem0 & Hheap0 & _ & _ & _ & Hused0).
  destruct Hrun as [(-> & _) |
    (a & p & g' & c' & sz & _ & _ & _ & [= <-] & Hc & Hcs & Hrun)]; [lia|].
  destruct Hrun as [(e & s1 & _ & _ & -> & _) | (s1 & _ & -> & Hpost)];
    [by destruct e|].
  destruct Hpost as (_ & _ & acts & ps & gs & res & hs & _ & _ & _ & _ & _ & _ & _ & _
                     & Hrest).
  rewrite decide_True in Hrest by done.
  destruct Hrest as (b' & vs & Hb & _ & _ & Hheap & Hmem & Hcells).
  rewrite Hcells, lookup_insert_eq in Hcell. injection Hcell as ->.
  assert (Hbw : b ∉ used w) by set_solver.
  unfold used in Hbw.
  assert (Hbh : b ∈ heap s1.2) by (rewrite Hheap; set_solver).
  split_and!; [done | set_solver | set_solver | |].
  - unfold gametracer_free, free, on_world. cbn [world_of with_world world_machine].
    by rewrite decide_True.
  - rewrite Hmem, Hmem0, delete_insert_id; [done|]. apply not_elem_of_dom. set_solver.
Qed.

(** C4: in a well-formed call of [gnm] (valid game, arrays of the sizes of
    the interface, a cell behind [answers]) in which the adapter is built,
    upstream [GNM] returns k > 0 with k handles on vectors of M entries, and
    the request for the result block is granted, [gnm] returns k, [*answers]
    points to a new block of k * M doubles in which entry [row * M + i] is
    entry [i] of equilibrium [row], every handle and the handle array have
    been released (the block is the only allocation that the call leaves),
    and no other array has changed.  The k vectors already take
    k * M * sizeof(double) bytes of the address space, so that this number
    fits [size_t]. *)
Theorem C4_gnm_result_block (w : world) num_players a p g c steps fuzz lnmfreq lnmmax
    lambdamin wobble threshold arr ps gs k g' eqs :
  let acts := take (Z.to_nat num_players) arr in
  let M := total_actions acts in
  let P := profile_count acts in
  let A := NFGame num_players acts (take (Z.to_nat (num_players * P)) ps) in
  is_int num_players → 0 < num_players →
  ints w !! a = Some arr → (Z.to_nat num_players ≤ length arr)%nat → Forall is_int arr →
  valid_game num_players acts →
  mem w !! p = Some ps → (Z.to_nat (num_players * P) ≤ length ps)%nat →
  mem w !! g = Some gs → (Z.to_nat M ≤ length gs)%nat →
  is_Some (cells w !! c) →
  (∀ i, (i < 5)%nat → oom w (i + allocs w)%nat = false) →
  nfgame_ctor num_players acts (take (Z.to_nat (num_players * P)) ps) = None →
  GNM A (take (Z.to_nat M) gs) steps fuzz lnmfreq lnmmax lambdamin wobble threshold
    = GNM_returns k g' (Some eqs) →
  0 < k → length eqs = Z.to_nat k → Forall (λ v, length v = Z.to_nat M) eqs →
  k * M * sizeof_double ≤ size_max SIZE_BITS →
  ∃ b blk w',
    gnm num_players (Some a) (Some p) (Some g) (Some c) steps fuzz lnmfreq lnmmax
        lambdamin wobble threshold w = Done k w' ∧
    cells w' !! c = Some (Some b) ∧ mem w' !! b = Some blk ∧
    (b ∉ used w) ∧ length blk = Z.to_nat (k * M) ∧
    (∀ row i v x, eqs !! row = Some v → v !! i = Some x →
                  blk !! (row * Z.to_nat M + i)%nat = Some x) ∧
    heap w' = {[b]} ∪ heap w ∧
    (∀ l, l ≠ b → mem w' !! l = mem w !! l).
Proof.
  intros acts M P A HN Hpos Ha Hlen Hty Hvalid Hp Hplen Hg Hglen Hcell Hoom Hctor HGNM Hk
    Heqs Hrows Hbytes.
  destruct Hvalid as (Hall & HM & HP & HNP).
  assert (Himax : INT_MAX = 2147483647) by done.
  assert (Hacts : length acts = Z.to_nat num_players) by (by apply length_take_le).
  assert (HMpos : 0 < M).
  { apply total_actions_pos; [|done]. intros Hnil. rewrite Hnil in Hacts. simpl in *. lia. }
  assert (HPpos : 1 ≤ P) by (by apply profile_count_pos).
  set (sz := MkSizes num_players M P (num_players * P)).
  set (w0 := set_cells <[c := None]> w).
  assert (Hn : doubles_in (nbytes (sz_M sz)) = Z.to_nat M)
    by (apply doubles_in_nbytes; simpl; lia).
  assert (Hnp : doubles_in (nbytes (sz_payoff_len sz)) = Z.to_nat (num_players * P))
    by (apply doubles_in_nbytes; simpl; nia).
  assert (Hblk : doubles_in (block_bytes k (sz_M sz)) = Z.to_nat (k * M))
    by (by apply block_bytes_small).
  assert (Hkm : Z.to_nat (k * M) = (Z.to_nat k * Z.to_nat M)%nat)
    by (rewrite Z2Nat.inj_mul; lia).
  assert (Hoff : ∀ i, (i < length eqs)%nat →
                      row_offset (0 + i) (sz_M sz) = ((0 + i) * Z.to_nat M)%nat).
  { intros i Hi. cbn [Nat.add sz_M sz]. apply row_offset_small; [lia|].
    unfold sizeof_double in Hbytes. nia. }
  assert (Hfit : rows_fit (take (Z.to_nat k) eqs) (sz_M sz) 0
                   (doubles_in (block_bytes k (sz_M sz)))).
  { rewrite Hblk, <-Heqs, firstn_all. intros i v Hi. rewrite Hn.
    pose proof (lookup_lt_Some _ _ _ Hi) as Hlt.
    rewrite Forall_forall in Hrows.
    rewrite (Hrows v) by (by eapply list_elem_of_lookup_2).
    split; [done|]. rewrite (Hoff i Hlt), Hkm. nia. }
  (* the entry of [gnm] *)
  unfold gnm, mbind, prog_bind, bind, store_ptr, on_world.
  cbn [world_of with_world world_machine]. destruct Hcell as [q0 Hq0]. rewrite Hq0.
  fold w0.
  rewrite (compute_sizes_world w0 num_players a arr Ha HN Hlen Hty). cbv zeta.
  fold acts. fold M P. rewrite decide_True by (by repeat split). fold sz.
  (* the [try] block *)
  assert (Hc0 : cells w0 !! c = Some None) by apply lookup_insert_eq.
  assert (Hsafe : gnm_safe sz a p g steps fuzz lnmfreq lnmmax lambdamin wobble threshold w0).
  { exists arr, ps, gs. rewrite Hn, Hnp. split_and!; try done.
    intros found g'' Eq_ Hres _.
    pose proof (eq_trans (eq_sym HGNM) Hres) as Heq. injection Heq as <- <- <-.
    exists eqs. split_and!; [done | lia | done]. }
  pose proof (gnm_body_spec False sz a p g c steps fuzz lnmfreq lnmmax lambdamin wobble
                threshold w0 Hc0 (or_intror Hsafe)) as Hbody.
  unfold wpg in Hbody. unfold with_frame, try_catch.
  destruct (gnm_body sz a p g c steps fuzz lnmfreq lnmmax lambdamin wobble threshold
              (Frame None 0 None, w0)) as [r s1|e s1|]; [| |done].
  - destruct Hbody as (_ & _ & acts' & ps' & gs' & res & hs & Hps' & Hgs' & Hacts' & Hres
                       & _ & Hr & Hhs & _ & Hrest).
    assert (ps' = ps) as -> by (cbn in Hps'; congruence).
    assert (gs' = gs) as -> by (cbn in Hgs'; congruence).
    rewrite (Hacts' arr Ha), Hn, Hnp in Hres.
    pose proof (eq_trans Hres HGNM) as Heq. clear Hres. subst res.
    simpl in Hhs. cbn [gnm_code] in Hr.
    pose proof (Hoom 4%nat ltac:(lia)) as Hoom4.
    change (oom w (4 + allocs w)%nat) with (oom w0 (4 + allocs w0)%nat) in Hoom4.
    rewrite Hoom4 in Hr. cbn [negb] in Hr.
    rewrite !decide_False in Hr by lia. subst r.
    rewrite decide_True in Hrest by done.
    destruct Hrest as (b & vs & Hb & _ & [= <-] & Hheap & Hmem & Hcells).
    assert (hs = []) as -> by (apply nil_length_inv; lia).
    rewrite Hblk, <-Heqs, firstn_all in Hmem.
    rewrite <-(app_nil_l (junk _)) in Hmem.
    assert (Hjunk : (length eqs * Z.to_nat M ≤ length (junk (Z.to_nat (k * M))))%nat)
      by (rewrite length_junk; lia).
    rewrite (fill_rows_concat (sz_M sz) (Z.to_nat M) eqs 0 [] (junk (Z.to_nat (k * M)))
               (eq_sym Hn) Hoff Hrows eq_refl Hjunk) in Hmem.
    rewrite app_nil_l, drop_ge, app_nil_r in Hmem by (rewrite length_junk; lia).
    exists b, (concat eqs), s1.2. split_and!.
    + done.
    + by rewrite Hcells, lookup_insert_eq.
    + by rewrite Hmem, lookup_insert_eq.
    + unfold used in *. cbn in Hb. rewrite dom_insert_L in Hb. set_solver.
    + rewrite (length_concat_uniform (Z.to_nat M)) by done. lia.
    + intros row i v x Hrow Hi. by eapply lookup_concat_uniform.
    + rewrite Hheap. cbn. set_solver.
    + intros l Hl. by rewrite Hmem, lookup_insert_ne.
  - exfalso. destruct Hbody as (_ & _ & _ & _ & _ & _ & Hcause).
    destruct Hcause as [(_ & (i & Hi & Hoomi) & _) |
      [(acts' & ps' & Hps' & Hacts' & Hthrow & _) |
       (acts' & ps' & gs' & Eq_ & Hps' & Hgs' & Hacts' & Hthrow & _)]].
    + cbn in Hoomi. rewrite Hoom in Hoomi by lia. done.
    + assert (ps' = ps) as -> by (cbn in Hps'; congruence).
      rewrite (Hacts' arr Ha), Hnp in Hthrow.
      pose proof (eq_trans (eq_sym Hctor) Hthrow) as Heq. done.
    + assert (ps' = ps) as -> by (cbn in Hps'; congruence).
      assert (gs' = gs) as -> by (cbn in Hgs'; congruence).
      rewrite (Hacts' arr Ha), Hn, Hnp in Hthrow.
      pose proof (eq_trans (eq_sym HGNM) Hthrow) as Heq. done.
Qed.

(** ** Frame *)

(** C7: when a call of [ipa] or [gnm] returns, whatever it returns, the int
    arrays are as before the call; after [ipa] every double array other than
    [zh] and [ans] is as before, and after [gnm] every double array that
    existed before the call is as before.  So the action counts, the payoffs
    and the ray are unchanged, as long as the caller has not passed one of
    them as [zh] or [ans] too. *)
Theorem C7_inputs_unchanged :
  (∀ (w w' : world) num_players actions payoffs g zh alpha fuzz ans r,
     ipa num_players actions payoffs g zh alpha fuzz ans w = Done r w' →
     ints w' = ints w ∧
     ∀ l, Some l ≠ zh → Some l ≠ ans → mem w' !! l = mem w !! l) ∧
  (∀ (w w' : world) num_players actions payoffs g answers steps fuzz lnmfreq lnmmax
      lambdamin wobble threshold r,
     gnm num_players actions payoffs g answers steps fuzz lnmfreq lnmmax lambdamin wobble
       threshold w = Done r w' →
     ints w' = ints w ∧
     ∀ l, l ∈ dom (mem w) → mem w' !! l = mem w !! l).
Proof.
  split.
  - intros w w' num_players actions payoffs g zh alpha fuzz ans r Hrun%ipa_returned.
    destruct Hrun as [(_ & -> & _) |
      (a & p & g' & z & q & sz & -> & -> & -> & -> & -> & _ & Hrun)]; [done|].
    destruct Hrun as [(e & _ & _ & (Hints & _) & Hmem & _) | (_ & (Hints & _) & Hpost)].
    + split; [done|]. intros l _ _. by rewrite Hmem.
    + split; [done|].
      destruct Hpost as (? & ? & ? & ? & ? & ? & ? & ? & _ & _ & _ & _ & _ & _ & _ & _ & _
                         & Hmem).
      intros l Hz Hq. rewrite Hmem, !lookup_insert_ne; [done|congruence..].
  - intros w w' num_players actions payoffs g answers steps fuzz lnmfreq lnmmax lambdamin
      wobble threshold r Hrun%gnm_returned.
    destruct (reset_answers_frame answers w) as (Hints0 & Hmem0 & _ & _ & _ & _ & Hused0).
    destruct Hrun as [(_ & -> & _) |
      (a & p & g' & c & sz & -> & -> & -> & -> & Hc & Hcs & Hrun)].
    { split; [done|]. intros l _. by rewrite Hmem0. }
    destruct Hrun as [(e & s1 & _ & _ & _ & Hints & _ & Hmem & _) | (s1 & _ & -> & Hpost)].
    + split; [done|]. intros l _. by rewrite Hmem.
    + destruct Hpost as (Hints & _ & acts & ps & gs & res & hs & _ & _ & _ & _ & _ & _ & _
                         & _ & Hrest).
      split; [by rewrite Hints|]. intros l Hl.
      destruct (decide (0 < r)).
      * destruct Hrest as (b & vs & Hb & _ & _ & _ & Hmem & _).
        rewrite Hmem, Hmem0, lookup_insert_ne; [done|].
        intros ->. apply Hb. apply Hused0. unfold used. set_solver.
      * destruct Hrest as (_ & Hmem & _). by rewrite Hmem, Hmem0.
Qed.

Lemma size_wrap_nonneg bits x : 0 ≤ bits → 0 ≤ size_wrap bits x.
Proof.
  intros Hb. unfold size_wrap. apply Z.mod_pos_bound, Z.pow_pos_nonneg; lia.
Qed.

Lemma sizes_loop_nonneg bits a todo : ∀ p M P (s s' : world) r,
  0 ≤ bits → 0 ≤ M → 0 ≤ P →
  sizes_loop bits a todo p M P s = Done (Some r) s' → 0 ≤ r.1 ∧ 0 ≤ r.2.
Proof.
  induction todo as [|todo IH]; intros p M P s s' r Hb HM HP; cbn [sizes_loop].
  { by intros [= <- _]. }
  unfold mbind, prog_bind, bind.
  destruct (load_int a p s) as [x s1|e s1|]; [|done..].
  destruct (decide (x ≤ 0)); [done|].
  destruct (decide (size_wrap bits x = 0)); [done|].
  destruct (decide (P > size_max bits `div` size_wrap bits x)); [done|].
  apply IH; [done | by apply size_wrap_nonneg..].
Qed.

(** An accepted game has between 0 and [INT_MAX] actions in all, so that
    the byte count [M * sizeof(double)] does not wrap and stands for [M]
    doubles. *)
Lemma accepted_M_entries (w w' : world) N actions sz :
  compute_sizes N actions w = Done (Some sz) w' →
  doubles_in (nbytes (sz_M sz)) = Z.to_nat (sz_M sz).
Proof.
  unfold compute_sizes, compute_sizes_on.
  destruct actions as [a|]; [|done].
  destruct (decide (N ≤ 0)); [done|].
  unfold mbind, prog_bind, bind.
  destruct (sizes_loop SIZE_BITS a (Z.to_nat N) 0 0 1 w) as [[[M P]|] w1|e w1|] eqn:Hloop;
    [|done..].
  apply sizes_loop_nonneg in Hloop as [HM _]; [|done..]. simpl in HM.
  assert (Himax : INT_MAX = 2147483647) by done.
  assert (Hpow : 2 ^ SIZE_BITS = 18446744073709551616) by done.
  rewrite !(size_wrap_small _ INT_MAX) by lia.
  destruct (decide (M > INT_MAX)); [done|].
  destruct (decide (P > INT_MAX)); [done|].
  destruct (decide (size_wrap SIZE_BITS (size_wrap SIZE_BITS N * P) > INT_MAX)); [done|].
  intros [= <- _]. apply doubles_in_nbytes. simpl. lia.
Qed.

(** ** Two calls of [ipa] that differ in the contents of [ans] *)

(** C8, with the failing calls set apart: take two worlds that differ in the
    contents of the array [ans] only (its length is the same), and let [ans]
    be none of [payoffs], [g], [zh].  If [ipa] returns [r] in the first
    world, it returns the same [r] in the second, and afterwards the two
    worlds still agree on everything but the contents of [ans]: on [zh], on
    every other array, on the heap and on what the solver was asked.  If
    [IPA] ran to its end, [r] is what it returned, the first [M] entries of
    [ans] are then equal in the two worlds as well, being the first [M]
    entries of the solver's answer vector, and in both worlds the first [M]
    entries of [zh] are those of the solver's work vector.  If it did not
    (the arguments were rejected, or an exception was caught), neither call
    has written any array, so each [ans] is as it was before its call. *)
Theorem C8_ans_contents_irrelevant (w1 w2 w1' : world) num_players actions payoffs g zh
    alpha fuzz q r :
  differ_at q 0 w1 w2 →
  payoffs ≠ Some q → g ≠ Some q → zh ≠ Some q →
  ipa num_players actions payoffs g zh alpha fuzz (Some q) w1 = Done r w1' →
  ∃ w2',
    ipa num_players actions payoffs g zh alpha fuzz (Some q) w2 = Done r w2' ∧
    differ_at q 0 w1' w2' ∧
    (∀ r0 gv zv av,
       trace w1' = trace w1 ++ [Ev_IPA (IPA_returns r0 gv zv av)] →
       r = r0 ∧
       ∃ sz, compute_sizes num_players actions w1 = Done (Some sz) w1 ∧
             let n := doubles_in (nbytes (sz_M sz)) in
             n = Z.to_nat (sz_M sz) ∧
             differ_at q n w1' w2' ∧
             take n <$> mem w1' !! q = Some (take n av) ∧
             take n <$> mem w2' !! q = Some (take n av) ∧
             ∀ z, zh = Some z →
                  take n <$> mem w1' !! z = Some (take n zv) ∧
                  take n <$> mem w2' !! z = Some (take n zv)) ∧
    ((∀ r0 gv zv av, trace w1' ≠ trace w1 ++ [Ev_IPA (IPA_returns r0 gv zv av)]) →
     (r = -1 ∨ r = -2 ∨ r = -3) ∧ mem w1' = mem w1 ∧ mem w2' = mem w2).
Proof.
  intros HD Hp Hg Hz Hrun.
  pose proof (sim_ipa q num_players actions payoffs g zh alpha fuzz Hp Hg Hz w1 w2 HD) as Hsim.
  rewrite Hrun in Hsim. unfold rel_out in Hsim.
  destruct (ipa num_players actions payoffs g zh alpha fuzz (Some q) w2)
    as [r2 w2'|e2 w2'|] eqn:Hrun2; try done.
  destruct Hsim as [<- HD']. exists w2'. split; [done|]. split; [done|].
  pose proof (ipa_effect _ _ _ _ _ _ _ _ _ _ _ Hrun) as He1.
  pose proof (ipa_effect _ _ _ _ _ _ _ _ _ _ _ Hrun2) as He2.
  pose proof (sim_compute_sizes q 0 num_players actions w1 w2 HD) as Hcss.
  assert (trace w1 = trace w2) as Ht by apply HD.
  assert (trace w1' = trace w2') as Ht' by apply HD'.
  split.
  - intros r0 gv zv av Htr.
    destruct He1 as [(_ & _ & Hno) |
      (sz & z & q1 & gv1 & zv1 & av1 & -> & [= <-] & Hcs & Htr1 & _ & _ & Hq1 & Hz1)];
      [by destruct (Hno _ _ _ _ Htr)|].
    destruct He2 as [(_ & _ & Hno) |
      (sz2 & z2 & q2 & gv2 & zv2 & av2 & [= <-] & [= <-] & Hcs2 & Htr2 & _ & _ & Hq2 & Hz2)].
    { exfalso. apply (Hno r gv1 zv1 av1). by rewrite <- Ht', <- Ht. }
    pose proof (accepted_M_entries _ _ _ _ _ Hcs) as HnM.
    rewrite Hcs, Hcs2 in Hcss. destruct Hcss as [[= <-] _].
    rewrite <- Ht', <- Ht, Htr1 in Htr2. apply snoc_inj in Htr2.
    rewrite Htr in Htr1. apply snoc_inj in Htr1.
    injection Htr2 as <- <- <-. injection Htr1 as -> -> -> ->.
    assert (z ≠ q) as Hzq by congruence.
    specialize (Hz1 Hzq). specialize (Hz2 Hzq).
    split; [done|]. exists sz. split; [done|]. cbv zeta in *.
    split_and!; [done | | done | done | by intros z' [= <-]].
    destruct HD' as (Hi & Hc & Hh & Ha & Ho & _ & Hm & Hq). unfold differ_at.
    split_and!; try done.
    destruct Hq as [x y [Hlen _]|]; [|constructor]. simpl in Hq1, Hq2.
    constructor. split; congruence.
  - intros Hno.
    destruct He1 as [(Hm1 & Hr & _) | (sz & z & q1 & gv1 & zv1 & av1 & _ & _ & _ & Htr1 & _)];
      [|by destruct (Hno _ _ _ _ Htr1)].
    destruct He2 as [(Hm2 & _ & _) | (sz & z & q1 & gv1 & zv1 & av1 & _ & _ & _ & Htr2 & _)];
      [done|].
    exfalso. apply (Hno r gv1 zv1 av1). by rewrite Ht', Ht.
Qed.

(** * Further properties of the shim *)

(** ** The validator at other widths of [size_t] *)

Section Widths.
Context `{Machine St}.

(** A count that is not positive ends the loop, at any width of [size_t]
    that holds every positive [int] and whatever the sums so far, and no
    entry after it is read. *)
Lemma sizes_loop_nonpositive bits (s : St) a arr j x : ∀ todo p M P,
  31 ≤ bits → Forall is_int arr →
  ints (world_of s) !! a = Some arr → arr !! j = Some x → x ≤ 0 →
  (p ≤ j < p + todo)%nat →
  sizes_loop bits a todo p M P s = Done None s.
Proof.
  induction todo as [|todo IH]; intros p M P Hb Hty Ha Hj Hx Hp; [lia|].
  cbn [sizes_loop]. unfold mbind, prog_bind, bind.
  destruct (lookup_lt_is_Some_2 arr p) as [y Hy].
  { apply lookup_lt_Some in Hj. lia. }
  rewrite (load_int_run s a arr p y Ha Hy).
  destruct (decide (y ≤ 0)); [done|].
  assert (Hwy : size_wrap bits y = y).
  { apply size_wrap_small. rewrite Forall_forall in Hty.
    destruct (Hty y) as [_ Hmax]; [by eapply list_elem_of_lookup_2|].
    assert (Himax : INT_MAX = 2147483647) by done.
    assert (2147483648 ≤ 2 ^ bits).
    { change 2147483648 with (2 ^ 31). by apply Z.pow_le_mono_r. }
    lia. }
  rewrite Hwy. rewrite (decide_False (P := y = 0)) by lia.
  destruct (decide (P > size_max bits `div` y)); [done|].
  apply IH; [done..|].
  destruct (decide (p = j)) as [-> | Hne]; [|lia].
  rewrite Hj in Hy. injection Hy as ->. lia.
Qed.

Lemma pow_62_le bits : 62 ≤ bits → 4611686018427387904 ≤ 2 ^ bits.
Proof.
  intros Hb. change 4611686018427387904 with (2 ^ 62). by apply Z.pow_le_mono_r.
Qed.

(** The loop at a width of at least 62 bits. *)
Lemma sizes_loop_run_on bits (s : St) a arr seg : ∀ p M P,
  62 ≤ bits →
  ints (world_of s) !! a = Some arr →
  (∀ i x, seg !! i = Some x → arr !! (p + i)%nat = Some x) →
  Forall (λ x, x ≤ INT_MAX) seg →
  0 ≤ M → M + Z.of_nat (length seg) * INT_MAX < 2 ^ 62 →
  0 ≤ P ≤ size_max bits →
  sizes_loop bits a (length seg) p M P s =
    Done (if decide (Forall (λ x, 0 < x) seg ∧ P * profile_count seg ≤ size_max bits)
          then Some (M + total_actions seg, P * profile_count seg)
          else None) s.
Proof.
  induction seg as [|x seg IH]; intros p M P Hb Ha Hseg Hty HM HMb HP.
  - simpl. rewrite decide_True; [|split; [constructor | lia]].
    by rewrite Z.add_0_r, Z.mul_1_r.
  - cbn [sizes_loop length]. unfold mbind, prog_bind, bind.
    rewrite (load_int_run s a arr p x Ha); [|by rewrite <-(Hseg 0%nat x), Nat.add_0_r].
    apply Forall_cons in Hty as [Hx Hty].
    pose proof (pow_62_le bits Hb) as Hpow.
    assert (Himax : INT_MAX = 2147483647) by done.
    assert (Hpow62 : 2 ^ 62 = 4611686018427387904) by done.
    rewrite length_cons, Nat2Z.inj_succ in HMb.
    destruct (decide (x ≤ 0)) as [Hneg | Hpos].
    { unfold mret, prog_ret, ret. rewrite decide_False; [done|].
      intros [Hall _]. apply Forall_cons in Hall as [? _]. lia. }
    assert (Hwx : size_wrap bits x = x).
    { apply size_wrap_small. lia. }
    rewrite !Hwx. rewrite (decide_False (P := x = 0)) by lia.
    assert (Hdiv : P > size_max bits `div` x ↔ size_max bits < P * x).
    { pose proof (Z.div_mod (size_max bits) x ltac:(lia)) as Hdm.
      pose proof (Z.mod_pos_bound (size_max bits) x ltac:(lia)) as Hmb.
      split; intros Hgt; nia. }
    destruct (decide (P > size_max bits `div` x)) as [Hov | Hok].
    { unfold mret, prog_ret, ret. rewrite decide_False; [done|].
      intros [Hall Hle]. apply Forall_cons in Hall as [_ Hall].
      apply profile_count_pos in Hall. apply Hdiv in Hov. simpl in Hle. nia. }
    assert (HPx : P * x ≤ size_max bits) by (rewrite Hdiv in Hok; lia).
    rewrite (size_wrap_small _ (M + x)), (size_wrap_small _ (P * x));
      [|unfold size_max in *; nia..].
    rewrite IH; [|done|done| |done|lia|lia|nia].
    + simpl. f_equal. rewrite Z.add_assoc, !Z.mul_assoc.
      apply decide_ext. rewrite Forall_cons. intuition lia.
    + intros i y Hi. replace (S p + i)%nat with (p + S i)%nat by lia.
      by apply Hseg.
Qed.

End Widths.

(** X1: on a call whose arguments have the types of the interface ([int]s, an
    array of at least [num_players] of them), the validator built for a
    [size_t] of at least 62 bits accepts exactly the games with
    [num_players > 0], positive counts and M, P and N * P within [INT_MAX]:
    no valid game is turned down, and the answer does not depend on the
    width. *)
Theorem compute_sizes_accepts_exactly_valid bits (w : world) N a arr :
  62 ≤ bits →
  ints w !! a = Some arr →
  is_int N → (Z.to_nat N ≤ length arr)%nat → Forall is_int arr →
  let acts := take (Z.to_nat N) arr in
  (0 < N ∧ valid_game N acts →
   compute_sizes_on bits N (Some a) w
     = Done (Some (MkSizes N (total_actions acts) (profile_count acts)
                     (N * profile_count acts))) w) ∧
  (¬ (0 < N ∧ valid_game N acts) → compute_sizes_on bits N (Some a) w = Done None w).
Proof.
  intros Hb Ha [_ HN] Hlen Hty acts.
  cut (compute_sizes_on bits N (Some a) w =
         Done (if decide (0 < N ∧ valid_game N acts)
               then Some (MkSizes N (total_actions acts) (profile_count acts)
                            (N * profile_count acts))
               else None) w).
  { intros ->. split; intros Hv; [by rewrite decide_True | by rewrite decide_False]. }
  unfold compute_sizes_on.
  destruct (decide (N ≤ 0)) as [Hle | Hpos].
  { rewrite decide_False by lia. done. }
  assert (Hseg : length acts = Z.to_nat N) by (by apply length_take_le).
  assert (Hmax : INT_MAX = 2147483647) by done.
  assert (Hpow62 : 2 ^ 62 = 4611686018427387904) by done.
  pose proof (pow_62_le bits Hb) as Hpow.
  unfold mbind, prog_bind, bind. rewrite <-Hseg.
  rewrite (sizes_loop_run_on (H := world_machine) bits w a arr acts 0 0 1 Hb Ha).
  - rewrite Z.mul_1_l, Z.add_0_l.
    rewrite !(size_wrap_small _ INT_MAX), (size_wrap_small _ N) by lia.
    unfold valid_game.
    destruct (decide (Forall (λ x, 0 < x) acts ∧ profile_count acts ≤ size_max bits))
      as [[Hall HP] | Hno].
    + pose proof (profile_count_pos _ Hall). pose proof (total_actions_nonneg _ Hall).
      destruct (decide (total_actions acts > INT_MAX)).
      { rewrite decide_False; [done | lia]. }
      destruct (decide (profile_count acts > INT_MAX)).
      { rewrite decide_False; [done | lia]. }
      rewrite (size_wrap_small _ (N * _)) by nia.
      destruct (decide (N * profile_count acts > INT_MAX)).
      { rewrite decide_False; [done | lia]. }
      rewrite decide_True; [done|]. repeat split; try done; lia.
    + rewrite decide_False; [done|]. intros (_ & Hall & _ & HP & _).
      apply Hno. split; [done|]. unfold size_max. lia.
  - intros i x Hi. simpl. unfold acts in Hi. by apply lookup_take_Some in Hi as [? _].
  - apply Forall_take. eapply Forall_impl; [exact Hty|]. intros x [_ ?]. done.
  - done.
  - rewrite Hseg. rewrite Z2Nat.id by lia. nia.
  - unfold size_max. lia.
Qed.

(** X2: a count that is not positive among the first [num_players] makes the
    validator answer [false] without reading the array beyond that count (the
    array may end there), whatever the other [int]s in it are, at any width
    of [size_t] of at least 31 bits. *)
Theorem compute_sizes_stops_at_nonpositive bits (w : world) N a arr j x :
  31 ≤ bits → Forall is_int arr →
  ints w !! a = Some arr → arr !! j = Some x → x ≤ 0 → (j < Z.to_nat N)%nat →
  compute_sizes_on bits N (Some a) w = Done None w.
Proof.
  intros Hb Hty Ha Hj Hx HjN. unfold compute_sizes_on.
  destruct (decide (N ≤ 0)); [done|].
  unfold mbind, prog_bind, bind.
  rewrite (sizes_loop_nonpositive (H := world_machine) bits w a arr j x); [done..|lia].
Qed.

(** ** The narrowing casts of [compute_sizes] *)

(** X14: the sizes that the validator stores, at any width of [size_t] of
    at least 31 bits and for any arguments, are the number of players,
    which is positive, and three values between 0 and [INT_MAX]: none of the
    casts from [size_t] to [int] changes a value. *)
Theorem accepted_sizes_fit_int bits (w w' : world) N actions sz :
  31 ≤ bits →
  compute_sizes_on bits N actions w = Done (Some sz) w' →
  sz_N sz = N ∧ 0 < N ∧
  0 ≤ sz_M sz ≤ INT_MAX ∧ 0 ≤ sz_P sz ≤ INT_MAX ∧ 0 ≤ sz_payoff_len sz ≤ INT_MAX.
Proof.
  intros Hb. unfold compute_sizes_on.
  destruct actions as [a|]; [|done].
  destruct (decide (N ≤ 0)); [done|].
  unfold mbind, prog_bind, bind.
  destruct (sizes_loop bits a (Z.to_nat N) 0 0 1 w) as [[[M P]|] w1|e w1|] eqn:Hloop;
    [|done..].
  apply sizes_loop_nonneg in Hloop as [HM HP]; [|lia..]. simpl in HM, HP.
  assert (Himax : INT_MAX = 2147483647) by done.
  assert (Hpow : 2147483648 ≤ 2 ^ bits).
  { change 2147483648 with (2 ^ 31). by apply Z.pow_le_mono_r. }
  rewrite !(size_wrap_small _ INT_MAX) by lia.
  destruct (decide (M > INT_MAX)); [done|].
  destruct (decide (P > INT_MAX)); [done|].
  destruct (decide (size_wrap bits (size_wrap bits N * P) > INT_MAX)); [done|].
  intros [= <- _]. simpl.
  pose proof (Z.mod_pos_bound (size_wrap bits N * P) (2 ^ bits) ltac:(lia)).
  unfold size_wrap in *. split_and!; lia.
Qed.

(** ** [ipa], path by path *)

(** The first [k] allocation requests of a call are granted. *)
Definition granted (w : world) (k : nat) : Prop :=
  ∀ i, (i < k)%nat → oom w (i + allocs w)%nat = false.

Ltac granted_tac :=
  let i := fresh "i" in
  let Hi := fresh "Hi" in
  intros i Hi; wsimpl;
  repeat (destruct i as [|i]; [simpl; assumption|]); lia.

(** Enough for the [try] block of [ipa] to stay within its buffers: the
    caller's arrays have the sizes of the interface, and [IPA] leaves at
    least [M] entries in its work and answer vectors. *)
Definition ipa_safe (sz : GameSizes) (actions payoffs g zh ans : loc) (alpha fuzz : double)
    (w : world) : Prop :=
  let n := doubles_in (nbytes (sz_M sz)) in
  ∃ arr ps gs xs ys,
    ints w !! actions = Some arr ∧ (Z.to_nat (sz_N sz) ≤ length arr)%nat ∧
    mem w !! payoffs = Some ps ∧
    (doubles_in (nbytes (sz_payoff_len sz)) ≤ length ps)%nat ∧
    mem w !! g = Some gs ∧ (n ≤ length gs)%nat ∧
    mem w !! zh = Some xs ∧ (n ≤ length xs)%nat ∧
    mem w !! ans = Some ys ∧ (n ≤ length ys)%nat ∧
    ∀ r gv zv av,
      IPA (NFGame (sz_N sz) (take (Z.to_nat (sz_N sz)) arr)
             (take (doubles_in (nbytes (sz_payoff_len sz))) ps))
          (take n gs) (take n xs) alpha fuzz (junk (Z.to_nat (sz_M sz)))
        = IPA_returns r gv zv av →
      (n ≤ length zv)%nat ∧ (n ≤ length av)%nat.

(** The game that the [try] block builds from the caller's arrays. *)
Definition adapter_of (sz : GameSizes) (actions payoffs : loc) (w : world)
    (acts : list Z) (ps : cvector) : Prop :=
  (∀ arr, ints w !! actions = Some arr → acts = take (Z.to_nat (sz_N sz)) arr) ∧
  mem w !! payoffs = Some ps.

(** The world in which the [try] block of [ipa] returns [r]. *)
Definition ipa_returns_in (sz : GameSizes) (actions payoffs g zh : loc) (alpha fuzz : double)
    (ans : loc) (w : world) (r : Z) (w' : world) : Prop :=
  let n := doubles_in (nbytes (sz_M sz)) in
  let np := doubles_in (nbytes (sz_payoff_len sz)) in
  same_frame w w' ∧ allocs w' = (6 + allocs w)%nat ∧ granted w 6 ∧
  ∃ acts ps gs xs ys gv zv av,
    adapter_of sz actions payoffs w acts ps ∧
    mem w !! g = Some gs ∧ mem w !! zh = Some xs ∧ (n ≤ length xs)%nat ∧
    nfgame_ctor (sz_N sz) acts (take np ps) = None ∧
    IPA (NFGame (sz_N sz) acts (take np ps)) (take n gs) (take n xs) alpha fuzz
        (junk (Z.to_nat (sz_M sz)))
      = IPA_returns r gv zv av ∧
    trace w' = trace w ++ [Ev_IPA (IPA_returns r gv zv av)] ∧
    (n ≤ length zv)%nat ∧ (n ≤ length av)%nat ∧
    <[zh := overwrite n zv xs]> (mem w) !! ans = Some ys ∧ (n ≤ length ys)%nat ∧
    mem w' = <[ans := overwrite n av ys]> (<[zh := overwrite n zv xs]> (mem w)).

(** The world in which the [try] block of [ipa] throws [e], with what
    threw. *)
Definition ipa_throws_in (sz : GameSizes) (actions payoffs g zh : loc) (alpha fuzz : double)
    (w : world) (e : exn) (w' : world) : Prop :=
  let n := doubles_in (nbytes (sz_M sz)) in
  let np := doubles_in (nbytes (sz_payoff_len sz)) in
  same_frame w w' ∧ mem w' = mem w ∧ (allocs w < allocs w' ≤ 6 + allocs w)%nat ∧
  ((* a request before the game is constructed is refused *)
   (e = bad_alloc ∧ trace w' = trace w ∧
    ∃ i, (i < 3)%nat ∧ granted w i ∧ oom w (i + allocs w)%nat = true) ∨
   (* the constructor of the game throws *)
   (trace w' = trace w ∧ granted w 3 ∧
    ∃ acts ps, adapter_of sz actions payoffs w acts ps ∧
               nfgame_ctor (sz_N sz) acts (take np ps) = Some e) ∨
   (* a request after the game is constructed is refused *)
   (e = bad_alloc ∧ trace w' = trace w ∧
    (∃ i, (3 ≤ i < 6)%nat ∧ granted w i ∧ oom w (i + allocs w)%nat = true) ∧
    ∃ acts ps, adapter_of sz actions payoffs w acts ps ∧
               nfgame_ctor (sz_N sz) acts (take np ps) = None) ∨
   (* IPA throws *)
   (granted w 6 ∧
    ∃ acts ps gs xs,
      adapter_of sz actions payoffs w acts ps ∧
      mem w !! g = Some gs ∧ mem w !! zh = Some xs ∧
      nfgame_ctor (sz_N sz) acts (take np ps) = None ∧
      IPA (NFGame (sz_N sz) acts (take np ps)) (take n gs) (take n xs) alpha fuzz
          (junk (Z.to_nat (sz_M sz)))
        = IPA_throws e ∧
      trace w' = trace w ++ [Ev_IPA (IPA_throws e)])).

Lemma wpg_write_doubles_any F dst off v bytes (s : world) (Q : unit → world → Prop) E :
  (F ∨ ∃ xs, mem s !! dst = Some xs ∧
             (doubles_in bytes ≤ length v)%nat ∧ (off + doubles_in bytes ≤ length xs)%nat) →
  (∀ xs, mem s !! dst = Some xs →
         (doubles_in bytes ≤ length v)%nat → (off + doubles_in bytes ≤ length xs)%nat →
         Q tt (set_mem <[dst := write_row off (doubles_in bytes) v xs]> s)) →
  wpg F (write_doubles dst off v bytes) s Q E.
Proof.
  intros HF HQ. unfold wpg, write_doubles, on_world. cbn [world_of with_world world_machine].
  destruct (mem s !! dst) as [xs|] eqn:Hdst.
  - cbv zeta. case_decide as Hn.
    + destruct Hn. by apply HQ.
    + destruct HF as [HF | (xs' & [= <-] & ? & ?)]; [done|]. by destruct Hn.
  - destruct HF as [HF | (xs' & [=] & _)]; done.
Qed.

Lemma ipa_body_run F sz actions payoffs g zh alpha fuzz ans (w : world) :
  (F ∨ ipa_safe sz actions payoffs g zh ans alpha fuzz w) →
  wpg F (ipa_body sz actions payoffs g zh alpha fuzz ans) w
    (ipa_returns_in sz actions payoffs g zh alpha fuzz ans w)
    (ipa_throws_in sz actions payoffs g zh alpha fuzz w).
Proof.
  intros HF. unfold ipa_body. cbv zeta.
  apply wpg_with_local; [intros Hoom0 | intros Hoom0 l0 Hl0].
  { unfold ipa_throws_in. split; [frame_done|]. wsimpl. split_and!; [done | lia | lia |].
    left. split_and!; try done. exists 0%nat. split_and!; [lia | granted_tac | done]. }
  wsimpl. apply wpg_bind, wpg_copy_ints.
  { destruct HF as [HF | (arr & ps & gs & xs & ys & Ha & Hlen & _)]; [by left | right].
    by exists arr. }
  intros acts _ Hacts. wsimpl.
  apply wpg_with_local; [intros Hoom1 | intros Hoom1 l1 Hl1].
  { unfold ipa_throws_in. split; [frame_done|]. wsimpl. split_and!; [done | lia | lia |].
    left. split_and!; try done. exists 1%nat. split_and!; [lia | granted_tac | done]. }
  wsimpl. apply wpg_bind, wpg_read_doubles.
  { destruct HF as [HF | (arr & ps & gs & xs & ys & _ & _ & Hp & Hlen & _)]; [by left | right].
    by exists ps. }
  intros ps Hps Hpsn. wsimpl.
  apply wpg_with_local; [intros Hoom2 | intros Hoom2 l2 Hl2].
  { unfold ipa_throws_in. split; [frame_done|]. wsimpl. split_and!; [done | lia | lia |].
    left. split_and!; try done. exists 2%nat. split_and!; [lia | granted_tac | done]. }
  wsimpl.
  assert (Had : adapter_of sz actions payoffs w acts ps) by done.
  apply wpg_bind, wpg_construct_nfgame; [intros Hctor | intros e Hctor].
  2:{ unfold ipa_throws_in. split; [frame_done|]. wsimpl. split_and!; [done | lia | lia |].
      right. left. split_and!; [done | granted_tac |]. by exists acts, ps. }
  wsimpl.
  apply wpg_with_local; [intros Hoom3 | intros Hoom3 l3 Hl3].
  { unfold ipa_throws_in. split; [frame_done|]. wsimpl. split_and!; [done | lia | lia |].
    do 2 right. left. split_and!; try done; [|by exists acts, ps].
    exists 3%nat. split_and!; [lia | lia | granted_tac | done]. }
  wsimpl. apply wpg_bind, wpg_read_doubles.
  { destruct HF as [HF | (arr & ps' & gs & xs & ys & _ & _ & _ & _ & Hg & Hlen & _)];
      [by left | right]. by exists gs. }
  intros gs Hgs Hgsn. wsimpl.
  apply wpg_with_local; [intros Hoom4 | intros Hoom4 l4 Hl4].
  { unfold ipa_throws_in. split; [frame_done|]. wsimpl. split_and!; [done | lia | lia |].
    do 2 right. left. split_and!; try done; [|by exists acts, ps].
    exists 4%nat. split_and!; [lia | lia | granted_tac | done]. }
  wsimpl. apply wpg_bind, wpg_read_doubles.
  { destruct HF as [HF | (arr & ps' & gs' & xs & ys & _ & _ & _ & _ & _ & _ & Hz & Hlen & _)];
      [by left | right]. by exists xs. }
  intros xs Hxs Hxsn. wsimpl.
  apply wpg_with_local; [intros Hoom5 | intros Hoom5 l5 Hl5].
  { unfold ipa_throws_in. split; [frame_done|]. wsimpl. split_and!; [done | lia | lia |].
    do 2 right. left. split_and!; try done; [|by exists acts, ps].
    exists 5%nat. split_and!; [lia | lia | granted_tac | done]. }
  wsimpl. apply wpg_bind, wpg_call_IPA; [intros r gv zv av HIPA | intros e HIPA].
  2:{ rewrite HIPA. unfold ipa_throws_in. split; [frame_done|]. wsimpl.
      split_and!; [done | lia | lia |].
      do 3 right. split; [granted_tac|]. by exists acts, ps, gs, xs. }
  wsimpl.
  assert (Hlens : F ∨ (doubles_in (nbytes (sz_M sz)) ≤ length zv)%nat ∧
                      (doubles_in (nbytes (sz_M sz)) ≤ length av)%nat ∧
                      ∃ ys, mem w !! ans = Some ys ∧
                            (doubles_in (nbytes (sz_M sz)) ≤ length ys)%nat).
  { destruct HF as [HF | (arr & ps' & gs' & xs' & ys & Ha & _ & Hp & _ & Hg & _ & Hz & _ &
                          Hq & Hqn & Hsolver)]; [by left | right].
    simplify_eq. rewrite (Hacts arr Ha) in HIPA.
    destruct (Hsolver _ _ _ _ HIPA). split_and!; [done..|]. by exists ys. }
  apply wpg_bind, wpg_write_doubles_any.
  { destruct Hlens as [HF' | (Hzv & _)]; [by left | right]. exists xs. by split_and!. }
  intros xs0 Hxs0 Hzv _. wsimpl. simplify_eq.
  apply wpg_bind, wpg_write_doubles_any.
  { destruct Hlens as [HF' | (_ & Hav & ys & Hys & Hysn)]; [by left | right]. wsimpl.
    destruct (decide (zh = ans)) as [-> | Hne].
    - rewrite lookup_insert_eq. eexists. split; [done|]. split; [done|].
      unfold write_row. rewrite !length_app, !length_take, length_drop. simplify_eq. lia.
    - rewrite lookup_insert_ne by done. exists ys. by split_and!. }
  intros ys Hys Hav Hysn. wsimpl.
  apply wpg_ret. rewrite HIPA. unfold ipa_returns_in. split; [frame_done|].
  wsimpl. split_and!; [done | granted_tac |].
  exists acts, ps, gs, xs, ys, gv, zv, av. by split_and!.
Qed.

(** Every way in which a call of [ipa] returns. *)
Lemma ipa_paths num_players actions payoffs g zh alpha fuzz ans (w w' : world) r :
  ipa num_players actions payoffs g zh alpha fuzz ans w = Done r w' →
  (r = -1 ∧ w' = w) ∨
  ∃ a p g' z q sz,
    actions = Some a ∧ payoffs = Some p ∧ g = Some g' ∧ zh = Some z ∧ ans = Some q ∧
    compute_sizes num_players actions w = Done (Some sz) w ∧
    (ipa_returns_in sz a p g' z alpha fuzz q w r w' ∨
     ∃ e, r = exn_code e ∧ ipa_throws_in sz a p g' z alpha fuzz w e w').
Proof.
  unfold ipa.
  destruct actions as [a|]; [|intros [= <- <-]; by left].
  destruct payoffs as [p|]; [|intros [= <- <-]; by left].
  destruct g as [g'|]; [|intros [= <- <-]; by left].
  destruct zh as [z|]; [|intros [= <- <-]; by left].
  destruct ans as [q|]; [|intros [= <- <-]; by left].
  unfold mbind, prog_bind, bind.
  pose proof (compute_sizes_pure num_players (Some a) w) as Hpure.
  destruct (compute_sizes num_players (Some a) w) as [[sz|] w0|e w0|] eqn:Hcs;
    [subst w0.. | done | done].
  2:{ intros [= <- <-]. by left. }
  pose proof (ipa_body_run True sz a p g' z alpha fuzz q w (or_introl I)) as Hbody.
  unfold wpg in Hbody. unfold try_catch.
  destruct (ipa_body sz a p g' z alpha fuzz q w) as [r0 w1|e w1|]; [| |done].
  - intros [= <- <-]. right. exists a, p, g', z, q, sz. split_and!; try done. by left.
  - intros Hh. right. exists a, p, g', z, q, sz. split_and!; try done.
    right. exists e. by destruct e; injection Hh as <- <-.
Qed.

(** X3: whenever [ipa] returns, with whatever code, it has released every
    object it had allocated (the heap is as before, after at most six
    requests), it has written no pointer cell, and it has called [IPA] at
    most once. *)
Theorem ipa_leaves_no_allocation num_players actions payoffs g zh alpha fuzz ans
    (w w' : world) r :
  ipa num_players actions payoffs g zh alpha fuzz ans w = Done r w' →
  heap w' = heap w ∧ cells w' = cells w ∧
  (allocs w ≤ allocs w' ≤ 6 + allocs w)%nat ∧
  (trace w' = trace w ∨ ∃ res, trace w' = trace w ++ [Ev_IPA res]).
Proof.
  intros [(_ & ->) | (a & p & g' & z & q & sz & _ & _ & _ & _ & _ & _ & Hpath)]%ipa_paths.
  { split_and!; [done | done | lia | lia | by left]. }
  destruct Hpath as [((_ & Hc & _ & Hh) & Ha & _ & Hrest) |
                     (e & _ & (_ & Hc & _ & Hh) & _ & Ha & Hcause)].
  - destruct Hrest as (? & ? & ? & ? & ? & ? & ? & ? & _ & _ & _ & _ & _ & _ & Htr & _).
    split_and!; [done | done | lia | lia | right; by eexists].
  - split_and!; [done | done | lia | lia |].
    destruct Hcause as [(_ & Htr & _) | [(Htr & _) | [(_ & Htr & _) |
      (_ & ? & ? & ? & ? & _ & _ & _ & _ & _ & Htr)]]]; [by left.. | right; by eexists].
Qed.

Lemma length_overwrite n (v xs : cvector) :
  (n ≤ length v)%nat → (n ≤ length xs)%nat → length (overwrite n v xs) = length xs.
Proof.
  intros Hv Hxs. unfold overwrite. rewrite length_app, length_take, length_drop. lia.
Qed.

Lemma drop_overwrite n (v xs : cvector) :
  (n ≤ length v)%nat → drop n (overwrite n v xs) = drop n xs.
Proof.
  intros Hv. unfold overwrite. apply drop_app_length'. rewrite length_take. lia.
Qed.

Lemma take_overwrite n (v xs : cvector) :
  (n ≤ length v)%nat → take n (overwrite n v xs) = take n v.
Proof.
  intros Hv. unfold overwrite. apply take_app_length'. rewrite length_take. lia.
Qed.

(** The sizes of an accepted game of well-typed arguments. *)
Lemma accepted_sizes (w : world) N a arr sz :
  ints w !! a = Some arr →
  is_int N → (Z.to_nat N ≤ length arr)%nat → Forall is_int arr →
  compute_sizes N (Some a) w = Done (Some sz) w →
  let acts := take (Z.to_nat N) arr in
  0 < N ∧ valid_game N acts ∧
  sz = MkSizes N (total_actions acts) (profile_count acts) (N * profile_count acts) ∧
  doubles_in (nbytes (sz_M sz)) = Z.to_nat (total_actions acts) ∧
  doubles_in (nbytes (sz_payoff_len sz)) = Z.to_nat (N * profile_count acts).
Proof.
  intros Ha HN Hlen Hty Hcs acts.
  rewrite (compute_sizes_world w N a arr Ha HN Hlen Hty) in Hcs. cbv zeta in Hcs.
  fold acts in Hcs. case_decide as Hv; [|done].
  injection Hcs as <-. destruct Hv as (Hpos & Hall & HM & HP & HNP).
  pose proof (profile_count_pos _ Hall). pose proof (total_actions_nonneg _ Hall).
  split_and!; try done; apply doubles_in_nbytes; simpl; [lia | nia].
Qed.

(** X4: [ipa] writes only within the first M entries of a buffer, M being
    the sum of the action counts: whenever it returns, every double array
    has the length it had, and its entries from index M on are as before. *)
Theorem ipa_writes_first_M_only num_players a payoffs g zh alpha fuzz ans (w w' : world)
    arr r :
  ints w !! a = Some arr →
  is_int num_players → (Z.to_nat num_players ≤ length arr)%nat → Forall is_int arr →
  ipa num_players (Some a) payoffs g zh alpha fuzz ans w = Done r w' →
  let m := Z.to_nat (total_actions (take (Z.to_nat num_players) arr)) in
  ∀ l, length <$> mem w' !! l = length <$> mem w !! l ∧
       drop m <$> mem w' !! l = drop m <$> mem w !! l.
Proof.
  intros Ha HN Hlen Hty Hrun m l.
  apply ipa_paths in Hrun
    as [(_ & ->) | (a' & p & g' & z & q & sz & [= <-] & _ & _ & _ & _ & Hcs & Hpath)];
    [done|].
  destruct (accepted_sizes w num_players a arr sz Ha HN Hlen Hty Hcs)
    as (_ & _ & _ & Hn & _).
  destruct Hpath as [(_ & _ & _ & Hrest) | (e & _ & _ & -> & _)]; [|done].
  destruct Hrest as (acts & ps & gs & xs & ys & gv & zv & av & _ & _ & Hxs & Hxsn & _ & _
                     & _ & Hzv & Hav & Hys & Hysn & ->).
  cbv zeta in *. rewrite Hn in *. fold m in Hxsn, Hzv, Hav, Hys, Hysn |- *.
  assert (Hmid : length <$> <[z := overwrite m zv xs]> (mem w) !! l = length <$> mem w !! l ∧
                 drop m <$> <[z := overwrite m zv xs]> (mem w) !! l = drop m <$> mem w !! l).
  { destruct (decide (l = z)) as [-> | Hne]; [|by rewrite lookup_insert_ne].
    rewrite lookup_insert_eq, Hxs. simpl.
    by rewrite length_overwrite, drop_overwrite. }
  destruct (decide (l = q)) as [-> | Hne]; [|by rewrite lookup_insert_ne].
  destruct Hmid as [Hmlen Hmdrop]. rewrite <-Hmlen, <-Hmdrop, Hys, lookup_insert_eq. simpl.
  by rewrite length_overwrite, drop_overwrite.
Qed.

(** From the sizes of the interface to [ipa_safe]. *)
Lemma ipa_safe_intro (w : world) N a p g z q alpha fuzz arr ps gs xs ys :
  let acts := take (Z.to_nat N) arr in
  let M := total_actions acts in
  let P := profile_count acts in
  let m := Z.to_nat M in
  0 < N → valid_game N acts →
  ints w !! a = Some arr → (Z.to_nat N ≤ length arr)%nat →
  mem w !! p = Some ps → (Z.to_nat (N * P) ≤ length ps)%nat →
  mem w !! g = Some gs → (m ≤ length gs)%nat →
  mem w !! z = Some xs → (m ≤ length xs)%nat →
  mem w !! q = Some ys → (m ≤ length ys)%nat →
  (∀ r gv zv av,
     IPA (NFGame N acts (take (Z.to_nat (N * P)) ps)) (take m gs) (take m xs) alpha fuzz
         (junk m) = IPA_returns r gv zv av →
     (m ≤ length zv)%nat ∧ (m ≤ length av)%nat) →
  let sz := MkSizes N M P (N * P) in
  doubles_in (nbytes (sz_M sz)) = m ∧
  doubles_in (nbytes (sz_payoff_len sz)) = Z.to_nat (N * P) ∧
  ipa_safe sz a p g z q alpha fuzz w.
Proof.
  intros acts M P m Hpos (Hall & HM & HP & HNP) Ha Hlen Hp Hplen Hg Hglen Hz Hzlen Hq Hqlen
    Hsolver sz.
  pose proof (profile_count_pos _ Hall). pose proof (total_actions_nonneg _ Hall).
  assert (Hn : doubles_in (nbytes (sz_M sz)) = m) by (apply doubles_in_nbytes; simpl; lia).
  assert (Hnp : doubles_in (nbytes (sz_payoff_len sz)) = Z.to_nat (N * P))
    by (apply doubles_in_nbytes; simpl; nia).
  split_and!; [done | done |].
  exists arr, ps, gs, xs, ys. cbv zeta. rewrite Hn, Hnp. by split_and!.
Qed.

(** A call of [ipa] on an accepted game, path by path, in the terms of the
    interface. *)
Lemma ipa_run F (w : world) N a p g z q alpha fuzz arr :
  let acts := take (Z.to_nat N) arr in
  let sz := MkSizes N (total_actions acts) (profile_count acts) (N * profile_count acts) in
  ints w !! a = Some arr →
  is_int N → (Z.to_nat N ≤ length arr)%nat → Forall is_int arr →
  0 < N → valid_game N acts →
  (F ∨ ipa_safe sz a p g z q alpha fuzz w) →
  wpg F (ipa N (Some a) (Some p) (Some g) (Some z) alpha fuzz (Some q)) w
    (λ r w', ipa_returns_in sz a p g z alpha fuzz q w r w' ∨
             ∃ e, r = exn_code e ∧ ipa_throws_in sz a p g z alpha fuzz w e w')
    (λ _ _, False).
Proof.
  intros acts sz Ha HN Hlen Hty Hpos Hvalid HF.
  unfold wpg, ipa, mbind, prog_bind, bind.
  rewrite (compute_sizes_world w N a arr Ha HN Hlen Hty). cbv zeta. fold acts.
  rewrite decide_True by done. fold sz.
  pose proof (ipa_body_run F sz a p g z alpha fuzz q w HF) as Hbody.
  unfold wpg in Hbody. unfold try_catch.
  destruct (ipa_body sz a p g z alpha fuzz q w) as [r w1|e w1|]; [by left | | done].
  destruct e; simpl; right; [by exists bad_alloc | by exists other_exn].
Qed.

(** X5: a call of [ipa] on a valid game, with buffers of the sizes of the
    interface, [zh] and [ans] distinct, every allocation granted and the
    game constructed, in which [IPA] returns [r] (of any sign) and leaves at
    least M entries in its two vectors: [ipa] returns [r]; [IPA] was given
    the first N counts, the first N * P payoffs, the first M entries of [g]
    and of [zh], and an answer vector of M entries that were never
    written; the first M entries of [zh] and [ans] are now those of the
    solver's work and answer vectors and their other entries are as before;
    no other array has changed and no allocation is left. *)
Theorem ipa_copies_solver_vectors_back (w : world) N a p g z q alpha fuzz arr ps gs xs ys
    r gv zv av :
  let acts := take (Z.to_nat N) arr in
  let M := total_actions acts in
  let P := profile_count acts in
  let m := Z.to_nat M in
  let res := IPA (NFGame N acts (take (Z.to_nat (N * P)) ps)) (take m gs) (take m xs)
               alpha fuzz (junk m) in
  is_int N → 0 < N →
  ints w !! a = Some arr → (Z.to_nat N ≤ length arr)%nat → Forall is_int arr →
  valid_game N acts →
  mem w !! p = Some ps → (Z.to_nat (N * P) ≤ length ps)%nat →
  mem w !! g = Some gs → (m ≤ length gs)%nat →
  mem w !! z = Some xs → (m ≤ length xs)%nat →
  mem w !! q = Some ys → (m ≤ length ys)%nat →
  z ≠ q →
  granted w 6 →
  nfgame_ctor N acts (take (Z.to_nat (N * P)) ps) = None →
  res = IPA_returns r gv zv av → (m ≤ length zv)%nat → (m ≤ length av)%nat →
  ∃ w',
    ipa N (Some a) (Some p) (Some g) (Some z) alpha fuzz (Some q) w = Done r w' ∧
    mem w' !! z = Some (take m zv ++ drop m xs) ∧
    mem w' !! q = Some (take m av ++ drop m ys) ∧
    (∀ l, l ≠ z → l ≠ q → mem w' !! l = mem w !! l) ∧
    ints w' = ints w ∧ cells w' = cells w ∧ heap w' = heap w ∧
    trace w' = trace w ++ [Ev_IPA res].
Proof.
  intros acts M P m res HN Hpos Ha Hlen Hty Hvalid Hp Hplen Hg Hglen Hz Hzlen Hq Hqlen Hzq
    Hoom Hctor Hres Hzv Hav.
  destruct (ipa_safe_intro w N a p g z q alpha fuzz arr ps gs xs ys Hpos Hvalid Ha Hlen Hp
              Hplen Hg Hglen Hz Hzlen Hq Hqlen) as (Hn & Hnp & Hsafe).
  { intros r' gv' zv' av' Hres'. fold acts M P m res in Hres'.
    pose proof (eq_trans (eq_sym Hres) Hres') as Heq. by injection Heq as <- <- <- <-. }
  pose proof (ipa_run False w N a p g z q alpha fuzz arr Ha HN Hlen Hty Hpos Hvalid
                (or_intror Hsafe)) as Hrun.
  unfold wpg in Hrun. fold acts M P in Hrun, Hn, Hnp. cbn [sz_M sz_payoff_len] in Hn, Hnp.
  destruct (ipa N (Some a) (Some p) (Some g) (Some z) alpha fuzz (Some q) w)
    as [r' w'|e w'|]; [|done..].
  destruct Hrun as [((Hints & Hcells & _ & Hheap) & _ & _ & Hrest) | (e & _ & _ & _ & _ & Hc)].
  - destruct Hrest as (acts' & ps' & gs' & xs' & ys' & gv' & zv' & av' & [Hacts Hps'] & Hgs'
                       & Hxs' & _ & _ & HIPA & Htr & _ & _ & Hys' & _ & Hmem).
    cbv zeta in *. cbn [sz_N sz_M sz_payoff_len] in *. rewrite Hn, Hnp in *.
    rewrite (Hacts arr Ha) in *. simplify_eq. fold acts M P m in HIPA, Htr.
    pose proof (eq_trans (eq_sym Hres) HIPA) as Heq. injection Heq as <- <- <- <-.
    rewrite lookup_insert_ne in Hys' by done. simplify_eq.
    exists w'. split_and!; try done.
    + by rewrite Hmem, lookup_insert_ne, lookup_insert_eq.
    + by rewrite Hmem, lookup_insert_eq.
    + intros l ? ?. by rewrite Hmem, !lookup_insert_ne.
    + by rewrite Htr, Hres.
  - exfalso. cbv zeta in Hc. cbn [sz_N sz_M sz_payoff_len] in Hc. rewrite Hn, Hnp in Hc.
    destruct Hc as [(_ & _ & i & Hi & _ & Hrefused) |
      [(_ & _ & acts' & ps' & [Hacts Hps'] & Hthrow) |
       [(_ & _ & (i & Hi & _ & Hrefused) & _) |
        (_ & acts' & ps' & gs' & xs' & [Hacts Hps'] & Hgs' & Hxs' & _ & Hthrow & _)]]].
    + rewrite Hoom in Hrefused by lia. done.
    + rewrite (Hacts arr Ha) in Hthrow. rewrite Hp in Hps'. injection Hps' as <-.
      pose proof (eq_trans (eq_sym Hctor) Hthrow) as Heq. done.
    + rewrite Hoom in Hrefused by lia. done.
    + rewrite (Hacts arr Ha) in Hthrow. rewrite Hp in Hps'. injection Hps' as <-.
      rewrite Hg in Hgs'. injection Hgs' as <-. rewrite Hz in Hxs'. injection Hxs' as <-.
      pose proof (eq_trans (eq_sym Hres) Hthrow) as Heq. done.
Qed.

(** X6: the same call with one buffer passed as both [zh] and [ans]: the
    answer is copied back after the work vector, so the first M entries of
    the buffer are those of the solver's answer vector and the work vector
    is lost. *)
Theorem ipa_zh_and_ans_in_one_buffer (w : world) N a p g z alpha fuzz arr ps gs xs
    r gv zv av :
  let acts := take (Z.to_nat N) arr in
  let M := total_actions acts in
  let P := profile_count acts in
  let m := Z.to_nat M in
  is_int N → 0 < N →
  ints w !! a = Some arr → (Z.to_nat N ≤ length arr)%nat → Forall is_int arr →
  valid_game N acts →
  mem w !! p = Some ps → (Z.to_nat (N * P) ≤ length ps)%nat →
  mem w !! g = Some gs → (m ≤ length gs)%nat →
  mem w !! z = Some xs → (m ≤ length xs)%nat →
  granted w 6 →
  nfgame_ctor N acts (take (Z.to_nat (N * P)) ps) = None →
  IPA (NFGame N acts (take (Z.to_nat (N * P)) ps)) (take m gs) (take m xs) alpha fuzz
      (junk m) = IPA_returns r gv zv av →
  (m ≤ length zv)%nat → (m ≤ length av)%nat →
  ∃ w',
    ipa N (Some a) (Some p) (Some g) (Some z) alpha fuzz (Some z) w = Done r w' ∧
    mem w' !! z = Some (take m av ++ drop m xs) ∧
    (∀ l, l ≠ z → mem w' !! l = mem w !! l).
Proof.
  intros acts M P m HN Hpos Ha Hlen Hty Hvalid Hp Hplen Hg Hglen Hz Hzlen Hoom Hctor Hres
    Hzv Hav.
  destruct (ipa_safe_intro w N a p g z z alpha fuzz arr ps gs xs xs Hpos Hvalid Ha Hlen Hp
              Hplen Hg Hglen Hz Hzlen Hz Hzlen) as (Hn & Hnp & Hsafe).
  { intros r' gv' zv' av' Hres'. fold acts M P m in Hres'.
    pose proof (eq_trans (eq_sym Hres) Hres') as Heq. by injection Heq as <- <- <- <-. }
  pose proof (ipa_run False w N a p g z z alpha fuzz arr Ha HN Hlen Hty Hpos Hvalid
                (or_intror Hsafe)) as Hrun.
  unfold wpg in Hrun. fold acts M P in Hrun, Hn, Hnp. cbn [sz_M sz_payoff_len] in Hn, Hnp.
  destruct (ipa N (Some a) (Some p) (Some g) (Some z) alpha fuzz (Some z) w)
    as [r' w'|e w'|]; [|done..].
  destruct Hrun as [(_ & _ & _ & Hrest) | (e & _ & _ & _ & _ & Hc)].
  - destruct Hrest as (acts' & ps' & gs' & xs' & ys' & gv' & zv' & av' & [Hacts Hps'] & Hgs'
                       & Hxs' & _ & _ & HIPA & _ & _ & _ & Hys' & _ & Hmem).
    cbv zeta in *. cbn [sz_N sz_M sz_payoff_len] in *. rewrite Hn, Hnp in *.
    rewrite (Hacts arr Ha) in *. simplify_eq. fold acts M P m in HIPA.
    pose proof (eq_trans (eq_sym Hres) HIPA) as Heq. injection Heq as <- <- <- <-.
    rewrite lookup_insert_eq in Hys'. injection Hys' as <-.
    exists w'. split_and!; [done | |].
    + rewrite Hmem, lookup_insert_eq. unfold overwrite at 1.
      by rewrite drop_overwrite.
    + intros l ?. by rewrite Hmem, !lookup_insert_ne.
  - exfalso. cbv zeta in Hc. cbn [sz_N sz_M sz_payoff_len] in Hc. rewrite Hn, Hnp in Hc.
    destruct Hc as [(_ & _ & i & Hi & _ & Hrefused) |
      [(_ & _ & acts' & ps' & [Hacts Hps'] & Hthrow) |
       [(_ & _ & (i & Hi & _ & Hrefused) & _) |
        (_ & acts' & ps' & gs' & xs' & [Hacts Hps'] & Hgs' & Hxs' & _ & Hthrow & _)]]].
    + rewrite Hoom in Hrefused by lia. done.
    + rewrite (Hacts arr Ha) in Hthrow. rewrite Hp in Hps'. injection Hps' as <-.
      pose proof (eq_trans (eq_sym Hctor) Hthrow) as Heq. done.
    + rewrite Hoom in Hrefused by lia. done.
    + rewrite (Hacts arr Ha) in Hthrow. rewrite Hp in Hps'. injection Hps' as <-.
      rewrite Hg in Hgs'. injection Hgs' as <-. rewrite Hz in Hxs'. injection Hxs' as <-.
      pose proof (eq_trans (eq_sym Hres) Hthrow) as Heq. done.
Qed.

(** The code that [ipa] returns on an accepted game: -2 when one of its six
    requests is refused first, the code of the exception when the
    constructor or [IPA] throws, and otherwise what [IPA] returns. *)
Definition ipa_code (w : world) (ctor : option exn) (res : ipa_result) : Z :=
  let refused i := oom w (i + allocs w)%nat in
  if refused 0%nat || refused 1%nat || refused 2%nat then -2
  else match ctor with
       | Some e => exn_code e
       | None =>
           if refused 3%nat || refused 4%nat || refused 5%nat then -2
           else match res with
                | IPA_returns r _ _ _ => r
                | IPA_throws e => exn_code e
                end
       end.

(** X7: a call of [ipa] on a valid game with buffers of the sizes of the
    interface always returns, whatever the allocator, the constructor and
    [IPA] do (as long as [IPA] leaves M entries in its vectors when it
    returns): it never runs into undefined behaviour, the code is
    [ipa_code], the heap is as before, and unless [IPA] returned no array
    has been written. *)
Theorem ipa_always_returns (w : world) N a p g z q alpha fuzz arr ps gs xs ys :
  let acts := take (Z.to_nat N) arr in
  let M := total_actions acts in
  let P := profile_count acts in
  let m := Z.to_nat M in
  let ctor := nfgame_ctor N acts (take (Z.to_nat (N * P)) ps) in
  let res := IPA (NFGame N acts (take (Z.to_nat (N * P)) ps)) (take m gs) (take m xs)
               alpha fuzz (junk m) in
  is_int N → 0 < N →
  ints w !! a = Some arr → (Z.to_nat N ≤ length arr)%nat → Forall is_int arr →
  valid_game N acts →
  mem w !! p = Some ps → (Z.to_nat (N * P) ≤ length ps)%nat →
  mem w !! g = Some gs → (m ≤ length gs)%nat →
  mem w !! z = Some xs → (m ≤ length xs)%nat →
  mem w !! q = Some ys → (m ≤ length ys)%nat →
  (∀ r gv zv av, res = IPA_returns r gv zv av → (m ≤ length zv)%nat ∧ (m ≤ length av)%nat) →
  ∃ w',
    ipa N (Some a) (Some p) (Some g) (Some z) alpha fuzz (Some q) w
      = Done (ipa_code w ctor res) w' ∧
    heap w' = heap w ∧
    ((∀ r gv zv av, trace w' ≠ trace w ++ [Ev_IPA (IPA_returns r gv zv av)]) →
     mem w' = mem w).
Proof.
  intros acts M P m ctor res HN Hpos Ha Hlen Hty Hvalid Hp Hplen Hg Hglen Hz Hzlen Hq Hqlen
    Hsolver.
  destruct (ipa_safe_intro w N a p g z q alpha fuzz arr ps gs xs ys Hpos Hvalid Ha Hlen Hp
              Hplen Hg Hglen Hz Hzlen Hq Hqlen Hsolver) as (Hn & Hnp & Hsafe).
  pose proof (ipa_run False w N a p g z q alpha fuzz arr Ha HN Hlen Hty Hpos Hvalid
                (or_intror Hsafe)) as Hrun.
  unfold wpg in Hrun. fold acts M P in Hrun, Hn, Hnp. cbn [sz_M sz_payoff_len] in Hn, Hnp.
  destruct (ipa N (Some a) (Some p) (Some g) (Some z) alpha fuzz (Some q) w)
    as [r' w'|e w'|]; [|done..].
  exists w'. unfold ipa_code. cbv zeta.
  destruct Hrun as [((_ & _ & _ & Hheap) & _ & Hoom & Hrest) |
                    (e & -> & (_ & _ & _ & Hheap) & Hmem & _ & Hc)].
  - destruct Hrest as (acts' & ps' & gs' & xs' & ys' & gv' & zv' & av' & [Hacts Hps'] & Hgs'
                       & Hxs' & _ & Hctor & HIPA & Htr & _).
    cbv zeta in Hctor, HIPA. cbn [sz_N sz_M sz_payoff_len] in Hacts, Hctor, HIPA.
    rewrite Hn, Hnp in HIPA. rewrite Hnp in Hctor.
    rewrite (Hacts arr Ha) in Hctor, HIPA.
    rewrite Hp in Hps'. injection Hps' as <-. rewrite Hg in Hgs'. injection Hgs' as <-.
    rewrite Hz in Hxs'. injection Hxs' as <-.
    assert (Hc1 : ctor = None) by exact Hctor.
    assert (Hr1 : res = IPA_returns r' gv' zv' av') by exact HIPA.
    rewrite Hc1, Hr1, !Hoom by lia. simpl. split_and!; [done | done |].
    intros Hno. by destruct (Hno _ _ _ _ Htr).
  - cbv zeta in Hc. cbn [sz_N sz_M sz_payoff_len] in Hc. rewrite Hn, Hnp in Hc.
    split_and!; [|done|done]. f_equal.
    destruct Hc as [(-> & _ & i & Hi & Hgr & Hrefused) |
      [(_ & Hgr & acts' & ps' & [Hacts Hps'] & Hthrow) |
       [(-> & _ & (i & Hi & Hgr & Hrefused) & acts' & ps' & [Hacts Hps'] & Hctor) |
        (Hgr & acts' & ps' & gs' & xs' & [Hacts Hps'] & Hgs' & Hxs' & Hctor & Hthrow & _)]]].
    + destruct i as [|[|[|i]]]; [| | |lia]; rewrite ?Hgr by lia; rewrite Hrefused;
        by rewrite ?orb_true_r.
    + rewrite (Hacts arr Ha) in Hthrow. rewrite Hp in Hps'. injection Hps' as <-.
      assert (Hc1 : ctor = Some e) by exact Hthrow.
      rewrite Hc1, !Hgr by lia. done.
    + rewrite (Hacts arr Ha) in Hctor. rewrite Hp in Hps'. injection Hps' as <-.
      assert (Hc1 : ctor = None) by exact Hctor. rewrite Hc1.
      destruct i as [|[|[|[|[|[|i]]]]]]; try lia; rewrite ?Hgr by lia; rewrite Hrefused;
        by rewrite ?orb_true_r.
    + rewrite (Hacts arr Ha) in Hctor, Hthrow. rewrite Hp in Hps'. injection Hps' as <-.
      rewrite Hg in Hgs'. injection Hgs' as <-. rewrite Hz in Hxs'. injection Hxs' as <-.
      assert (Hc1 : ctor = None) by exact Hctor.
      assert (Hr1 : res = IPA_throws e) by exact Hthrow.
      rewrite Hc1, Hr1, !Hgr by lia. done.
Qed.

(** ** [cleanup_eq] *)

(** X8: [cleanup_eq(Eq, numEq)] does nothing on a null [Eq]; on an array of
    distinct live handles of which there are at least [numEq] it returns
    after releasing the first [numEq] handles and the array itself, and
    nothing else: the handles beyond [numEq] stay allocated, and a
    [numEq] that is not positive releases the array only. *)
Theorem cleanup_eq_releases_counted_handles (w : world) base hs vs numEq :
  length hs = length vs → NoDup (base :: hs) →
  (∀ l, l ∈ base :: hs → l ∈ heap w ∧ l ∉ dom (mem w)) →
  (Z.to_nat numEq ≤ length hs)%nat →
  cleanup_eq None numEq w = Done tt w ∧
  ∃ w',
    cleanup_eq (Some (EqArray base (zip hs vs))) numEq w = Done tt w' ∧
    heap w' = heap w ∖ list_to_set (base :: take (Z.to_nat numEq) hs) ∧
    (∀ l, l ∈ drop (Z.to_nat numEq) hs → l ∈ heap w') ∧
    mem w' = mem w ∧ ints w' = ints w ∧ cells w' = cells w ∧ trace w' = trace w.
Proof.
  intros Hlen Hnd Hlive Hn. split; [done|].
  pose proof (wpg_cleanup_eq (H := world_machine) False base hs vs numEq w
                (λ _ w', w' = release_all (base :: take (Z.to_nat numEq) hs) w)
                (λ _ _, False) Hlen Hnd Hlive (or_intror Hn) (λ _, eq_refl)) as Hrun.
  unfold wpg in Hrun.
  destruct (cleanup_eq (Some (EqArray base (zip hs vs))) numEq w) as [[] w'|e w'|];
    [|done..].
  exists w'. subst w'. split_and!; try done.
  intros l Hl. unfold release_all. cbn [heap set_heap].
  assert (l ∈ hs) by (by eapply subseteq_drop).
  destruct (Hlive l) as [Hheap _]; [by right|].
  apply NoDup_cons in Hnd as [Hbase Hnd].
  rewrite <-(take_drop (Z.to_nat numEq) hs) in Hnd.
  apply NoDup_app in Hnd as (_ & Hdisj & _).
  assert (l ≠ base) by (by intros ->).
  assert (l ∉ take (Z.to_nat numEq) hs) by (intros Hin; by apply (Hdisj l)).
  set_solver.
Qed.

(** ** [gnm], whatever the collaborators do *)

(** X9: a call of [gnm] on a valid game with arrays of the sizes of the
    interface and a cell behind [answers] always returns, whatever the
    allocator, the constructor and [GNM] do, as long as a positive count k
    from [GNM] comes with at least k handles on vectors of at least M
    entries (k * M doubles fitting the address space): it never runs into
    undefined behaviour.  Either [GNM] was called, once, and the code is
    [gnm_code] of its answer; or a request of the adapter was refused or
    the constructor threw, the code is -2 or -3, and [GNM] was not
    called. *)
Theorem gnm_always_returns (w : world) N a p g c steps fuzz lnmfreq lnmmax lambdamin wobble
    threshold arr ps gs :
  let acts := take (Z.to_nat N) arr in
  let M := total_actions acts in
  let P := profile_count acts in
  let m := Z.to_nat M in
  let ctor := nfgame_ctor N acts (take (Z.to_nat (N * P)) ps) in
  let res := GNM (NFGame N acts (take (Z.to_nat (N * P)) ps)) (take m gs) steps fuzz
               lnmfreq lnmmax lambdamin wobble threshold in
  is_int N → 0 < N →
  ints w !! a = Some arr → (Z.to_nat N ≤ length arr)%nat → Forall is_int arr →
  valid_game N acts →
  mem w !! p = Some ps → (Z.to_nat (N * P) ≤ length ps)%nat →
  mem w !! g = Some gs → (m ≤ length gs)%nat →
  is_Some (cells w !! c) →
  (∀ k g' Eq_,
     res = GNM_returns k g' Eq_ → 0 < k →
     ∃ eqs, Eq_ = Some eqs ∧ (Z.to_nat k ≤ length eqs)%nat ∧
            Forall (λ v, (m ≤ length v)%nat) (take (Z.to_nat k) eqs) ∧
            k * M * sizeof_double ≤ size_max SIZE_BITS) →
  ∃ r w',
    gnm N (Some a) (Some p) (Some g) (Some c) steps fuzz lnmfreq lnmmax lambdamin wobble
        threshold w = Done r w' ∧
    ((r = gnm_code res (negb (oom w (4 + allocs w)%nat)) ∧
      trace w' = trace w ++ [Ev_GNM res]) ∨
     ((¬ granted w 4 ∨ ctor ≠ None) ∧ (r = -2 ∨ r = -3) ∧ trace w' = trace w)).
Proof.
  intros acts M P m ctor res HN Hpos Ha Hlen Hty Hvalid Hp Hplen Hg Hglen Hcell Hsolver.
  destruct Hvalid as (Hall & HM & HP & HNP).
  assert (Himax : INT_MAX = 2147483647) by done.
  assert (Hacts : length acts = Z.to_nat N) by (by apply length_take_le).
  assert (HMpos : 0 < M).
  { apply total_actions_pos; [|done]. intros Hnil. rewrite Hnil in Hacts. simpl in *. lia. }
  assert (HPpos : 1 ≤ P) by (by apply profile_count_pos).
  set (sz := MkSizes N M P (N * P)).
  set (w0 := set_cells <[c := None]> w).
  assert (Hn : doubles_in (nbytes (sz_M sz)) = m)
    by (apply doubles_in_nbytes; simpl; lia).
  assert (Hnp : doubles_in (nbytes (sz_payoff_len sz)) = Z.to_nat (N * P))
    by (apply doubles_in_nbytes; simpl; nia).
  (* the entry of [gnm] *)
  unfold gnm, mbind, prog_bind, bind, store_ptr, on_world.
  cbn [world_of with_world world_machine]. destruct Hcell as [q0 Hq0]. rewrite Hq0.
  fold w0.
  rewrite (compute_sizes_world w0 N a arr Ha HN Hlen Hty). cbv zeta.
  fold acts. fold M P. rewrite decide_True by (by repeat split). fold sz.
  (* the [try] block *)
  assert (Hc0 : cells w0 !! c = Some None) by apply lookup_insert_eq.
  assert (Hsafe : gnm_safe sz a p g steps fuzz lnmfreq lnmmax lambdamin wobble threshold w0).
  { exists arr, ps, gs. rewrite Hn, Hnp. split_and!; try done.
    intros k g' Eq_ Hres Hk.
    destruct (Hsolver k g' Eq_ Hres Hk) as (eqs & -> & Hke & Hrows & Hbytes).
    exists eqs. split_and!; [done | done |].
    assert (Hblk : doubles_in (block_bytes k (sz_M sz)) = Z.to_nat (k * M))
      by (by apply block_bytes_small).
    assert (Hkm : Z.to_nat (k * M) = (Z.to_nat k * m)%nat)
      by (unfold m; rewrite Z2Nat.inj_mul; lia).
    intros i v Hi. rewrite Hn, Hblk, Hkm.
    pose proof (lookup_lt_Some _ _ _ Hi) as Hlt. rewrite length_take in Hlt.
    rewrite Forall_forall in Hrows.
    split; [by eapply Hrows, list_elem_of_lookup_2|].
    cbn [Nat.add sz_M sz]. rewrite row_offset_small; [fold m; nia | lia |].
    unfold sizeof_double in Hbytes. nia. }
  pose proof (gnm_body_spec False sz a p g c steps fuzz lnmfreq lnmmax lambdamin wobble
                threshold w0 Hc0 (or_intror Hsafe)) as Hbody.
  unfold wpg in Hbody. unfold with_frame, try_catch.
  destruct (gnm_body sz a p g c steps fuzz lnmfreq lnmmax lambdamin wobble threshold
              (Frame None 0 None, w0)) as [r s1|e s1|] eqn:Hrun; [| |done].
  - exists r, (snd s1). split; [done|].
    destruct Hbody as (_ & _ & acts' & ps' & gs' & res' & hs & Hps' & Hgs' & Hacts' & Hres
                       & Htr & Hr & _).
    assert (ps' = ps) as -> by (cbn in Hps'; congruence).
    assert (gs' = gs) as -> by (cbn in Hgs'; congruence).
    rewrite (Hacts' arr Ha), Hn, Hnp in Hres.
    assert (res' = res) as -> by exact Hres.
    left. by split.
  - pose proof (gnm_handler_spec False sz a p g c steps fuzz lnmfreq lnmmax lambdamin
                  wobble threshold w0 e s1) as Hh.
    unfold wpg in Hh.
    destruct (gnm_handler c e s1) as [r s2|e' s2|].
    2,3: destruct Hh; [by rewrite Hc0 | done].
    destruct Hh as (-> & _ & _ & _ & _ & Htr & _); [by rewrite Hc0 | done |].
    exists (exn_code e), (snd s2). split; [done|].
    destruct Hbody as (_ & _ & _ & _ & _ & _ & Hcause).
    destruct Hcause as [(-> & (i & Hi & Hrefused) & _ & _ & Htr1) |
      [(acts' & ps' & Hps' & Hacts' & Hthrow & _ & _ & Htr1) |
       (acts' & ps' & gs' & Eq_ & Hps' & Hgs' & Hacts' & Hthrow & Htr1 & _)]].
    + right. split_and!; [| by left | by rewrite Htr, Htr1].
      left. intros Hgr. specialize (Hgr i Hi).
      change (oom w0 (i + allocs w0)%nat) with (oom w (i + allocs w)%nat) in Hrefused.
      by rewrite Hgr in Hrefused.
    + right. assert (ps' = ps) as -> by (cbn in Hps'; congruence).
      rewrite (Hacts' arr Ha), Hnp in Hthrow.
      assert (Hc1 : ctor = Some e) by exact Hthrow.
      split_and!; [| destruct e; auto | by rewrite Htr, Htr1].
      right. by rewrite Hc1.
    + left. assert (ps' = ps) as -> by (cbn in Hps'; congruence).
      assert (gs' = gs) as -> by (cbn in Hgs'; congruence).
      rewrite (Hacts' arr Ha), Hn, Hnp in Hthrow.
      assert (Hr1 : res = GNM_throws e Eq_) by exact Hthrow.
      rewrite Hr1. split; [done | by rewrite Htr, Htr1].
Qed.

(** X10: whenever [gnm] returns, with whatever code, it has written no
    pointer cell other than [*answers], it has released nothing that was
    allocated before the call, and it has called [GNM] at most once. *)
Theorem gnm_touches_only_answers_cell num_players actions payoffs g answers steps fuzz
    lnmfreq lnmmax lambdamin wobble threshold (w w' : world) r :
  gnm num_players actions payoffs g answers steps fuzz lnmfreq lnmmax lambdamin wobble
    threshold w = Done r w' →
  (∀ c', answers ≠ Some c' → cells w' !! c' = cells w !! c') ∧
  heap w ⊆ heap w' ∧
  (trace w' = trace w ∨ ∃ res, trace w' = trace w ++ [Ev_GNM res]).
Proof.
  intros Hrun%gnm_returned.
  assert (Hcells0 : ∀ c', answers ≠ Some c' →
                          cells (reset_answers answers w) !! c' = cells w !! c').
  { intros c' Hc'. destruct answers as [c|]; [|done]. cbn.
    rewrite lookup_insert_ne; [done | congruence]. }
  destruct (reset_answers_frame answers w) as (_ & _ & Hheap0 & _ & _ & Htr0 & _).
  destruct Hrun as [(_ & -> & _) |
    (a & p & g' & c & sz & -> & -> & -> & -> & Hc & Hcs & Hrun)].
  { split_and!; [done | by rewrite Hheap0 | left; by rewrite Htr0]. }
  destruct Hrun as [(e & s1 & _ & Hraise & _ & _ & _ & _ & Hcells & Htr & Hheap) |
                    (s1 & _ & -> & Hpost)].
  - split_and!.
    + intros c' Hc'. rewrite Hcells. by apply Hcells0.
    + rewrite Hheap. set_solver.
    + rewrite Htr. destruct Hraise as (_ & _ & _ & _ & _ & _ & Hcause).
      destruct Hcause as [(_ & _ & _ & _ & Htr1) | [(? & ? & _ & _ & _ & _ & _ & Htr1) |
        (? & ? & ? & ? & _ & _ & _ & _ & Htr1 & _)]];
        rewrite Htr1, Htr0; [by left | by left | right; by eexists].
  - destruct Hpost as (_ & _ & acts & ps & gs & res & hs & _ & _ & _ & _ & Htr & _ & _ & _
                       & Hrest).
    assert (Hsub : heap w ⊆ heap s1.2 ∧
                   ∀ c', Some c ≠ Some c' → cells s1.2 !! c' = cells w !! c').
    { destruct (decide (0 < r)).
      - destruct Hrest as (b & vs & _ & _ & _ & Hheap & _ & Hcells).
        split; [rewrite Hheap, Hheap0; set_solver|].
        intros c' Hc'. rewrite Hcells, lookup_insert_ne by congruence. by apply Hcells0.
      - destruct Hrest as (Hheap & _ & Hcells).
        split; [rewrite Hheap, Hheap0; set_solver|].
        intros c' Hc'. rewrite Hcells. by apply Hcells0. }
    destruct Hsub as [Hheap Hcells].
    split_and!; [done | done |]. right. exists res. by rewrite Htr, Htr0.
Qed.

(** X15: what [*answers] holds before a call of [gnm] has no effect: the
    cell is cleared before anything else is done, so two calls that differ
    in that pointer only return the same code and leave the same memory. *)
Theorem gnm_ignores_stale_answers num_players actions payoffs g c stale steps fuzz lnmfreq
    lnmmax lambdamin wobble threshold (w : world) :
  is_Some (cells w !! c) →
  gnm num_players actions payoffs g (Some c) steps fuzz lnmfreq lnmmax lambdamin wobble
      threshold (set_cells <[c := stale]> w)
  = gnm num_players actions payoffs g (Some c) steps fuzz lnmfreq lnmmax lambdamin wobble
      threshold w.
Proof.
  intros [old Hold]. unfold gnm, mbind, prog_bind, bind, store_ptr, on_world.
  cbn [world_of with_world world_machine cells set_cells].
  rewrite lookup_insert_eq, Hold.
  replace (set_cells <[c := None]> (set_cells <[c := stale]> w))
    with (set_cells <[c := None]> w); [done|].
  unfold set_cells. cbn. by rewrite insert_insert_eq.
Qed.

End Shim.

(** * The command-line driver: which game, which solver

    [main] of [gt.cc] up to and including the check of the game it has
    built ([if (A == 0)]).  What follows it (seeding [drand48], drawing and
    normalising the ray, the retry loops around [IPA] and [GNM], printing)
    computes with floating-point numbers and is not modelled: [Solve] stands
    for going on to it. *)

Section Driver.

(** [gnmgame], the two game makers and [atoi] come from upstream and the C
    library. *)
Context {gnmgame : Type}.
Variable atoi : string → Z.
Variable makeRandomNFGame : Z → Z → Z → option gnmgame.
Variable makeNFGame : string → option gnmgame.

(** What [main] writes to [cout] before it solves anything. *)
Inductive message : Type :=
  | Usage (name : string)       (* usage(argv[0]) *)
  | Unable.                     (* "Unable to create game.\n" *)

Inductive front : Type :=
  | Exit (out : list message) (code : Z)           (* return code; *)
  | Solve (doipa : bool) (A : gnmgame) (seed : Z). (* srand48(seed); ... *)

(** [argv[i]] as a string: [argv[argc]] is a null pointer and what lies
    beyond is not [argv]'s, so that an index that is not below [argc] is
    undefined behaviour, [None]. *)
Definition arg (argv : list string) (i : nat) : option string := argv !! i.

(** [usage(argv[0]); return -1;] *)
Definition usage (argv : list string) : option front :=
  name ← arg argv 0; Some (Exit [Usage name] (-1)).

(** [if (A == 0) { cout << "Unable to create game.\n"; return -1; }] *)
Definition check_game (doipa : bool) (A : option gnmgame) (seed : Z) : front :=
  match A with
  | None => Exit [Unable] (-1)
  | Some A => Solve doipa A seed
  end.

Definition main_arguments (argv : list string) : option front :=
  let argc := Z.of_nat (length argv) in
  if decide (argc < 2) then usage argv
  else
    a1 ← arg argv 1;
    let '(doipa, argbase, argc) :=
      if decide (a1 = "-i"%string) then (true, 1%nat, argc - 1) else (false, 0%nat, argc) in
    if decide (doipa = true ∧ argc < 2) then usage argv
    else
      a ← arg argv (1 + argbase);
      if decide (a = "-r"%string) then
        if decide (argc < 6) then usage argv
        else
          players ← arg argv (2 + argbase);
          actions ← arg argv (3 + argbase);
          gameseed ← arg argv (4 + argbase);
          rayseed ← arg argv (5 + argbase);
          Some (check_game doipa
                  (makeRandomNFGame (atoi players) (atoi actions) (atoi gameseed))
                  (atoi rayseed))
      else
        if decide (argc < 3) then usage argv
        else
          rayseed ← arg argv (2 + argbase);
          Some (check_game doipa (makeNFGame a) (atoi rayseed)).

(** The arguments that follow the program name and an [-i] right after
    it. *)
Definition after_flag (argv : list string) : bool * list string :=
  match argv with
  | _ :: a1 :: rest => if decide (a1 = "-i"%string) then (true, rest) else (false, a1 :: rest)
  | _ => (false, [])
  end.

(** What the arguments ask for: a random game and a ray seed, a game file
    and a ray seed, or too little. *)
Definition requested (doipa : bool) (rest : list string) : option front :=
  match rest with
  | a :: rest' =>
      if decide (a = "-r"%string) then
        match rest' with
        | players :: actions :: gameseed :: rayseed :: _ =>
            Some (check_game doipa
                    (makeRandomNFGame (atoi players) (atoi actions) (atoi gameseed))
                    (atoi rayseed))
        | _ => None
        end
      else
        match rest' with
        | rayseed :: _ => Some (check_game doipa (makeNFGame a) (atoi rayseed))
        | [] => None
        end
  | [] => None
  end.

(** The index arithmetic of [main] ([argbase], [argc--]) against the shape
    of the argument list. *)
Lemma main_arguments_shape name args :
  main_arguments (name :: args) =
    Some (let '(doipa, rest) := after_flag (name :: args) in
          default (Exit [Usage name] (-1)) (requested doipa rest)).
Proof.
  unfold main_arguments, usage, arg.
  destruct args as [|a1 args]; [done|].
  rewrite decide_False by (simpl; lia).
  cbn [lookup list_lookup mbind option_bind after_flag].
  destruct (decide (a1 = "-i"%string)) as [-> | Hi].
  - destruct args as [|a args].
    { rewrite decide_True by (simpl; split; [done | lia]). done. }
    rewrite decide_False by (simpl; lia).
    cbn [Nat.add lookup list_lookup mbind option_bind requested].
    destruct (decide (a = "-r"%string)) as [-> | Hr].
    + destruct args as [|x [|y [|z [|s args]]]];
        try (rewrite decide_True by (simpl; lia); done).
      rewrite decide_False by (simpl length; lia). done.
    + destruct args as [|s args].
      { rewrite decide_True by (simpl; lia). done. }
      rewrite decide_False by (simpl length; lia). done.
  - rewrite decide_False by (intros [[=] _]).
    cbn [Nat.add lookup list_lookup mbind option_bind requested].
    destruct (decide (a1 = "-r"%string)) as [-> | Hr].
    + destruct args as [|x [|y [|z [|s args]]]];
        try (rewrite decide_True by (simpl; lia); done).
      rewrite decide_False by (simpl length; lia). done.
    + destruct args as [|s args].
      { rewrite decide_True by (simpl; lia). done. }
      rewrite decide_False by (simpl length; lia). done.
Qed.

(** X11: [main] never reads [argv] at an index that is not below [argc]:
    whatever the command line, as long as it starts with the program name,
    every [argv[i]] it passes to [strcmp], [atoi], [makeNFGame] or [usage]
    exists. *)
Theorem main_reads_argv_within_argc argv :
  argv ≠ [] → is_Some (main_arguments argv).
Proof.
  destruct argv as [|name args]; [done|]. intros _.
  rewrite main_arguments_shape. by eexists.
Qed.

(** X12: [main] prints the usage text and returns -1 exactly when, after
    the program name and an [-i] directly behind it, there is nothing, or
    [-r] with fewer than four arguments behind it, or a file name with no ray
    seed behind it. *)
Theorem main_usage_iff_too_few name args :
  let '(_, rest) := after_flag (name :: args) in
  main_arguments (name :: args) = Some (Exit [Usage name] (-1)) ↔
  match rest with
  | [] => True
  | a :: rest' =>
      if decide (a = "-r"%string) then (length rest' < 4)%nat else (length rest' < 1)%nat
  end.
Proof.
  rewrite main_arguments_shape.
  destruct (after_flag (name :: args)) as [doipa rest].
  assert (Hgame : ∀ A seed, Some (check_game doipa A seed) ≠ Some (Exit [Usage name] (-1))).
  { intros [A|] seed; simpl; congruence. }
  destruct rest as [|a rest']; [done|]. cbn [requested].
  destruct (decide (a = "-r"%string)).
  - destruct rest' as [|x [|y [|z [|s extra]]]]; simpl; split;
      first [done | lia | intros [= Heq]; by destruct (Hgame _ _ (f_equal Some Heq))].
  - destruct rest' as [|s extra]; simpl; split;
      first [done | lia | intros [= Heq]; by destruct (Hgame _ _ (f_equal Some Heq))].
Qed.

(** X13: on a complete command line [main] builds the game asked for and
    takes the ray seed that follows it, ignoring whatever comes after; IPA
    is chosen by an [-i] directly behind the program name and by nothing
    else; and when the game maker returns a null game, [main] prints
    "Unable to create game." and returns -1 without solving. *)
Theorem main_selects_game name players actions gameseed file rayseed extra :
  let flag (doipa : bool) := if doipa then ["-i"%string] else [] in
  (∀ doipa,
     main_arguments
       (name :: flag doipa ++ "-r"%string :: players :: actions :: gameseed :: rayseed :: extra)
     = Some (match makeRandomNFGame (atoi players) (atoi actions) (atoi gameseed) with
             | Some A => Solve doipa A (atoi rayseed)
             | None => Exit [Unable] (-1)
             end)) ∧
  (file ≠ "-r"%string →
   main_arguments (name :: "-i"%string :: file :: rayseed :: extra)
   = Some (match makeNFGame file with
           | Some A => Solve true A (atoi rayseed)
           | None => Exit [Unable] (-1)
           end) ∧
   (file ≠ "-i"%string →
    main_arguments (name :: file :: rayseed :: extra)
    = Some (match makeNFGame file with
            | Some A => Solve false A (atoi rayseed)
            | None => Exit [Unable] (-1)
            end))).
Proof.
  intros flag. split; [intros [] | intros Hr; split; [|intros Hi]];
    rewrite main_arguments_shape; cbn [flag app after_flag].
  - rewrite decide_True by done. cbn [requested]. by rewrite decide_True.
  - rewrite decide_False by done. cbn [requested]. by rewrite decide_True.
  - rewrite decide_True by done. cbn [requested]. by rewrite decide_False.
  - rewrite decide_False by done. cbn [requested]. by rewrite decide_False.
Qed.

End Driver.

(** * Concrete runs *)

(** A two-player game with three and two actions, over [Z] in place of
    [double], and collaborators that answer as told. *)
Module Run.

Definition ctor_ok : Z → list Z → list Z → option exn := λ _ _ _, None.

(** An [IPA] that returns [r], bumps the work vector and answers twice the
    ray. *)
Definition ipa_up (r : Z)
    : @nfgame Z → list Z → list Z → Z → Z → list Z → @ipa_result Z :=
  λ _ g zh _ _ _, IPA_returns r g (Z.succ <$> zh) (Z.mul 2 <$> g).

(** A [GNM] that ends as [res] says. *)
Definition gnm_up (res : @gnm_result Z)
    : @nfgame Z → list Z → Z → Z → Z → Z → Z → Z → Z → @gnm_result Z :=
  λ _ _ _ _ _ _ _ _ _, res.

Definition zeroes : nat → Z := λ _, 0.

Definition a_actions : loc := 1%positive.
Definition a_payoffs : loc := 2%positive.
Definition a_g : loc := 3%positive.
Definition a_zh : loc := 4%positive.
Definition a_ans : loc := 5%positive.
Definition a_answers : loc := 6%positive.

Definition caller_mem (ans : list Z) : gmap loc (list Z) :=
  <[a_payoffs := [1; 2; 3; 4; 5; 6; 7; 8; 9; 10; 11; 12]]>
    (<[a_g := [1; 1; 1; 1; 1]]>
       (<[a_zh := [0; 0; 0; 0; 0]]> {[ a_ans := ans ]})).

(** The caller's memory before a call: [ans] holds [ans], every allocation
    is granted unless [refuse], and [*answers] is a stale pointer. *)
Definition before (ans : list Z) (refuse : bool) : @world Z :=
  World {[ a_actions := [3; 2] ]} (caller_mem ans)
        {[ a_answers := Some 77%positive ]} ∅ 0 (λ _, refuse) [].

Definition w0 : @world Z := before [7; 7; 7; 7; 7] false.

Definition solved (r : Z) : @ipa_result Z :=
  IPA_returns r [1; 1; 1; 1; 1] [1; 1; 1; 1; 1] [2; 2; 2; 2; 2].

(** After [ipa] on [before ans false], when [IPA] returned [r]. *)
Definition after_ipa (r : Z) : @world Z :=
  World (ints w0)
        (<[a_ans := [2; 2; 2; 2; 2]]> (<[a_zh := [1; 1; 1; 1; 1]]> (mem w0)))
        (cells w0) ∅ 6 (oom w0) [Ev_IPA (solved r)].

(** After [gnm] on [w0], when [GNM] ended as [res] and no block is handed
    over; [live] is what is left allocated. *)
Definition after_gnm (res : @gnm_result Z) (live : gset loc) : @world Z :=
  World (ints w0) (mem w0) (<[a_answers := None]> (cells w0)) live 4 (oom w0) [Ev_GNM res].

Definition two_found : @gnm_result Z :=
  GNM_returns 2 [] (Some [[1; 2; 3; 4; 5]; [6; 7; 8; 9; 10]]).

Definition a_block : loc := 14%positive.

(** After [gnm] on [w0], when [GNM] ended as [two_found]. *)
Definition after_two_found : @world Z :=
  World (ints w0) (<[a_block := [1; 2; 3; 4; 5; 6; 7; 8; 9; 10]]> (mem w0))
        (<[a_answers := Some a_block]> (cells w0)) {[ a_block ]} 5 (oom w0)
        [Ev_GNM two_found].

Definition run_ipa (r : Z) (num_players : Z) : prog (@world Z) Z :=
  ipa ctor_ok (ipa_up r) zeroes num_players (Some a_actions) (Some a_payoffs) (Some a_g)
      (Some a_zh) 0 0 (Some a_ans).

Definition run_gnm (res : @gnm_result Z) (num_players : Z) : prog (@world Z) Z :=
  gnm ctor_ok (gnm_up res) zeroes num_players (Some a_actions) (Some a_payoffs) (Some a_g)
      (Some a_answers) 0 0 0 0 0 0 0.

Definition none_found : @gnm_result Z := GNM_returns 0 [] None.
Definition negative_found : @gnm_result Z := GNM_returns (-7) [] None.

(** A [GNM] that runs out of memory after it has stored one handle. *)
Definition gave_up : @gnm_result Z := GNM_throws bad_alloc (Some [[1; 2; 3; 4; 5]]).
Definition a_stranded : loc := 12%positive.

(** The same caller as [w0], with an action count of zero. *)
Definition w_bad : @world Z :=
  World {[ a_actions := [3; 0] ]} (caller_mem [7; 7; 7; 7; 7])
        {[ a_answers := Some 77%positive ]} ∅ 0 (λ _, false) [].

Ltac small :=
  repeat match goal with
         | |- Forall _ _ => constructor
         | |- _ ∧ _ => split
         end;
  unfold is_int; change INT_MAX with 2147483647; change INT_MIN with (-2147483648);
  simpl; lia.

Lemma run_ipa_w0 r : run_ipa r 2 w0 = Done r (after_ipa r).
Proof. destruct r; vm_compute; reflexivity. Qed.

Lemma run_gnm_two_found : run_gnm two_found 2 w0 = Done 2 after_two_found.
Proof. vm_compute. reflexivity. Qed.

Lemma run_gnm_none_found : run_gnm none_found 2 w0 = Done 0 (after_gnm none_found ∅).
Proof. vm_compute. reflexivity. Qed.

Lemma run_gnm_negative_found :
  run_gnm negative_found 2 w0 = Done (-3) (after_gnm negative_found ∅).
Proof. vm_compute. reflexivity. Qed.

Lemma run_gnm_gave_up : run_gnm gave_up 2 w0 = Done (-2) (after_gnm gave_up {[ a_stranded ]}).
Proof. vm_compute. reflexivity. Qed.

Lemma differ_before xs ys refuse :
  length xs = length ys → differ_at a_ans 0 (before xs refuse) (before ys refuse).
Proof.
  intros Hlen. unfold differ_at, before, caller_mem. simpl. split_and!; try done.
  - intros l Hl.
    destruct (decide (l = a_payoffs)) as [->|]; [by rewrite !lookup_insert_eq|].
    rewrite !(lookup_insert_ne _ a_payoffs) by done.
    destruct (decide (l = a_g)) as [->|]; [by rewrite !lookup_insert_eq|].
    rewrite !(lookup_insert_ne _ a_g) by done.
    destruct (decide (l = a_zh)) as [->|]; [by rewrite !lookup_insert_eq|].
    rewrite !(lookup_insert_ne _ a_zh) by done.
    by rewrite !lookup_singleton_ne.
  - by constructor.
Qed.

(** With a [size_t] of 32 bits the product [N * P] wraps before it is
    compared with [INT_MAX]: four players with 32768, 32768, 1 and 1 actions
    are accepted with a payoff length of 0.  With 64 bits they are turned
    down. *)
Definition w_wide : @world Z :=
  World {[ a_actions := [32768; 32768; 1; 1] ]} ∅ ∅ ∅ 0 (λ _, false) [].

Remark compute_sizes_32_wraps :
  compute_sizes_on 32 4 (Some a_actions) w_wide
    = Done (Some (MkSizes 4 65538 1073741824 0)) w_wide ∧
  compute_sizes 4 (Some a_actions) w_wide = Done None w_wide.
Proof. split; vm_compute; reflexivity. Qed.

(** ** The claims on these runs *)

Lemma compute_sizes_exact_at_64_bits_witness :
  ints w0 !! a_actions = Some [3; 2] ∧
  compute_sizes 2 (Some a_actions) w0 = Done (Some (MkSizes 2 5 6 12)) w0 ∧
  total_actions [3; 2] = 5 ∧ profile_count [3; 2] = 6 ∧ 2 * profile_count [3; 2] = 12.
Proof.
  destruct (compute_sizes_exact_at_64_bits ctor_ok zeroes)
    as [Hgen Hex].
  assert (ints w0 !! a_actions = Some [3; 2]) as Hints by reflexivity.
  pose proof (Hex w0 a_actions Hints) as Hrun.
  assert (is_int 2) as H2 by small.
  assert (Forall is_int [3; 2]) as Harr by small.
  destruct (Hgen w0 w0 2 a_actions [3; 2] _ H2 Hints eq_refl Harr Hrun)
    as (_ & _ & _ & HM & HP & HNP & _).
  simpl in HM, HP, HNP. by split_and!.
Defined.

Lemma invalid_arguments_rejected_at_64_bits_witness :
  is_int 2 ∧ rejected_game 2 [3; 0] ∧
  run_ipa 1 2 w_bad = Done (-1) w_bad ∧
  run_gnm two_found 2 w_bad = Done (-1) (reset_answers (Some a_answers) w_bad) ∧
  allocs (reset_answers (Some a_answers) w_bad) = allocs w_bad ∧
  trace (reset_answers (Some a_answers) w_bad) = trace w_bad.
Proof.
  assert (is_int 2) as H2 by small.
  assert (rejected_game 2 [3; 0]) as Hrej.
  { left. apply Exists_cons_tl, Exists_cons_hd. lia. }
  assert (∃ a arr, Some a_actions = Some a ∧ ints w_bad !! a = Some arr ∧
                   (Z.to_nat 2 ≤ length arr)%nat ∧ Forall is_int arr ∧
                   rejected_game 2 (take (Z.to_nat 2) arr)) as Hbad.
  { exists a_actions, [3; 0]. split_and!; [done | done | simpl; lia | small | done]. }
  destruct (invalid_arguments_rejected_at_64_bits ctor_ok (ipa_up 1) (gnm_up two_found) zeroes
              w_bad 2 (Some a_actions) (Some a_payoffs) (Some a_g) (Some a_zh) (Some a_ans)
              (Some a_answers) 0 0 0 0 0 0 0 0 0 H2) as [Hipa Hgnm].
  destruct Hgnm as (Hrun & Hallocs & _ & Htrace & _).
  { do 5 right. exact Hbad. }
  { intros c [= <-]. by eexists. }
  specialize (Hipa ltac:(do 6 right; exact Hbad)). by split_and!.
Defined.

Lemma C1_failures_become_codes_witness :
  (ipa_body ctor_ok (ipa_up 1) zeroes (MkSizes 2 5 6 12) a_actions a_payoffs a_g a_zh 0 0
     a_ans (before [7; 7; 7; 7; 7] true)
   = Raise bad_alloc (count_alloc (before [7; 7; 7; 7; 7] true)) ∧
   run_ipa 1 2 (before [7; 7; 7; 7; 7] true)
   = Done (-2) (count_alloc (before [7; 7; 7; 7; 7] true))) ∧
  (run_gnm negative_found 2 w0 = Done (-3) (after_gnm negative_found ∅) ∧
   heap (after_gnm negative_found ∅) = heap w0 ∧
   mem (after_gnm negative_found ∅) = mem w0) ∧
  (run_gnm gave_up 2 w0 = Done (-2) (after_gnm gave_up {[ a_stranded ]}) ∧
   mem (after_gnm gave_up {[ a_stranded ]}) = mem w0 ∧
   ∃ hs, length hs = 1%nat ∧
         heap (after_gnm gave_up {[ a_stranded ]}) = list_to_set hs ∪ heap w0 ∧
         heap (after_gnm gave_up {[ a_stranded ]}) ≠ heap w0).
Proof.
  destruct (C1_failures_become_codes ctor_ok (ipa_up 1) (gnm_up negative_found) zeroes)
    as [Hipa Hgnm].
  destruct (C1_failures_become_codes ctor_ok (ipa_up 1) (gnm_up gave_up) zeroes)
    as [_ Hgave].
  split; [|split].
  - assert (ipa_body ctor_ok (ipa_up 1) zeroes (MkSizes 2 5 6 12) a_actions a_payoffs a_g
              a_zh 0 0 a_ans (before [7; 7; 7; 7; 7] true)
            = Raise bad_alloc (count_alloc (before [7; 7; 7; 7; 7] true))) as Hraise
      by reflexivity.
    split; [done|].
    destruct (Hipa (before [7; 7; 7; 7; 7] true) 2 (Some a_actions) (Some a_payoffs)
                (Some a_g) (Some a_zh) 0 0 (Some a_ans)) as [_ Hcode].
    by destruct (Hcode a_actions a_payoffs a_g a_zh a_ans (MkSizes 2 5 6 12) bad_alloc
                   (count_alloc (before [7; 7; 7; 7; 7] true))
                   eq_refl eq_refl eq_refl eq_refl eq_refl eq_refl Hraise) as (Hrun & _).
  - destruct (Hgnm w0 2 (Some a_actions) (Some a_payoffs) (Some a_g) (Some a_answers)
                0 0 0 0 0 0 0) as (_ & _ & Hret & _).
    pose proof run_gnm_negative_found as Hrun.
    destruct (Hret (-3) (after_gnm negative_found ∅) negative_found Hrun eq_refl)
      as (_ & _ & _ & Hsame).
    split; [done|]. apply Hsame; [lia | reflexivity].
  - destruct (Hgave w0 2 (Some a_actions) (Some a_payoffs) (Some a_g) (Some a_answers)
                0 0 0 0 0 0 0) as (_ & _ & _ & Hleaves).
    pose proof run_gnm_gave_up as Hrun.
    destruct (Hleaves (-2) (after_gnm gave_up {[ a_stranded ]}) Hrun ltac:(lia))
      as (Hmem & hs & _ & _ & Hheap & Hcount & Hiff).
    split; [done|]. split; [done|]. exists hs.
    assert (length hs = 1%nat) as Hlen.
    { destruct Hcount as [[Htr _] | (res & Htr & Hlen)]; [discriminate Htr|].
      injection Htr as <-. exact Hlen. }
    split_and!; [done | done |].
    intros Hsame. apply Hiff in Hsame. by rewrite Hsame in Hlen.
Defined.

Lemma C3_answers_sentinel_witness :
  run_gnm none_found 2 w0 = Done 0 (after_gnm none_found ∅) ∧
  cells w0 !! a_answers = Some (Some 77%positive) ∧
  cells (after_gnm none_found ∅) !! a_answers = Some None.
Proof.
  pose proof run_gnm_none_found as Hrun.
  destruct (C3_answers_sentinel ctor_ok (ipa_up 1) (gnm_up none_found) zeroes w0
              (after_gnm none_found ∅) 2 (Some a_actions) (Some a_payoffs) (Some a_g)
              (Some a_answers) 0 0 0 0 0 0 0 0 Hrun) as [Hle _].
  destruct (Hle (Z.le_refl 0)) as [_ Hcell].
  split_and!; [done | done |]. by apply Hcell.
Defined.

Lemma C4_gnm_result_block_witness :
  valid_game 2 [3; 2] ∧
  ∃ b blk w',
    run_gnm two_found 2 w0 = Done 2 w' ∧
    cells w' !! a_answers = Some (Some b) ∧ mem w' !! b = Some blk ∧
    (b ∉ used w0) ∧ length blk = 10%nat ∧
    (∀ row i v x, [[1; 2; 3; 4; 5]; [6; 7; 8; 9; 10]] !! row = Some v → v !! i = Some x →
                  blk !! (row * 5 + i)%nat = Some x) ∧
    heap w' = {[ b ]} ∪ heap w0 ∧
    (∀ l, l ≠ b → mem w' !! l = mem w0 !! l).
Proof.
  assert (valid_game 2 [3; 2]) as Hvalid.
  { unfold valid_game. change INT_MAX with 2147483647. simpl.
    split_and!; [repeat constructor; lia | lia..]. }
  split; [done|].
  apply (C4_gnm_result_block ctor_ok (ipa_up 1) (gnm_up two_found) zeroes w0 2
           a_actions a_payoffs a_g a_answers 0 0 0 0 0 0 0
           [3; 2] [1; 2; 3; 4; 5; 6; 7; 8; 9; 10; 11; 12] [1; 1; 1; 1; 1] 2 []
           [[1; 2; 3; 4; 5]; [6; 7; 8; 9; 10]]).
  - small.
  - lia.
  - reflexivity.
  - simpl. lia.
  - small.
  - exact Hvalid.
  - reflexivity.
  - simpl. lia.
  - reflexivity.
  - simpl. lia.
  - by eexists.
  - intros i _. reflexivity.
  - reflexivity.
  - reflexivity.
  - lia.
  - reflexivity.
  - repeat constructor.
  - by vm_compute.
Defined.

Lemma C7_inputs_unchanged_witness :
  (run_ipa 1 2 w0 = Done 1 (after_ipa 1) ∧
   ints (after_ipa 1) = ints w0 ∧
   mem (after_ipa 1) !! a_payoffs = mem w0 !! a_payoffs ∧
   mem (after_ipa 1) !! a_g = mem w0 !! a_g) ∧
  (run_gnm two_found 2 w0 = Done 2 after_two_found ∧
   ints after_two_found = ints w0 ∧
   mem after_two_found !! a_payoffs = mem w0 !! a_payoffs ∧
   mem after_two_found !! a_g = mem w0 !! a_g).
Proof.
  destruct (C7_inputs_unchanged ctor_ok (ipa_up 1) (gnm_up two_found) zeroes)
    as [Hipa Hgnm].
  split.
  - pose proof (run_ipa_w0 1) as Hrun.
    destruct (Hipa w0 (after_ipa 1) 2 (Some a_actions) (Some a_payoffs) (Some a_g)
                (Some a_zh) 0 0 (Some a_ans) 1 Hrun) as [Hints Hmem].
    split_and!; [done | done | by apply Hmem | by apply Hmem].
  - pose proof run_gnm_two_found as Hrun.
    destruct (Hgnm w0 after_two_found 2 (Some a_actions) (Some a_payoffs) (Some a_g)
                (Some a_answers) 0 0 0 0 0 0 0 2 Hrun) as [Hints Hmem].
    split_and!; [done | done | |]; apply Hmem, elem_of_dom; by eexists.
Defined.

Lemma C8_ans_contents_irrelevant_witness :
  differ_at a_ans 0 w0 (before [9; 9; 9; 9; 9] false) ∧
  run_ipa 1 2 w0 = Done 1 (after_ipa 1) ∧
  ∃ w2', run_ipa 1 2 (before [9; 9; 9; 9; 9] false) = Done 1 w2' ∧
         differ_at a_ans 0 (after_ipa 1) w2' ∧
         differ_at a_ans 5 (after_ipa 1) w2' ∧
         take 5 <$> mem w2' !! a_ans = Some [2; 2; 2; 2; 2] ∧
         take 5 <$> mem (after_ipa 1) !! a_zh = Some [1; 1; 1; 1; 1] ∧
         take 5 <$> mem w2' !! a_zh = Some [1; 1; 1; 1; 1].
Proof.
  assert (differ_at a_ans 0 w0 (before [9; 9; 9; 9; 9] false)) as Hdiff
    by by apply differ_before.
  pose proof (run_ipa_w0 1) as Hrun.
  split; [done|]. split; [done|].
  destruct (C8_ans_contents_irrelevant ctor_ok (ipa_up 1) zeroes w0
              (before [9; 9; 9; 9; 9] false) (after_ipa 1) 2 (Some a_actions)
              (Some a_payoffs) (Some a_g) (Some a_zh) 0 0 a_ans 1 Hdiff
              ltac:(done) ltac:(done) ltac:(done) Hrun)
    as (w2' & Hrun2 & Hdiff' & Hsolved & _).
  exists w2'. split; [done|]. split; [done|].
  destruct (Hsolved 1 [1; 1; 1; 1; 1] [1; 1; 1; 1; 1] [2; 2; 2; 2; 2] eq_refl)
    as (_ & sz & Hcs & _ & Hdiff5 & _ & Hans & Hzh).
  assert (sz = MkSizes 2 5 6 12) as -> by (vm_compute in Hcs; congruence).
  destruct (Hzh a_zh eq_refl) as [Hzh1 Hzh2].
  split_and!; [exact Hdiff5 | exact Hans | exact Hzh1 | exact Hzh2].
Defined.

Lemma C9_gametracer_free_witness :
  gametracer_free None w0 = Done tt w0 ∧
  run_gnm two_found 2 w0 = Done 2 after_two_found ∧
  cells after_two_found !! a_answers = Some (Some a_block) ∧
  a_block ∈ heap after_two_found ∧
  gametracer_free (Some a_block) after_two_found
    = Done tt (set_mem (delete a_block) (set_heap (λ h, h ∖ {[ a_block ]}) after_two_found)) ∧
  delete a_block (mem after_two_found) = mem w0.
Proof.
  destruct (C9_gametracer_free ctor_ok (ipa_up 1) (gnm_up two_found) zeroes)
    as [Hnull Hblock].
  pose proof run_gnm_two_found as Hrun.
  destruct (Hblock w0 after_two_found 2 (Some a_actions) (Some a_payoffs) (Some a_g)
              a_answers 0 0 0 0 0 0 0 2 a_block Hrun ltac:(lia) eq_refl)
    as (Hlive & _ & _ & Hfree & Hmem).
  specialize (Hnull w0). by split_and!.
Defined.

(** C1 as it is written fails where the solver runs out of memory after it
    has stored a handle: [gnm] returns -2, and the handle is still
    allocated. *)
Lemma C1_counterexample :
  ¬ (∀ GNM (w w' : @world Z),
       gnm ctor_ok GNM zeroes 2 (Some a_actions) (Some a_payoffs) (Some a_g)
           (Some a_answers) 0 0 0 0 0 0 0 w = Done (-2) w' →
       heap w' = heap w).
Proof.
  intros Hclaim. pose proof (Hclaim (gnm_up gave_up) w0 _ run_gnm_gave_up) as Hheap.
  apply (f_equal (λ h, bool_decide (a_stranded ∈ h))) in Hheap. by vm_compute in Hheap.
Qed.

(** C8 as it is written fails on a call that fails: with every allocation
    refused, both calls return -2 and each [ans] keeps what the caller had
    put there. *)
Lemma C8_counterexample :
  ¬ (∀ (w1 w2 w1' w2' : @world Z) r1 r2,
       differ_at a_ans 0 w1 w2 →
       run_ipa 1 2 w1 = Done r1 w1' → run_ipa 1 2 w2 = Done r2 w2' →
       r1 = r2 ∧ mem w1' !! a_zh = mem w2' !! a_zh ∧ mem w1' !! a_ans = mem w2' !! a_ans).
Proof.
  intros Hclaim.
  destruct (Hclaim (before [7; 7; 7; 7; 7] true) (before [9; 9; 9; 9; 9] true)
              (count_alloc (before [7; 7; 7; 7; 7] true))
              (count_alloc (before [9; 9; 9; 9; 9] true)) (-2) (-2))
    as (_ & _ & Hans); [by apply differ_before | reflexivity | reflexivity |].
  by vm_compute in Hans.
Qed.

(** *** A target whose [size_t] has 32 bits *)

(** Thirty-two players, the first twenty-seven with two actions and the
    others with one: 59 actions in all and 2^27 profiles, so that the payoff
    length is 32 * 2^27 = 2^32, more than [INT_MAX]. *)
Definition wide_game : list Z := replicate 27 2 ++ replicate 5 1.

(** A caller with that game and buffers of 59 entries.  No payoff array of
    2^32 entries fits the address space; the caller passes what it has. *)
Definition w32 : @world Z :=
  World {[ a_actions := wide_game ]}
        (<[a_payoffs := [1; 2; 3; 4]]>
           (<[a_g := replicate 59 1]>
              (<[a_zh := replicate 59 0]> {[ a_ans := replicate 59 7 ]})))
        ∅ ∅ 0 (λ _, false) [].

(** C2 where [size_t] has 32 bits: [wide_game] is a game whose N * P exceeds
    [INT_MAX] while M and P do not, the validator built for 32 bits accepts
    it with a payoff length of 0, and [ipa] built for 32 bits does not
    return -1: it makes six allocation requests, calls [IPA] and returns
    what [IPA] returned.  Built for 64 bits, [ipa] returns -1 on the same
    call and leaves the world as it was. *)
Lemma C2_overflowing_game_accepted_at_32_bits :
  is_int 32 ∧ Forall is_int wide_game ∧ length wide_game = 32%nat ∧
  Forall (λ x, 0 < x) wide_game ∧
  total_actions wide_game = 59 ∧ profile_count wide_game = 134217728 ∧
  INT_MAX < 32 * profile_count wide_game ∧
  rejected_game 32 wide_game ∧
  compute_sizes_on 32 32 (Some a_actions) w32
    = Done (Some (MkSizes 32 59 134217728 0)) w32 ∧
  (∃ w', ipa_on ctor_ok (ipa_up 1) zeroes 32 32 (Some a_actions) (Some a_payoffs)
           (Some a_g) (Some a_zh) 0 0 (Some a_ans) w32 = Done 1 w' ∧
         allocs w32 = 0%nat ∧ allocs w' = 6%nat ∧
         trace w32 = [] ∧ (∃ res, trace w' = [Ev_IPA res]) ∧
         mem w' !! a_ans = Some (replicate 59 2)) ∧
  ipa ctor_ok (ipa_up 1) zeroes 32 (Some a_actions) (Some a_payoffs) (Some a_g)
    (Some a_zh) 0 0 (Some a_ans) w32 = Done (-1) w32.
Proof.
  split; [small|]. split; [small|].
  split; [reflexivity|]. split; [repeat constructor|].
  split; [reflexivity|]. split; [reflexivity|].
  split; [vm_compute; reflexivity|].
  split; [do 3 right; vm_compute; reflexivity|].
  split; [vm_compute; reflexivity|].
  split; [|vm_compute; reflexivity].
  eexists. split; [vm_compute; reflexivity|].
  split; [reflexivity|]. split; [vm_compute; reflexivity|].
  split; [reflexivity|]. split; [eexists|]; vm_compute; reflexivity.
Qed.

(** C6 where [size_t] has 32 bits: four players with 32768, 32768, 1 and 1
    actions, all positive, pass validation, and the validator outputs the
    exact M and P but a payoff length of 0, where N * P is 2^32. *)
Lemma C6_payoff_length_wraps_at_32_bits :
  is_int 4 ∧ Forall is_int [32768; 32768; 1; 1] ∧
  Forall (λ x, 0 < x) [32768; 32768; 1; 1] ∧
  4 * profile_count [32768; 32768; 1; 1] = 4294967296 ∧
  ∃ sz, compute_sizes_on 32 4 (Some a_actions) w_wide = Done (Some sz) w_wide ∧
        sz_M sz = total_actions [32768; 32768; 1; 1] ∧
        sz_P sz = profile_count [32768; 32768; 1; 1] ∧
        sz_payoff_len sz = 0 ∧
        sz_payoff_len sz ≠ 4 * profile_count [32768; 32768; 1; 1].
Proof.
  split_and!; [small | small | repeat constructor | reflexivity |].
  exists (MkSizes 4 65538 1073741824 0).
  split_and!; [vm_compute; reflexivity | reflexivity | reflexivity | reflexivity | done].
Qed.

(** C5 at an [IPA] that returns -5: [ipa] returns -5, not -3, after it has
    copied the solver's vectors back. *)
Lemma C5_negative_return_passes_through :
  run_ipa (-5) 2 w0 = Done (-5) (after_ipa (-5)) ∧
  trace (after_ipa (-5)) = trace w0 ++ [Ev_IPA (solved (-5))] ∧
  mem (after_ipa (-5)) !! a_ans = Some [2; 2; 2; 2; 2].
Proof. split; [apply run_ipa_w0 | done]. Qed.

(** C10 at an [IPA] that returns -3: [ipa] returns -3, and [zh] and [ans]
    have been overwritten. *)
Lemma C10_buffers_written_on_negative_return :
  run_ipa (-3) 2 w0 = Done (-3) (after_ipa (-3)) ∧
  mem w0 !! a_zh = Some [0; 0; 0; 0; 0] ∧ mem (after_ipa (-3)) !! a_zh = Some [1; 1; 1; 1; 1] ∧
  mem w0 !! a_ans = Some [7; 7; 7; 7; 7] ∧
  mem (after_ipa (-3)) !! a_ans = Some [2; 2; 2; 2; 2].
Proof. split; [apply run_ipa_w0 | done]. Qed.

(** ** The further properties on these runs *)

(** The caller of [w0] with an [ans] buffer of seven entries. *)
Definition w_long : @world Z := before [7; 7; 7; 7; 7; 8; 8] false.

Definition after_long : @world Z :=
  World (ints w_long)
        (<[a_ans := [2; 2; 2; 2; 2; 8; 8]]> (<[a_zh := [1; 1; 1; 1; 1]]> (mem w_long)))
        (cells w_long) ∅ 6 (oom w_long) [Ev_IPA (solved 1)].

Lemma run_ipa_long : run_ipa 1 2 w_long = Done 1 after_long.
Proof. vm_compute. reflexivity. Qed.

(** A handle array at 10 with two live handles, at 11 and 12. *)
Definition w_handles : @world Z :=
  World ∅ ∅ ∅ {[ 10%positive; 11%positive; 12%positive ]} 0 (λ _, false) [].

Lemma valid_3_2 : valid_game 2 [3; 2].
Proof.
  unfold valid_game. change INT_MAX with 2147483647. simpl.
  split_and!; [repeat constructor; lia | lia..].
Qed.

Lemma compute_sizes_accepts_exactly_valid_witness :
  62 ≤ 62 ∧ valid_game 2 [3; 2] ∧
  compute_sizes_on 62 2 (Some a_actions) w0 = Done (Some (MkSizes 2 5 6 12)) w0 ∧
  compute_sizes_on 62 2 (Some a_actions) w_bad = Done None w_bad.
Proof.
  assert (is_int 2) as H2 by small.
  destruct (compute_sizes_accepts_exactly_valid ctor_ok zeroes 62 w0 2 a_actions [3; 2]
              ltac:(lia) eq_refl H2 ltac:(simpl; lia) ltac:(small)) as [Hyes _].
  destruct (compute_sizes_accepts_exactly_valid ctor_ok zeroes 62 w_bad 2 a_actions [3; 0]
              ltac:(lia) eq_refl H2 ltac:(simpl; lia) ltac:(small)) as [_ Hno].
  split_and!; [lia | exact valid_3_2 | |].
  - apply Hyes. split; [lia | exact valid_3_2].
  - apply Hno. intros (_ & Hall & _). simpl in Hall.
    apply Forall_cons in Hall as [_ Hall]. apply Forall_cons in Hall as [Hall _]. lia.
Defined.

Lemma compute_sizes_stops_at_nonpositive_witness :
  31 ≤ 32 ∧ Forall is_int [3; 0] ∧ ints w_bad !! a_actions = Some [3; 0] ∧
  compute_sizes_on 32 7 (Some a_actions) w_bad = Done None w_bad.
Proof.
  split; [lia|]. split; [small|]. split; [done|].
  apply (compute_sizes_stops_at_nonpositive 32 w_bad 7 a_actions [3; 0] 1 0);
    [lia | small | reflexivity | reflexivity | lia | simpl; lia].
Defined.

Lemma accepted_sizes_fit_int_witness :
  compute_sizes_on 31 2 (Some a_actions) w0 = Done (Some (MkSizes 2 5 6 12)) w0 ∧
  0 ≤ 5 ≤ INT_MAX ∧ 0 ≤ 6 ≤ INT_MAX ∧ 0 ≤ 12 ≤ INT_MAX.
Proof.
  assert (compute_sizes_on 31 2 (Some a_actions) w0 = Done (Some (MkSizes 2 5 6 12)) w0)
    as Hrun by (vm_compute; reflexivity).
  destruct (accepted_sizes_fit_int 31 w0 w0 2 (Some a_actions) (MkSizes 2 5 6 12)
              ltac:(lia) Hrun) as (_ & _ & HM & HP & HNP).
  by split_and!.
Defined.

Lemma ipa_leaves_no_allocation_witness :
  run_ipa 1 2 w0 = Done 1 (after_ipa 1) ∧
  heap (after_ipa 1) = heap w0 ∧ cells (after_ipa 1) = cells w0 ∧
  (allocs w0 ≤ allocs (after_ipa 1) ≤ 6 + allocs w0)%nat.
Proof.
  pose proof (run_ipa_w0 1) as Hrun.
  destruct (ipa_leaves_no_allocation ctor_ok (ipa_up 1) zeroes 2 (Some a_actions)
              (Some a_payoffs) (Some a_g) (Some a_zh) 0 0 (Some a_ans) w0 (after_ipa 1) 1
              Hrun) as (Hheap & Hcells & Hallocs & _).
  split_and!; try done; apply Hallocs.
Defined.

Lemma ipa_writes_first_M_only_witness :
  run_ipa 1 2 w_long = Done 1 after_long ∧
  mem w_long !! a_ans = Some [7; 7; 7; 7; 7; 8; 8] ∧
  length <$> mem after_long !! a_ans = Some 7%nat ∧
  drop 5 <$> mem after_long !! a_ans = Some [8; 8].
Proof.
  pose proof run_ipa_long as Hrun.
  destruct (ipa_writes_first_M_only ctor_ok (ipa_up 1) zeroes 2 a_actions (Some a_payoffs)
              (Some a_g) (Some a_zh) 0 0 (Some a_ans) w_long after_long [3; 2] 1
              eq_refl ltac:(small) ltac:(simpl; lia) ltac:(small) Hrun a_ans)
    as [Hlen Hdrop].
  split_and!; [done | done | |].
  - exact (eq_trans Hlen eq_refl).
  - exact (eq_trans Hdrop eq_refl).
Defined.

Lemma ipa_copies_solver_vectors_back_witness :
  valid_game 2 [3; 2] ∧
  ∃ w',
    run_ipa 1 2 w_long = Done 1 w' ∧
    mem w' !! a_zh = Some ([1; 1; 1; 1; 1] ++ []) ∧
    mem w' !! a_ans = Some ([2; 2; 2; 2; 2] ++ [8; 8]) ∧
    (∀ l, l ≠ a_zh → l ≠ a_ans → mem w' !! l = mem w_long !! l) ∧
    ints w' = ints w_long ∧ cells w' = cells w_long ∧ heap w' = heap w_long ∧
    trace w' = trace w_long ++ [Ev_IPA (solved 1)].
Proof.
  split; [exact valid_3_2|].
  apply (ipa_copies_solver_vectors_back ctor_ok (ipa_up 1) zeroes w_long 2
           a_actions a_payoffs a_g a_zh a_ans 0 0 [3; 2]
           [1; 2; 3; 4; 5; 6; 7; 8; 9; 10; 11; 12] [1; 1; 1; 1; 1] [0; 0; 0; 0; 0]
           [7; 7; 7; 7; 7; 8; 8] 1 [1; 1; 1; 1; 1] [1; 1; 1; 1; 1] [2; 2; 2; 2; 2]).
  - small.
  - lia.
  - reflexivity.
  - simpl. lia.
  - small.
  - exact valid_3_2.
  - reflexivity.
  - simpl. lia.
  - reflexivity.
  - simpl. lia.
  - reflexivity.
  - simpl. lia.
  - reflexivity.
  - simpl. lia.
  - done.
  - intros i _. reflexivity.
  - reflexivity.
  - reflexivity.
  - simpl. lia.
  - simpl. lia.
Defined.

Lemma ipa_zh_and_ans_in_one_buffer_witness :
  valid_game 2 [3; 2] ∧
  ∃ w',
    ipa ctor_ok (ipa_up 1) zeroes 2 (Some a_actions) (Some a_payoffs) (Some a_g)
        (Some a_ans) 0 0 (Some a_ans) w_long = Done 1 w' ∧
    mem w' !! a_ans = Some ([2; 2; 2; 2; 2] ++ [8; 8]) ∧
    (∀ l, l ≠ a_ans → mem w' !! l = mem w_long !! l).
Proof.
  split; [exact valid_3_2|].
  apply (ipa_zh_and_ans_in_one_buffer ctor_ok (ipa_up 1) zeroes w_long 2
           a_actions a_payoffs a_g a_ans 0 0 [3; 2]
           [1; 2; 3; 4; 5; 6; 7; 8; 9; 10; 11; 12] [1; 1; 1; 1; 1]
           [7; 7; 7; 7; 7; 8; 8] 1 [1; 1; 1; 1; 1] [8; 8; 8; 8; 8] [2; 2; 2; 2; 2]).
  - small.
  - lia.
  - reflexivity.
  - simpl. lia.
  - small.
  - exact valid_3_2.
  - reflexivity.
  - simpl. lia.
  - reflexivity.
  - simpl. lia.
  - reflexivity.
  - simpl. lia.
  - intros i _. reflexivity.
  - reflexivity.
  - reflexivity.
  - simpl. lia.
  - simpl. lia.
Defined.

Lemma ipa_always_returns_witness :
  valid_game 2 [3; 2] ∧
  ∃ w',
    run_ipa 1 2 (before [7; 7; 7; 7; 7] true) = Done (-2) w' ∧
    heap w' = heap (before [7; 7; 7; 7; 7] true) ∧
    ((∀ r gv zv av,
        trace w' ≠ trace (before [7; 7; 7; 7; 7] true) ++ [Ev_IPA (IPA_returns r gv zv av)]) →
     mem w' = mem (before [7; 7; 7; 7; 7] true)).
Proof.
  split; [exact valid_3_2|].
  apply (ipa_always_returns ctor_ok (ipa_up 1) zeroes (before [7; 7; 7; 7; 7] true) 2
           a_actions a_payoffs a_g a_zh a_ans 0 0 [3; 2]
           [1; 2; 3; 4; 5; 6; 7; 8; 9; 10; 11; 12] [1; 1; 1; 1; 1] [0; 0; 0; 0; 0]
           [7; 7; 7; 7; 7]).
  - small.
  - lia.
  - reflexivity.
  - simpl. lia.
  - small.
  - exact valid_3_2.
  - reflexivity.
  - simpl. lia.
  - reflexivity.
  - simpl. lia.
  - reflexivity.
  - simpl. lia.
  - reflexivity.
  - simpl. lia.
  - intros r gv zv av [= _ _ <- <-]. simpl. lia.
Defined.

Lemma cleanup_eq_releases_counted_handles_witness :
  NoDup [10%positive; 11%positive; 12%positive] ∧
  ∃ w',
    cleanup_eq (Some (EqArray 10%positive (zip [11%positive; 12%positive] [[1]; [2]]))) 1
      w_handles = Done tt w' ∧
    heap w' = heap w_handles ∖ list_to_set [10%positive; 11%positive] ∧
    12%positive ∈ heap w'.
Proof.
  assert (NoDup [10%positive; 11%positive; 12%positive]) as Hnd.
  { repeat (apply NoDup_cons; split; [set_solver|]). apply NoDup_nil_2. }
  split; [done|].
  destruct (cleanup_eq_releases_counted_handles ctor_ok zeroes w_handles 10%positive
              [11%positive; 12%positive] [[1]; [2]] 1 eq_refl Hnd)
    as (_ & w' & Hrun & Hheap & Hrest & _).
  - intros l Hl. split; [|set_solver].
    apply elem_of_cons in Hl as [-> | Hl]; [set_solver|].
    apply elem_of_cons in Hl as [-> | Hl]; [set_solver|].
    apply list_elem_of_singleton in Hl as ->. set_solver.
  - simpl. lia.
  - exists w'. split_and!; [done | done |]. apply Hrest. simpl. set_solver.
Defined.

Lemma gnm_always_returns_witness :
  valid_game 2 [3; 2] ∧
  ∃ r w',
    run_gnm two_found 2 w0 = Done r w' ∧
    ((r = gnm_code two_found (negb (oom w0 (4 + allocs w0)%nat)) ∧
      trace w' = trace w0 ++ [Ev_GNM two_found]) ∨
     ((¬ granted w0 4 ∨
       ctor_ok 2 [3; 2] [1; 2; 3; 4; 5; 6; 7; 8; 9; 10; 11; 12] ≠ None) ∧
      (r = -2 ∨ r = -3) ∧ trace w' = trace w0)).
Proof.
  split; [exact valid_3_2|].
  apply (gnm_always_returns ctor_ok (ipa_up 1) (gnm_up two_found) zeroes w0 2
           a_actions a_payoffs a_g a_answers 0 0 0 0 0 0 0 [3; 2]
           [1; 2; 3; 4; 5; 6; 7; 8; 9; 10; 11; 12] [1; 1; 1; 1; 1]).
  - small.
  - lia.
  - reflexivity.
  - simpl. lia.
  - small.
  - exact valid_3_2.
  - reflexivity.
  - simpl. lia.
  - reflexivity.
  - simpl. lia.
  - by eexists.
  - intros k g' Eq_ [= <- <- <-] _.
    exists [[1; 2; 3; 4; 5]; [6; 7; 8; 9; 10]].
    split_and!; [done | simpl; lia | repeat constructor | by vm_compute].
Defined.

Lemma gnm_touches_only_answers_cell_witness :
  run_gnm two_found 2 w0 = Done 2 after_two_found ∧
  heap w0 ⊆ heap after_two_found ∧
  (∀ c', Some a_answers ≠ Some c' → cells after_two_found !! c' = cells w0 !! c').
Proof.
  pose proof run_gnm_two_found as Hrun.
  destruct (gnm_touches_only_answers_cell ctor_ok (ipa_up 1) (gnm_up two_found) zeroes 2
              (Some a_actions) (Some a_payoffs) (Some a_g) (Some a_answers) 0 0 0 0 0 0 0
              w0 after_two_found 2 Hrun) as (Hcells & Hheap & _).
  by split_and!.
Defined.

Lemma gnm_ignores_stale_answers_witness :
  is_Some (cells w0 !! a_answers) ∧
  run_gnm two_found 2 (set_cells <[a_answers := Some a_ans]> w0) = Done 2 after_two_found.
Proof.
  assert (is_Some (cells w0 !! a_answers)) as Hcell by (by eexists).
  split; [done|]. unfold run_gnm.
  rewrite (gnm_ignores_stale_answers ctor_ok (gnm_up two_found) zeroes 2 (Some a_actions)
             (Some a_payoffs) (Some a_g) a_answers (Some a_ans) 0 0 0 0 0 0 0 w0 Hcell).
  exact run_gnm_two_found.
Defined.

(** A driver whose game makers build no game. *)
Definition no_game2 : string → option unit := λ _, None.
Definition no_game3 : Z → Z → Z → option unit := λ _ _ _, None.
Definition atoi0 : string → Z := λ _, 0.

Lemma main_reads_argv_within_argc_witness :
  ["gt"%string; "-i"%string; "-r"%string] ≠ [] ∧
  is_Some (main_arguments atoi0 no_game3 no_game2 ["gt"%string; "-i"%string; "-r"%string]).
Proof.
  assert (["gt"%string; "-i"%string; "-r"%string] ≠ []) as Hne by done.
  split; [done|].
  exact (main_reads_argv_within_argc atoi0 no_game3 no_game2 _ Hne).
Defined.

Lemma main_usage_iff_too_few_witness :
  main_arguments atoi0 no_game3 no_game2
    ["gt"%string; "-i"%string; "-r"%string; "2"%string; "3"%string; "5"%string]
  = Some (Exit [Usage "gt"%string] (-1)).
Proof.
  pose proof (main_usage_iff_too_few atoi0 no_game3 no_game2 "gt"%string
                ["-i"%string; "-r"%string; "2"%string; "3"%string; "5"%string]) as Hiff.
  cbn [after_flag] in Hiff. rewrite decide_True in Hiff by done.
  apply Hiff. rewrite decide_True by done. simpl. lia.
Defined.

Lemma main_selects_game_witness :
  main_arguments atoi0 no_game3 no_game2
    ["gt"%string; "-i"%string; "-i"%string; "7"%string; "more"%string]
  = Some (Exit [Unable] (-1)).
Proof.
  destruct (main_selects_game atoi0 no_game3 no_game2 "gt"%string "2"%string "3"%string
              "5"%string "-i"%string "7"%string ["more"%string]) as [_ Hfile].
  destruct (Hfile ltac:(done)) as [Hipa _]. exact Hipa.
Defined.

End Run.
